(** * Two-tier fixed-window rate limiter: the Go repositories, embedded

    Source files embedded here:
    - internal/ratelimit/infrastructure/hybrid_repository.go
      ([HybridRateLimitRepository] and, in the same listing,
      [RedisRateLimitRepository]);
    - the command handler [CheckRateLimitCommandHandler.Handle];
    - the port [ports.RateLimitRepository];
    - the command handler [CheckRateLimitWithDetailCommandHandler.Handle];
    - internal/ratelimit/presentation/http/rate_limit_handler.go
      ([RateLimitHandler.CheckRateLimit]);
    - the entity [domain.RateLimit];
    - internal/swagger/infrastructure/swagger_loader.go ([SwaggerLoader])
      and its provider [ProvideSwaggerLoader].

    Conventions.
    - Go's [int] and [int64] are 64-bit two's complement (the Dockerfile
      builds for amd64): a [Z] with the wrap-around [wrap64] written at every
      arithmetic site of the source.
    - [time.Duration] and [UnixNano] readings are [Z] nanoseconds.
    - The program state is a [World]: the hybrid repository's [sync.Map], the
      heap its [*CacheEntry] pointers point into, the key space of the Redis
      backend, whether the backend can be reached, and the wall clock.  The
      world also keeps the [trace] of every access to the table, to the heap
      cells and to the backend, so that "nothing was read or written" is a
      statement about the trace.
    - Code is written in the monad [M]: a call either returns a value and a
      new world, or panics (a failed type assertion, a nil dereference).
    - A call runs at one instant: [time_Now] reads the world's clock, and
      the clock moves between calls ([elapse]).  Goroutine interleavings are
      not part of this sequential model.  What the backend makes of a
      pipeline whose commands it takes at different instants, or between
      those of other callers, is [RedisServer.run_at].
    - Logging has no effect on results or state and is left out. *)

From Stdlib Require Import ZArith String List Lia.
From stdpp Require Import base option list gmap strings.

Local Open Scope string_scope.
Local Open Scope Z_scope.

(** ** Machine integers and durations *)

Definition min_int64 : Z := - 2 ^ 63.
Definition max_int64 : Z := 2 ^ 63 - 1.

Definition in_int64 (z : Z) : Prop := min_int64 <= z <= max_int64.

(** Two's-complement wrap-around of a 64-bit signed result. *)
Definition wrap64 (z : Z) : Z := (z + 2 ^ 63) mod 2 ^ 64 - 2 ^ 63.

Definition Second : Z := 1000000000.
Definition Minute : Z := 60 * Second.

(** [windowSize: time.Minute] in both constructors. *)
Definition windowSize : Z := Minute.

(** ** Data *)

(** [type CacheEntry struct { Count int64; Limit int; ResetTime int64 }] *)
Record CacheEntry := mkCacheEntry {
  Count : Z;
  Limit : Z;
  ResetTime : Z
}.

(** A pointer into the heap of cache entries; [None] is Go's [nil]. *)
Definition ptr : Type := option nat.

(** What a [sync.Map] slot can hold: the table stores [interface{}] values.
    Only the dynamic types that matter to the type assertion to
    [*CacheEntry] are told apart. *)
Inductive any : Type :=
  | nil_interface
  | CacheEntry_ptr (p : ptr)
  | other_value (dynamic_type : string).

(** Go [error] values built by [fmt.Errorf]; [%w] wraps its cause. *)
Inductive error : Type :=
  | errorString (msg : string)
  | wrapError (msg : string) (cause : error).

(** *** The Redis backend

    The backend is not part of the repository; the adapter only issues
    [SETNX key 0 window], [INCR key] and [TTL key].  Their effect on a key
    space follows the Redis command reference: a key whose expiry has passed
    is absent; [INCR] of an absent key creates it at 1 with no expiry; [TTL]
    answers an integer: the whole seconds left, -2 for an absent key and -1
    for a key without expiry. *)
Record RedisKey := mkRedisKey {
  value : Z;
  expire_at : option Z
}.

Inductive RedisCmd : Type :=
  | SetNX (key : string) (val : Z) (expiration : Z)
  | Incr (key : string)
  | TTL (key : string).

Inductive RedisReply : Type :=
  | BoolReply (b : bool)
  | IntReply (n : Z)
  | ErrorReply (e : error).

(** *** Trace of accesses *)
Inductive Event : Type :=
  | EvLoad (key : string)
  | EvStore (key : string)
  | EvDelete (key : string)
  | EvRange
  | EvNew (a : nat)
  | EvWrite (a : nat)
  | EvExec (cmds : list RedisCmd).

Record World := mkWorld {
  localCache : gmap string any;
  heap : list CacheEntry;
  redis : gmap string RedisKey;
  redis_down : bool;
  clock : Z;
  trace : list Event
}.

(** ** The monad of calls *)

Inductive Res (A : Type) : Type :=
  | Ok (a : A) (w : World)
  | Panic (msg : string).
Arguments Ok {A} a w.
Arguments Panic {A} msg.

Definition M (A : Type) : Type := World → Res A.

Global Instance M_ret : MRet M := λ A a w, Ok a w.

Global Instance M_bind : MBind M := λ A B k m w,
  match m w with
  | Ok a w' => k a w'
  | Panic msg => Panic msg
  end.

Definition panic {A} (msg : string) : M A := λ _, Panic msg.

Definition log (e : Event) (w : World) : World :=
  mkWorld (localCache w) (heap w) (redis w) (redis_down w) (clock w)
          (trace w ++ [e]).

(** [time.Now().UnixNano()] *)
Definition time_Now : M Z := λ w, Ok (clock w) w.

(** The environment: time passing between two calls, the backend going down
    or coming back. *)
Definition elapse (d : Z) (w : World) : World :=
  mkWorld (localCache w) (heap w) (redis w) (redis_down w) (clock w + d)
          (trace w).

Definition set_redis_down (b : bool) (w : World) : World :=
  mkWorld (localCache w) (heap w) (redis w) b (clock w) (trace w).

(** *** [sync.Map] *)
Module syncMap.

Definition Load (key : string) : M (option any) :=
  λ w, Ok (localCache w !! key) (log (EvLoad key) w).

Definition Store (key : string) (v : any) : M unit :=
  λ w, Ok tt (log (EvStore key)
               (mkWorld (<[key := v]> (localCache w)) (heap w) (redis w)
                        (redis_down w) (clock w) (trace w))).

Definition Delete (key : string) : M unit :=
  λ w, Ok tt (log (EvDelete key)
               (mkWorld (delete key (localCache w)) (heap w) (redis w)
                        (redis_down w) (clock w) (trace w))).

(** [Range] calls [f] on the pairs present when it starts, until [f]
    answers [false].  The callbacks of this program only delete the key
    they are visiting, so every pair is still there when its turn comes. *)
Fixpoint visit (f : string → any → M bool) (l : list (string * any))
  : M unit :=
  match l with
  | [] => mret tt
  | (k, v) :: l' =>
      continue ← f k v; if (continue : bool) then visit f l' else mret tt
  end.

Definition Range (f : string → any → M bool) : M unit :=
  λ w, visit f (map_to_list (localCache w)) (log EvRange w).

End syncMap.

(** *** Pointers to [CacheEntry] *)

(** The type assertion of a table value to [*CacheEntry]: it panics unless
    the dynamic type is [*CacheEntry] (a nil pointer of that type passes). *)
Definition assert_CacheEntry (v : any) : M ptr :=
  match v with
  | CacheEntry_ptr p => mret p
  | nil_interface =>
      panic "interface conversion: interface {} is nil, not *CacheEntry"
  | other_value _ =>
      panic "interface conversion: interface {} is not *CacheEntry"
  end.

(** [&CacheEntry{...}] *)
Definition new_CacheEntry (e : CacheEntry) : M ptr :=
  λ w, let a := length (heap w) in
       Ok (Some a)
          (log (EvNew a)
             (mkWorld (localCache w) (heap w ++ [e]) (redis w)
                      (redis_down w) (clock w) (trace w))).

(** Reading a field through a pointer ([atomic.LoadInt64(&entry.F)] or
    [entry.F]).  Go has no dangling pointers; the heap of the model only
    grows, and [cache_ok] below says that every pointer of the table has its
    pointee. *)
Definition load_field (f : CacheEntry → Z) (p : ptr) : M Z :=
  λ w, match p with
       | None => Panic "invalid memory address or nil pointer dereference"
       | Some a =>
           match heap w !! a with
           | Some e => Ok (f e) w
           | None => Panic "dangling pointer"
           end
       end.

(** Writing through a pointer ([atomic.StoreInt64], [atomic.AddInt64],
    [entry.Limit = limit]); [upd] is the change to the pointee. *)
Definition update_entry (upd : CacheEntry → CacheEntry) (p : ptr) : M unit :=
  λ w, match p with
       | None => Panic "invalid memory address or nil pointer dereference"
       | Some a =>
           match heap w !! a with
           | Some e =>
               Ok tt (log (EvWrite a)
                        (mkWorld (localCache w) (<[a := upd e]> (heap w))
                                 (redis w) (redis_down w) (clock w) (trace w)))
           | None => Panic "dangling pointer"
           end
       end.

Definition store_Count (v : Z) : ptr → M unit :=
  update_entry (λ e, mkCacheEntry v (Limit e) (ResetTime e)).
Definition store_Limit (v : Z) : ptr → M unit :=
  update_entry (λ e, mkCacheEntry (Count e) v (ResetTime e)).
Definition store_ResetTime (v : Z) : ptr → M unit :=
  update_entry (λ e, mkCacheEntry (Count e) (Limit e) v).
(** [atomic.AddInt64(&entry.Count, delta)] *)
Definition add_Count (delta : Z) : ptr → M unit :=
  update_entry (λ e, mkCacheEntry (wrap64 (Count e + delta)) (Limit e)
                                  (ResetTime e)).

(** ** The Redis backend and the pipeline of go-redis *)
Module RedisServer.

(** A key is still there at [now] unless its expiry has passed. *)
Definition live (now : Z) (k : RedisKey) : bool :=
  match expire_at k with
  | Some t => now <=? t
  | None => true
  end.

Definition get (now : Z) (key : string) (db : gmap string RedisKey)
  : option RedisKey :=
  match db !! key with
  | Some k => if live now k then Some k else None
  | None => None
  end.

Definition run (now : Z) (c : RedisCmd) (db : gmap string RedisKey)
  : RedisReply * gmap string RedisKey :=
  match c with
  | SetNX key v expiration =>
      match get now key db with
      | Some _ => (BoolReply false, db)
      | None =>
          (BoolReply true, <[key := mkRedisKey v (Some (now + expiration))]> db)
      end
  | Incr key =>
      match get now key db with
      | Some k =>
          if value k <? max_int64
          then (IntReply (value k + 1),
                <[key := mkRedisKey (value k + 1) (expire_at k)]> db)
          else (ErrorReply
                  (errorString "ERR increment or decrement would overflow"),
                db)
      | None => (IntReply 1, <[key := mkRedisKey 1 None]> db)
      end
  | TTL key =>
      match get now key db with
      | None => (IntReply (-2), db)
      | Some k =>
          match expire_at k with
          | None => (IntReply (-1), db)
          | Some t => (IntReply ((t - now) / Second), db)
          end
      end
  end.

Fixpoint run_all (now : Z) (cmds : list RedisCmd) (db : gmap string RedisKey)
  : list RedisReply * gmap string RedisKey :=
  match cmds with
  | [] => ([], db)
  | c :: cmds' =>
      let '(r, db1) := run now c db in
      let '(rs, db2) := run_all now cmds' db1 in
      (r :: rs, db2)
  end.

(** A pipeline is not a transaction: the server takes its commands one by
    one, each at the instant it gets to it, and the commands of other
    clients may come in between.  A schedule lists commands in the order
    the server takes them, each with its instant. *)
Fixpoint run_at (schedule : list (Z * RedisCmd)) (db : gmap string RedisKey)
  : list RedisReply * gmap string RedisKey :=
  match schedule with
  | [] => ([], db)
  | (now, c) :: schedule' =>
      let '(r, db1) := run now c db in
      let '(rs, db2) := run_at schedule' db1 in
      (r :: rs, db2)
  end.

End RedisServer.

(** The first error among the replies: what [pipe.Exec] returns when the
    commands were sent. *)
Fixpoint cmdsFirstErr (rs : list RedisReply) : option error :=
  match rs with
  | [] => None
  | ErrorReply e :: _ => Some e
  | _ :: rs' => cmdsFirstErr rs'
  end.

(** [pipe.Exec(ctx)] on the queued commands.  When the backend cannot be
    reached nothing is applied and an error comes back (one error stands for
    every connection, timeout or protocol failure); otherwise the commands
    run in order against the key space.  A call of the repository runs at
    one instant, so here the server takes the whole pipeline at the clock
    reading of the call and nothing comes in between:
    [RedisServer.run_all], the schedule of [RedisServer.run_at] in which all
    instants are the same.  What a pipeline does when its commands are
    taken at different instants, or between the commands of other callers,
    is stated on [RedisServer.run_at]. *)
Definition Exec (cmds : list RedisCmd) : M (list RedisReply * option error) :=
  λ w,
    if redis_down w
    then Ok ([], Some (errorString "dial tcp: connection refused"))
            (log (EvExec cmds) w)
    else
      let '(rs, db) := RedisServer.run_all (clock w) cmds (redis w) in
      Ok (rs, cmdsFirstErr rs)
         (log (EvExec cmds)
            (mkWorld (localCache w) (heap w) db (redis_down w) (clock w)
                     (trace w))).

(** [incrCmd.Val()] and [ttlCmd.Val()]: the zero value unless the command
    got its reply. *)
Definition IntCmd_Val (r : option RedisReply) : Z :=
  match r with
  | Some (IntReply n) => n
  | _ => 0
  end.

(** [pipe.TTL] makes a [DurationCmd] of precision [time.Second]: the
    integer the server replies is counted in seconds, except -2 and -1,
    which become [time.Duration(-2)] and [time.Duration(-1)]. *)
Definition DurationCmd_Val (r : option RedisReply) : Z :=
  match r with
  | Some (IntReply n) =>
      if (n =? -2) || (n =? -1) then n else wrap64 (n * Second)
  | _ => 0
  end.

(** ** [ports.RateLimitRepository] *)
Module ports.

Record RateLimitRepository := {
  RateLimit : string → Z → M bool;
  RateLimitWithDetail : string → Z → M (Z * Z * option error)
}.

End ports.

(** ** [RedisRateLimitRepository] *)
Module Redis.

(** [fmt.Sprintf("rate_limit:%s", userId)] *)
Definition key_of (userId : string) : string := "rate_limit:" +:+ userId.

Definition RateLimit (userId : string) (limit : Z) : M bool :=
  let key := key_of userId in
  '(replies, err) ← Exec [SetNX key 0 windowSize; Incr key];
  match err with
  | Some _ => mret false
  | None =>
      let currentCount := IntCmd_Val (replies !! 1%nat) in
      mret (currentCount <=? limit)
  end.

Definition RateLimitWithDetail (userId : string) (limit : Z)
  : M (Z * Z * option error) :=
  let key := key_of userId in
  '(replies, err) ← Exec [SetNX key 0 windowSize; Incr key; TTL key];
  match err with
  | Some e => mret (0, 0, Some (wrapError "failed to check rate limit" e))
  | None =>
      let currentCount := IntCmd_Val (replies !! 1%nat) in
      let ttl := DurationCmd_Val (replies !! 2%nat) in
      let remaining := wrap64 (limit - currentCount) in
      let remaining := if remaining <? 0 then 0 else remaining in
      mret (remaining, ttl, None)
  end.

End Redis.

Definition RedisRateLimitRepository : ports.RateLimitRepository :=
  {| ports.RateLimit := Redis.RateLimit;
     ports.RateLimitWithDetail := Redis.RateLimitWithDetail |}.

(** ** [HybridRateLimitRepository] *)
Module Hybrid.

Definition checkLocalCache (userId : string) (limit : Z) : M bool :=
  v ← syncMap.Load userId;
  match v with
  | None => mret true
  | Some value =>
      entry ← assert_CacheEntry value;
      now ← time_Now;
      resetTime ← load_field ResetTime entry;
      if now >? resetTime then mret true
      else
        count ← load_field Count entry;
        mret (count <? limit)
  end.

Definition updateLocalCacheWithRedisValues
    (userId : string) (limit currentCount ttl : Z) : M unit :=
  now ← time_Now;
  let resetTime := wrap64 (now + ttl) in
  v ← syncMap.Load userId;
  match v with
  | None =>
      entry ← new_CacheEntry (mkCacheEntry currentCount limit resetTime);
      syncMap.Store userId (CacheEntry_ptr entry)
  | Some value =>
      entry ← assert_CacheEntry value;
      store_Count currentCount entry;;
      store_Limit limit entry;;
      store_ResetTime resetTime entry
  end.

Definition incrementLocalCache (userId : string) (limit : Z) : M unit :=
  v ← syncMap.Load userId;
  match v with
  | None =>
      now ← time_Now;
      entry ← new_CacheEntry
                (mkCacheEntry 1 limit (wrap64 (now + windowSize)));
      syncMap.Store userId (CacheEntry_ptr entry)
  | Some value =>
      entry ← assert_CacheEntry value;
      nowNano ← time_Now;
      resetTime ← load_field ResetTime entry;
      if nowNano >? resetTime then
        store_Count 1 entry;;
        store_Limit limit entry;;
        now ← time_Now;
        store_ResetTime (wrap64 (now + windowSize)) entry
      else
        add_Count 1 entry
  end.

Definition RateLimit (userId : string) (limit : Z) : M bool :=
  allowedLocally ← checkLocalCache userId limit;
  if negb allowedLocally then mret false
  else
    '(currentCount, ttl, err) ← Redis.RateLimitWithDetail userId limit;
    match err with
    | Some _ =>
        incrementLocalCache userId limit;;
        v ← syncMap.Load userId;
        match v with
        | None => mret true
        | Some value =>
            entry ← assert_CacheEntry value;
            count ← load_field Count entry;
            mret (count <? limit)
        end
    | None =>
        updateLocalCacheWithRedisValues userId limit currentCount ttl;;
        mret (currentCount <=? limit)
    end.

Definition RateLimitWithDetail (userId : string) (limit : Z)
  : M (Z * Z * option error) :=
  allowedLocally ← checkLocalCache userId limit;
  if negb allowedLocally then
    v ← syncMap.Load userId;
    match v with
    | Some value =>
        entry ← assert_CacheEntry value;
        resetTime ← load_field ResetTime entry;
        now ← time_Now;
        if resetTime >? now
        then mret (0, wrap64 (resetTime - now), None)
        else mret (0, 0, None)
    | None => mret (0, 0, None)
    end
  else
    '(remaining, ttl, err) ← Redis.RateLimitWithDetail userId limit;
    match err with
    | Some e => mret (0, 0, Some e)
    | None =>
        incrementLocalCache userId limit;;
        mret (remaining, ttl, None)
    end.

(** The function literal handed to [Range]; [now] is the variable it
    captures.  Its counter of remaining entries only feeds the log. *)
Definition CleanupExpiredEntries_func1 (now : Z)
    (userId : string) (value : any) : M bool :=
  entry ← assert_CacheEntry value;
  resetTime ← load_field ResetTime entry;
  (if now >? resetTime then syncMap.Delete userId else mret tt);;
  mret true.

Definition CleanupExpiredEntries : M unit :=
  now ← time_Now;
  syncMap.Range (CleanupExpiredEntries_func1 now).

End Hybrid.

Definition HybridRateLimitRepository : ports.RateLimitRepository :=
  {| ports.RateLimit := Hybrid.RateLimit;
     ports.RateLimitWithDetail := Hybrid.RateLimitWithDetail |}.

(** [NewHybridRateLimitRepository] over a fresh backend: an empty table, an
    empty heap, an empty key space. *)
Definition NewWorld (now : Z) : World :=
  mkWorld ∅ [] ∅ false now [].

(** ** [CheckRateLimitCommandHandler] *)
Module command.

Record CheckRateLimitCommand := {
  UserID : string;
  Limit : Z
}.

Definition Handle (repository : ports.RateLimitRepository)
    (cmd : CheckRateLimitCommand) : M (bool * option error) :=
  if String.eqb (UserID cmd) "" then
    mret (false, Some (errorString "user ID cannot be empty"))
  else if Limit cmd <=? 0 then
    mret (false, Some (errorString "limit must be greater than 0"))
  else
    allowed ← ports.RateLimit repository (UserID cmd) (Limit cmd);
    mret (allowed, None).

End command.

(** ** Well-formed worlds *)

(** A table value is good when it is a non-nil [*CacheEntry] whose pointee
    exists. *)
Definition valid_value (h : list CacheEntry) (v : any) : bool :=
  match v with
  | CacheEntry_ptr (Some a) => bool_decide (a < length h)%nat
  | _ => false
  end.

Definition cache_ok (w : World) : Prop :=
  map_Forall (λ _ v, valid_value (heap w) v = true) (localCache w).

(** The entry a subject's slot points to, if any. *)
Definition entry_of (w : World) (userId : string) : option CacheEntry :=
  match localCache w !! userId with
  | Some (CacheEntry_ptr (Some a)) => heap w !! a
  | _ => None
  end.

(** ** Vocabulary of the statements *)

(** The commands the adapter queues for the detailed check. *)
Definition detail_cmds (userId : string) : list RedisCmd :=
  [SetNX (Redis.key_of userId) 0 windowSize; Incr (Redis.key_of userId);
   TTL (Redis.key_of userId)].

(** The commands the adapter queues for the plain check. *)
Definition limit_cmds (userId : string) : list RedisCmd :=
  [SetNX (Redis.key_of userId) 0 windowSize; Incr (Redis.key_of userId)].

(** The backend and the clock are the same in both worlds. *)
Definition same_backend (w w' : World) : Prop :=
  redis w' = redis w ∧ redis_down w' = redis_down w ∧ clock w' = clock w.

(** Table, heap, backend and clock are the same in both worlds. *)
Definition unchanged (w w' : World) : Prop :=
  localCache w' = localCache w ∧ heap w' = heap w ∧ redis w' = redis w ∧
  redis_down w' = redis_down w ∧ clock w' = clock w.

(** The errors the command handler raises for a malformed command. *)
Definition ValidationError (e : error) : Prop :=
  e = errorString "user ID cannot be empty" ∨
  e = errorString "limit must be greater than 0".

(** The world a call leaves behind, and the value it returns. *)
Definition world_after {A} (r : Res A) : World :=
  match r with
  | Ok _ w => w
  | Panic _ => NewWorld 0
  end.

Definition result_of {A} (r : Res A) : option A :=
  match r with
  | Ok a _ => Some a
  | Panic _ => None
  end.

(** The same call repeated, each time after the given delay. *)
Fixpoint replay {A} (call : M A) (delays : list Z) : M (list A) :=
  match delays with
  | [] => mret []
  | d :: delays' =>
      a ← (λ w, call (elapse d w));
      rest ← replay call delays';
      mret (a :: rest)
  end.

(** Requests that all fall in the window that ends at [e]: each delay moves
    the clock from [now], and no request comes after [e]. *)
Fixpoint within_window (now e : Z) (delays : list Z) : Prop :=
  match delays with
  | [] => True
  | d :: delays' => now + d <= e ∧ within_window (now + d) e delays'
  end.

(** ** Worlds of the examples *)

(** One request of subject "u" with limit 1 at time 0 through
    [Hybrid.RateLimitWithDetail]: the local entry is at its limit. *)
Definition exhausted_world : World :=
  world_after (Hybrid.RateLimitWithDetail "u" 1 (NewWorld 0)).

(** The same world one full window later, at the very reset instant. *)
Definition reset_instant_world : World := elapse windowSize exhausted_world.

(** The same world with the backend out of reach. *)
Definition outage_world : World := set_redis_down true exhausted_world.

(** Three requests of "u" counted by the backend through the Redis-only
    repository (or by another instance on the same backend, or by this one
    before a restart); this instance's table is still empty. *)
Definition shared_backend_world : World :=
  world_after (Redis.RateLimit "u" 10
    (world_after (Redis.RateLimit "u" 10
      (world_after (Redis.RateLimit "u" 10 (NewWorld 0)))))).

(** A backend whose counter for "u" has no expiry, as [INCR] leaves it when
    the key expires after the pipeline's [SETNX] and before its [INCR]. *)
Definition no_expiry_world : World :=
  mkWorld ∅ [] {[ "rate_limit:u" := mkRedisKey 1 None ]} false 0 [].

(** ** Proof tools *)

Global Instance cache_ok_dec w : Decision (cache_ok w).
Proof. unfold cache_ok. apply _. Defined.

Ltac go_unfold :=
  unfold mbind, M_bind, mret, M_ret, syncMap.Load, syncMap.Store,
    syncMap.Delete, assert_CacheEntry, new_CacheEntry, load_field,
    store_Count, store_Limit, store_ResetTime, add_Count, update_entry,
    time_Now, log; simpl.

(** ** Vocabulary of the further statements *)

Definition Zsum (l : list Z) : Z := foldr Z.add 0 l.

(** The instant of the request number [i] (from 0) of a run that starts at
    [now] and waits [delays] before its requests. *)
Definition arrival (now : Z) (delays : list Z) (i : nat) : Z :=
  now + Zsum (take (S i) delays).


(** A returned time until reset that is less than a second away from the
    time left: the backend counts a time to live in whole seconds. *)
Definition within_a_second (left ttl : Z) : Prop :=
  left - Second < ttl < left + Second.

(** * The callers and the neighbours of the repositories *)

(** ** [CheckRateLimitWithDetailCommandHandler] *)
Module commandWithDetail.

Record CheckRateLimitWithDetailCommand := {
  UserID : string;
  Limit : Z
}.

Record CheckRateLimitWithDetailResponse := {
  Remaining : Z;
  ResetTime : Z;
  Allowed : bool
}.

(** The response is a pointer: [None] is the [nil] returned with an error. *)
Definition Handle (repository : ports.RateLimitRepository)
    (cmd : CheckRateLimitWithDetailCommand)
  : M (option CheckRateLimitWithDetailResponse * option error) :=
  if String.eqb (UserID cmd) "" then
    mret (None, Some (errorString "user ID cannot be empty"))
  else if Limit cmd <=? 0 then
    mret (None, Some (errorString "limit must be greater than 0"))
  else
    '(remaining, resetTime, err) ←
      ports.RateLimitWithDetail repository (UserID cmd) (Limit cmd);
    match err with
    | Some e => mret (None, Some (wrapError "failed to check rate limit" e))
    | None =>
        let allowed := remaining >? 0 in
        let response := {| Remaining := remaining;
                           ResetTime := resetTime;
                           Allowed := allowed |} in
        mret (Some response, None)
    end.

End commandWithDetail.

(** [err.Error()]: [%w] prints the cause after the message. *)
Fixpoint Error (e : error) : string :=
  match e with
  | errorString msg => msg
  | wrapError msg cause => msg +:+ ": " +:+ Error cause
  end.

(** ** [RateLimitHandler], the HTTP endpoint *)
Module http.

Definition StatusOK : Z := 200.
Definition StatusBadRequest : Z := 400.
Definition StatusTooManyRequests : Z := 429.
Definition StatusInternalServerError : Z := 500.

Record RateLimitRequest := {
  req_UserID : string;
  req_Limit : Z
}.

Record RateLimitResponse := {
  Allowed : bool;
  Remaining : Z;
  ResetTime : Z;
  UserID : string;
  Limit : Z
}.

(** The JSON document sent back: a [fiber.Map] with an error and optional
    details, or a [RateLimitResponse]. *)
Inductive Body : Type :=
  | ErrorBody (error : string) (details : option string)
  | RateLimitBody (response : RateLimitResponse).

Record Reply := {
  StatusCode : Z;
  body : Body
}.

Section CheckRateLimit.

(** [int64(d.Seconds())] goes through [float64]; the conversion is left
    open, and nothing below depends on what it computes. *)
Variable whole_seconds : Z → Z.

(** [parsed] is what [c.BodyParser(&req)] made of the request body: its
    error text, or the request. *)
Definition CheckRateLimit (repository : ports.RateLimitRepository)
    (parsed : string + RateLimitRequest) : M Reply :=
  match parsed with
  | inl parse_error =>
      mret {| StatusCode := StatusBadRequest;
              body := ErrorBody "Invalid request body" (Some parse_error) |}
  | inr req =>
      if String.eqb (req_UserID req) "" then
        mret {| StatusCode := StatusBadRequest;
                body := ErrorBody "user_id is required" None |}
      else if req_Limit req <=? 0 then
        mret {| StatusCode := StatusBadRequest;
                body := ErrorBody "limit must be greater than 0" None |}
      else
        let cmd := {| commandWithDetail.UserID := req_UserID req;
                      commandWithDetail.Limit := req_Limit req |} in
        '(result, err) ← commandWithDetail.Handle repository cmd;
        match err with
        | Some e =>
            mret {| StatusCode := StatusInternalServerError;
                    body := ErrorBody "Failed to check rate limit"
                                      (Some (Error e)) |}
        | None =>
            match result with
            | None =>
                panic "invalid memory address or nil pointer dereference"
            | Some result =>
                let response :=
                  {| Allowed := commandWithDetail.Allowed result;
                     Remaining := commandWithDetail.Remaining result;
                     ResetTime :=
                       whole_seconds (commandWithDetail.ResetTime result);
                     UserID := req_UserID req;
                     Limit := req_Limit req |} in
                let statusCode :=
                  if negb (commandWithDetail.Allowed result)
                  then StatusTooManyRequests else StatusOK in
                mret {| StatusCode := statusCode;
                        body := RateLimitBody response |}
            end
        end
  end.

End CheckRateLimit.

End http.

(** ** [domain.RateLimit], the rate limit entity

    The entity keeps a [time.Time]; instants are nanoseconds in [Z], without
    a bound.  [IsAllowed] reads the clock twice: [now] is the reading it
    compares with the reset time, [now'] the one the new window starts
    from. *)
Module domain.

Record RateLimit := {
  UserID : string;
  Limit : Z;
  Remaining : Z;
  ResetTime : Z;
  Window : Z
}.

Definition NewRateLimit (now : Z) (userID : string) (limit window : Z)
  : RateLimit :=
  {| UserID := userID;
     Limit := limit;
     Remaining := limit;
     ResetTime := now + window;
     Window := window |}.

Definition IsAllowed (now now' : Z) (rl : RateLimit) : bool * RateLimit :=
  let rl :=
    if now >? ResetTime rl then
      {| UserID := UserID rl;
         Limit := Limit rl;
         Remaining := Limit rl;
         ResetTime := now' + Window rl;
         Window := Window rl |}
    else rl in
  if Remaining rl >? 0 then
    (true, {| UserID := UserID rl;
              Limit := Limit rl;
              Remaining := wrap64 (Remaining rl - 1);
              ResetTime := ResetTime rl;
              Window := Window rl |})
  else (false, rl).

Definition Reset (now : Z) (rl : RateLimit) : RateLimit :=
  {| UserID := UserID rl;
     Limit := Limit rl;
     Remaining := Limit rl;
     ResetTime := now + Window rl;
     Window := Window rl |}.

(** A run of [IsAllowed] calls, one per pair of clock readings. *)
Fixpoint requests (readings : list (Z * Z)) (rl : RateLimit)
  : list bool * RateLimit :=
  match readings with
  | [] => ([], rl)
  | (now, now') :: readings' =>
      let '(allowed, rl1) := IsAllowed now now' rl in
      let '(rest, rl2) := requests readings' rl1 in
      (allowed :: rest, rl2)
  end.

End domain.

(** ** [SwaggerLoader]

    The file system is a table from paths to contents; [os.ReadFile] fails
    on a path that is not there. *)
Module swagger.

Record SwaggerConfig := {
  OpenApiFilePath : string;
  SwaggerFilePath : string
}.

(** [openapi] and [swaggerHtml] are byte slices: [None] is the nil slice. *)
Record SwaggerLoader := {
  config : SwaggerConfig;
  openapi : option (list Byte.byte);
  swaggerHtml : option (list Byte.byte)
}.

Definition ReadFile (fs : gmap string (list Byte.byte)) (name : string)
  : list Byte.byte + error :=
  match fs !! name with
  | Some data => inl data
  | None => inr (errorString ("open " +:+ name +:+ ": no such file or directory"))
  end.

Definition NewSwaggerLoader (config : SwaggerConfig) : SwaggerLoader :=
  {| config := config; openapi := None; swaggerHtml := None |}.

(** [Init] changes the loader in place: the loader after the call comes
    back beside the error. *)
Definition Init (fs : gmap string (list Byte.byte)) (a : SwaggerLoader)
  : SwaggerLoader * option error :=
  match ReadFile fs (OpenApiFilePath (config a)) with
  | inr err => (a, Some (wrapError "failed to read OpenAPI spec" err))
  | inl data =>
      let a := {| config := config a;
                  openapi := Some data;
                  swaggerHtml := swaggerHtml a |} in
      match ReadFile fs (SwaggerFilePath (config a)) with
      | inr err => (a, Some (wrapError "failed to read Swagger HTML" err))
      | inl html =>
          ({| config := config a;
              openapi := openapi a;
              swaggerHtml := Some html |}, None)
      end
  end.

Definition GetOpenAPISpec (a : SwaggerLoader)
  : option (list Byte.byte) * option error := (openapi a, None).

Definition GetSwaggerHTML (a : SwaggerLoader)
  : option (list Byte.byte) * option error := (swaggerHtml a, None).

Definition ProvideSwaggerConfig : SwaggerConfig :=
  {| OpenApiFilePath := "./api/openapi.yaml";
     SwaggerFilePath := "./api/swagger.html" |}.

Definition ProvideSwaggerLoader (fs : gmap string (list Byte.byte))
    (config : SwaggerConfig) : option SwaggerLoader * option error :=
  let loader := NewSwaggerLoader config in
  match Init fs loader with
  | (_, Some err) => (None, Some err)
  | (loader, None) => (Some loader, None)
  end.

End swagger.

(** ** Vocabulary of the statements about the table *)

(** No two subjects share a cache entry. *)
Definition no_alias (w : World) : Prop :=
  ∀ s1 s2 a,
    localCache w !! s1 = Some (CacheEntry_ptr (Some a)) →
    localCache w !! s2 = Some (CacheEntry_ptr (Some a)) →
    s1 = s2.

(** Whatever belongs to subjects other than [s] is the same in both worlds:
    their cache entry and their counter at the backend. *)
Definition others_untouched (s : string) (w w' : World) : Prop :=
  ∀ s', s' ≠ s →
    entry_of w' s' = entry_of w s' ∧
    redis w' !! Redis.key_of s' = redis w !! Redis.key_of s'.

(** The pipelines sent to the backend so far, and the verdict of the local
    check on a well-formed table. *)
Definition is_exec (ev : Event) : bool :=
  match ev with
  | EvExec _ => true
  | _ => false
  end.

Definition backend_calls (w : World) : nat :=
  length (List.filter is_exec (trace w)).

Definition passes_locally (w : World) (userId : string) (limit : Z) : bool :=
  match entry_of w userId with
  | None => true
  | Some e => if clock w >? ResetTime e then true else Count e <? limit
  end.

(** ** What the callers make of a repository's answer *)

(** The tail of [commandWithDetail.Handle], after the repository returned. *)
Definition detail_reply (r : Z * Z * option error)
  : option commandWithDetail.CheckRateLimitWithDetailResponse * option error :=
  match r with
  | (_, _, Some e) => (None, Some (wrapError "failed to check rate limit" e))
  | (remaining, resetTime, None) =>
      (Some {| commandWithDetail.Remaining := remaining;
               commandWithDetail.ResetTime := resetTime;
               commandWithDetail.Allowed := remaining >? 0 |}, None)
  end.

(** The tail of [http.CheckRateLimit] for a well-formed request, after the
    repository returned. *)
Definition http_reply (whole_seconds : Z → Z) (req : http.RateLimitRequest)
    (r : Z * Z * option error) : http.Reply :=
  match r with
  | (_, _, Some e) =>
      {| http.StatusCode := http.StatusInternalServerError;
         http.body :=
           http.ErrorBody "Failed to check rate limit"
             (Some (Error (wrapError "failed to check rate limit" e))) |}
  | (remaining, resetTime, None) =>
      {| http.StatusCode :=
           if remaining >? 0 then http.StatusOK
           else http.StatusTooManyRequests;
         http.body :=
           http.RateLimitBody
             {| http.Allowed := remaining >? 0;
                http.Remaining := remaining;
                http.ResetTime := whole_seconds resetTime;
                http.UserID := http.req_UserID req;
                http.Limit := http.req_Limit req |} |}
  end.

(** ** Basic facts *)

Lemma wrap64_id z : in_int64 z → wrap64 z = z.
Proof.
  unfold in_int64, min_int64, max_int64, wrap64. intros Hz.
  rewrite Z.mod_small; lia.
Qed.

Lemma wrap64_range z : in_int64 (wrap64 z).
Proof.
  unfold in_int64, min_int64, max_int64, wrap64.
  pose proof (Z.mod_pos_bound (z + 2 ^ 63) (2 ^ 64)). lia.
Qed.

Lemma windowSize_pos : 0 < windowSize.
Proof. reflexivity. Qed.

(** The duration go-redis makes of a [TTL] reply of whole seconds. *)
Lemma DurationCmd_Val_seconds n :
  0 <= n → DurationCmd_Val (Some (IntReply n)) = wrap64 (n * Second).
Proof.
  intros Hn. unfold DurationCmd_Val.
  assert ((n =? -2) = false) as -> by lia.
  by assert ((n =? -1) = false) as -> by lia.
Qed.

Lemma seconds_left_bounds left :
  0 <= left <= max_int64 →
  wrap64 (left / Second * Second) = left / Second * Second ∧
  0 <= left / Second * Second ∧
  left - Second < left / Second * Second <= left.
Proof.
  intros Hleft. assert (HS : 0 < Second) by reflexivity.
  pose proof (Z.mul_div_le left Second HS).
  pose proof (Z.mul_succ_div_gt left Second HS).
  pose proof (Z.div_pos left Second (proj1 Hleft) HS).
  split; [|nia]. apply wrap64_id.
  unfold in_int64, min_int64, max_int64 in *. nia.
Qed.

Lemma DurationCmd_Val_window :
  DurationCmd_Val (Some (IntReply (windowSize / Second))) = windowSize.
Proof. vm_compute. reflexivity. Qed.

Lemma fmap_repeat {A B} (f : A → B) (x : A) (n : nat) :
  f <$> repeat x n = repeat (f x) n.
Proof. induction n as [|n IH]; [done|]. simpl. by f_equal. Qed.

Lemma valid_value_inv h v :
  valid_value h v = true →
  ∃ a e, v = CacheEntry_ptr (Some a) ∧ h !! a = Some e.
Proof.
  destruct v as [|[a|]|]; simpl; try discriminate.
  intros Ha%bool_decide_eq_true.
  destruct (lookup_lt_is_Some_2 h a Ha) as [e He]. eauto.
Qed.

Lemma valid_value_grow h h' v :
  (length h ≤ length h')%nat → valid_value h v = true → valid_value h' v = true.
Proof.
  destruct v as [|[a|]|]; simpl; try discriminate.
  intros Hl Ha%bool_decide_eq_true. apply bool_decide_eq_true. lia.
Qed.

Lemma cache_ok_lookup w s v :
  cache_ok w → localCache w !! s = Some v →
  ∃ a e, v = CacheEntry_ptr (Some a) ∧ heap w !! a = Some e.
Proof. intros Hok Hs. apply valid_value_inv. exact (Hok s v Hs). Qed.

Lemma cache_ok_entry_of w s :
  cache_ok w →
  (localCache w !! s = None ∧ entry_of w s = None) ∨
  (∃ a e, localCache w !! s = Some (CacheEntry_ptr (Some a)) ∧
          heap w !! a = Some e ∧ entry_of w s = Some e).
Proof.
  intros Hok. unfold entry_of. destruct (localCache w !! s) as [v|] eqn:Hs.
  - right. destruct (cache_ok_lookup w s v Hok Hs) as (a & e & -> & He).
    exists a, e. by rewrite He.
  - by left.
Qed.

Lemma entry_of_Some w s e :
  entry_of w s = Some e →
  ∃ a, localCache w !! s = Some (CacheEntry_ptr (Some a)) ∧ heap w !! a = Some e.
Proof.
  unfold entry_of. destruct (localCache w !! s) as [[|[a|]|]|]; try discriminate.
  eauto.
Qed.

Lemma entry_of_None w s :
  cache_ok w → entry_of w s = None → localCache w !! s = None.
Proof.
  intros Hok Hnone.
  destruct (cache_ok_entry_of w s Hok) as [[Hs _]|(a & e & _ & _ & He)];
    [done|congruence].
Qed.

Lemma cache_ok_same w w' :
  localCache w' = localCache w → heap w' = heap w → cache_ok w → cache_ok w'.
Proof. unfold cache_ok. by intros -> ->. Qed.

Lemma cache_ok_store_new w s e db d c t :
  cache_ok w →
  cache_ok (mkWorld
              (<[s := CacheEntry_ptr (Some (length (heap w)))]> (localCache w))
              (heap w ++ [e]) db d c t).
Proof.
  unfold cache_ok; simpl. intros Hok. apply map_Forall_insert_2.
  - apply bool_decide_eq_true. rewrite length_app. simpl. lia.
  - eapply map_Forall_impl; [exact Hok|]. simpl. intros _ v.
    apply valid_value_grow. rewrite length_app. lia.
Qed.

Lemma cache_ok_write w a e db d c t :
  cache_ok w → cache_ok (mkWorld (localCache w) (<[a := e]> (heap w)) db d c t).
Proof.
  unfold cache_ok; simpl. intros Hok.
  eapply map_Forall_impl; [exact Hok|]. simpl. intros _ v.
  apply valid_value_grow. by rewrite length_insert.
Qed.

Lemma cache_ok_delete w s db d c t :
  cache_ok w → cache_ok (mkWorld (delete s (localCache w)) (heap w) db d c t).
Proof. unfold cache_ok; simpl. apply map_Forall_delete. Qed.

Lemma same_backend_refl w : same_backend w w.
Proof. done. Qed.

Lemma same_backend_trans w1 w2 w3 :
  same_backend w1 w2 → same_backend w2 w3 → same_backend w1 w3.
Proof. unfold same_backend. intros (-> & -> & ->) (-> & -> & ->). done. Qed.

(** ** The backend *)

Lemma get_insert now key k db :
  RedisServer.get now key (<[key := k]> db)
  = if RedisServer.live now k then Some k else None.
Proof. unfold RedisServer.get. by rewrite lookup_insert_eq. Qed.

Lemma get_live now key db k :
  RedisServer.get now key db = Some k →
  db !! key = Some k ∧ RedisServer.live now k = true.
Proof.
  unfold RedisServer.get. destruct (db !! key) as [k'|]; [|done].
  destruct (RedisServer.live now k') eqn:Hl; [|done]. by intros [= <-].
Qed.

Lemma run_limit_cmds now s db :
  RedisServer.run_all now (limit_cmds s) db =
  match RedisServer.get now (Redis.key_of s) db with
  | None =>
      ([BoolReply true; IntReply 1],
       <[Redis.key_of s := mkRedisKey 1 (Some (now + windowSize))]>
         (<[Redis.key_of s := mkRedisKey 0 (Some (now + windowSize))]> db))
  | Some k =>
      if value k <? max_int64
      then ([BoolReply false; IntReply (value k + 1)],
            <[Redis.key_of s := mkRedisKey (value k + 1) (expire_at k)]> db)
      else ([BoolReply false;
             ErrorReply
               (errorString "ERR increment or decrement would overflow")],
            db)
  end.
Proof.
  unfold limit_cmds. simpl.
  destruct (RedisServer.get now (Redis.key_of s) db) as [k|] eqn:Hget.
  - rewrite Hget. by destruct (value k <? max_int64).
  - rewrite get_insert. unfold RedisServer.live. simpl.
    pose proof windowSize_pos.
    by assert ((now <=? now + windowSize) = true) as -> by lia.
Qed.

(** What the three queued commands do to the key space at time [now]. *)
Lemma run_detail_cmds now s db :
  RedisServer.run_all now (detail_cmds s) db =
  match RedisServer.get now (Redis.key_of s) db with
  | None =>
      ([BoolReply true; IntReply 1;
        IntReply ((now + windowSize - now) / Second)],
       <[Redis.key_of s := mkRedisKey 1 (Some (now + windowSize))]>
         (<[Redis.key_of s := mkRedisKey 0 (Some (now + windowSize))]> db))
  | Some k =>
      if value k <? max_int64
      then ([BoolReply false; IntReply (value k + 1);
             IntReply (match expire_at k with
                       | Some t => (t - now) / Second
                       | None => -1
                       end)],
            <[Redis.key_of s := mkRedisKey (value k + 1) (expire_at k)]> db)
      else ([BoolReply false;
             ErrorReply
               (errorString "ERR increment or decrement would overflow");
             IntReply (match expire_at k with
                       | Some t => (t - now) / Second
                       | None => -1
                       end)],
            db)
  end.
Proof.
  unfold detail_cmds. simpl.
  destruct (RedisServer.get now (Redis.key_of s) db) as [k|] eqn:Hget.
  - rewrite Hget. destruct (value k <? max_int64) eqn:Hv.
    + rewrite get_insert.
      destruct (get_live _ _ _ _ Hget) as [_ Hlive].
      unfold RedisServer.live in *. simpl. rewrite Hlive.
      by destruct (expire_at k).
    + rewrite Hget. by destruct (expire_at k).
  - rewrite get_insert. unfold RedisServer.live at 1. simpl.
    pose proof windowSize_pos.
    assert ((now <=? now + windowSize) = true) as -> by lia. simpl.
    rewrite get_insert. unfold RedisServer.live. simpl.
    by assert ((now <=? now + windowSize) = true) as -> by lia.
Qed.

(** Taken at one instant, a pipeline is a schedule with that instant
    throughout. *)
Lemma run_all_run_at now cmds db :
  RedisServer.run_all now cmds db = RedisServer.run_at (pair now <$> cmds) db.
Proof.
  revert db. induction cmds as [|c cmds IH]; intros db; [done|].
  simpl. destruct (RedisServer.run now c db) as [r db1]. by rewrite IH.
Qed.

(** The adapter never panics and only touches the backend. *)
Lemma Exec_frame w cmds :
  ∃ rs err db,
    Exec cmds w =
    Ok (rs, err) (mkWorld (localCache w) (heap w) db (redis_down w) (clock w)
                    (trace w ++ [EvExec cmds])).
Proof.
  unfold Exec. destruct (redis_down w) eqn:Hdown.
  - eexists [], _, (redis w). unfold log. by rewrite Hdown.
  - destruct (RedisServer.run_all (clock w) cmds (redis w)) as [rs db].
    by eexists rs, _, db.
Qed.

(** ** The Redis adapter *)

Lemma Redis_RateLimitWithDetail_down w s l :
  redis_down w = true →
  Redis.RateLimitWithDetail s l w =
  Ok (0, 0, Some (wrapError "failed to check rate limit"
                    (errorString "dial tcp: connection refused")))
     (log (EvExec (detail_cmds s)) w).
Proof.
  intros Hdown. unfold Redis.RateLimitWithDetail, Exec. go_unfold.
  by rewrite Hdown.
Qed.

Lemma Redis_RateLimitWithDetail_frame w s l :
  ∃ r db,
    Redis.RateLimitWithDetail s l w =
    Ok r (mkWorld (localCache w) (heap w) db (redis_down w) (clock w)
            (trace w ++ [EvExec (detail_cmds s)])).
Proof.
  unfold Redis.RateLimitWithDetail, mbind, M_bind.
  destruct (Exec_frame w (detail_cmds s)) as (rs & err & db & Hexec).
  unfold detail_cmds in Hexec. rewrite Hexec.
  destruct err; by eexists _, db.
Qed.

Lemma Redis_RateLimit_frame w s l :
  ∃ b db,
    Redis.RateLimit s l w =
    Ok b (mkWorld (localCache w) (heap w) db (redis_down w) (clock w)
            (trace w ++ [EvExec [SetNX (Redis.key_of s) 0 windowSize;
                                 Incr (Redis.key_of s)]])).
Proof.
  unfold Redis.RateLimit, mbind, M_bind.
  destruct (Exec_frame w [SetNX (Redis.key_of s) 0 windowSize;
                          Incr (Redis.key_of s)])
    as (rs & err & db & Hexec).
  rewrite Hexec. destruct err; by eexists _, db.
Qed.

(** What the detailed check returns and leaves when the backend answers. *)
Lemma Redis_RateLimitWithDetail_eq w s l :
  redis_down w = false →
  Redis.RateLimitWithDetail s l w =
  match RedisServer.get (clock w) (Redis.key_of s) (redis w) with
  | None =>
      Ok ((if wrap64 (l - 1) <? 0 then 0 else wrap64 (l - 1)),
          windowSize, None)
         (mkWorld (localCache w) (heap w)
            (<[Redis.key_of s := mkRedisKey 1 (Some (clock w + windowSize))]>
               (redis w))
            (redis_down w) (clock w) (trace w ++ [EvExec (detail_cmds s)]))
  | Some k =>
      if value k <? max_int64
      then
        Ok ((if wrap64 (l - (value k + 1)) <? 0 then 0
             else wrap64 (l - (value k + 1))),
            match expire_at k with
            | Some t => wrap64 ((t - clock w) / Second * Second)
            | None => -1
            end, None)
           (mkWorld (localCache w) (heap w)
              (<[Redis.key_of s := mkRedisKey (value k + 1) (expire_at k)]>
                 (redis w))
              (redis_down w) (clock w) (trace w ++ [EvExec (detail_cmds s)]))
      else
        Ok (0, 0,
            Some (wrapError "failed to check rate limit"
                    (errorString "ERR increment or decrement would overflow")))
           (mkWorld (localCache w) (heap w) (redis w) (redis_down w) (clock w)
              (trace w ++ [EvExec (detail_cmds s)]))
  end.
Proof.
  intros Hup. unfold Redis.RateLimitWithDetail, Exec, mbind, M_bind.
  rewrite Hup. fold (detail_cmds s). rewrite run_detail_cmds.
  destruct (RedisServer.get (clock w) (Redis.key_of s) (redis w)) as [k|]
    eqn:Hget.
  - destruct (value k <? max_int64); [|reflexivity].
    cbn [cmdsFirstErr lookup list_lookup IntCmd_Val log mret M_ret
         localCache heap redis redis_down clock trace].
    destruct (expire_at k) as [t|] eqn:Ht; [|reflexivity].
    rewrite DurationCmd_Val_seconds; [reflexivity|].
    destruct (get_live _ _ _ _ Hget) as [_ Hlive].
    unfold RedisServer.live in Hlive. rewrite Ht in Hlive.
    apply Z.div_pos; [lia|reflexivity].
  - cbn [cmdsFirstErr lookup list_lookup IntCmd_Val log mret M_ret
         localCache heap redis redis_down clock trace].
    replace (clock w + windowSize - clock w) with windowSize by lia.
    by rewrite DurationCmd_Val_window, insert_insert_eq.
Qed.

(** The count the backend reports for a request at [now]; the time to live
    is -1 or not negative, for an expiry that an [int64] of nanoseconds can
    reach. *)
Lemma Redis_RateLimitWithDetail_up w s l :
  redis_down w = false →
  (∀ k, RedisServer.get (clock w) (Redis.key_of s) (redis w) = Some k →
        value k < max_int64) →
  ∃ c ttl db,
    Redis.RateLimitWithDetail s l w =
    Ok ((if wrap64 (l - c) <? 0 then 0 else wrap64 (l - c)), ttl, None)
       (mkWorld (localCache w) (heap w) db (redis_down w) (clock w)
                (trace w ++ [EvExec (detail_cmds s)])) ∧
    c = match RedisServer.get (clock w) (Redis.key_of s) (redis w) with
        | Some k => value k + 1
        | None => 1
        end ∧
    (∃ e, db !! Redis.key_of s = Some (mkRedisKey c e)) ∧
    ((∀ k t, RedisServer.get (clock w) (Redis.key_of s) (redis w) = Some k →
             expire_at k = Some t → t - clock w <= max_int64) →
     ttl = -1 ∨ 0 <= ttl).
Proof.
  intros Hup Hroom. rewrite Redis_RateLimitWithDetail_eq by done.
  destruct (RedisServer.get (clock w) (Redis.key_of s) (redis w)) as [k|]
    eqn:Hget.
  - specialize (Hroom k eq_refl).
    assert ((value k <? max_int64) = true) as -> by lia.
    eexists _, _, _. split; [reflexivity|]. split; [reflexivity|].
    split; [eexists; cbn [redis]; apply lookup_insert_eq|].
    intros Hreach. destruct (get_live _ _ _ _ Hget) as [_ Hlive].
    unfold RedisServer.live in Hlive.
    destruct (expire_at k) as [t|] eqn:Ht; [|by left]. right.
    specialize (Hreach k t eq_refl Ht).
    destruct (seconds_left_bounds (t - clock w)) as (-> & Hpos & _); lia.
  - eexists _, _, _. split; [reflexivity|]. split; [reflexivity|].
    split; [eexists; cbn [redis]; apply lookup_insert_eq|].
    intros _. pose proof windowSize_pos. right. lia.
Qed.

Lemma Redis_remaining_nonneg w s l r ttl err w' :
  Redis.RateLimitWithDetail s l w = Ok (r, ttl, err) w' → 0 <= r.
Proof.
  unfold Redis.RateLimitWithDetail, mbind, M_bind.
  destruct (Exec_frame w (detail_cmds s)) as (rs & e & db & Hexec).
  unfold detail_cmds in Hexec. rewrite Hexec.
  destruct e; intros [= <- _ _ _]; [lia|]. destruct (_ <? _) eqn:Hneg; lia.
Qed.

Lemma Redis_RateLimit_fresh w s L :
  redis_down w = false → redis w !! Redis.key_of s = None →
  Redis.RateLimit s L w =
  Ok (1 <=? L)
     (mkWorld (localCache w) (heap w)
        (<[Redis.key_of s := mkRedisKey 1 (Some (clock w + windowSize))]>
           (<[Redis.key_of s := mkRedisKey 0 (Some (clock w + windowSize))]>
              (redis w)))
        (redis_down w) (clock w) (trace w ++ [EvExec (limit_cmds s)])).
Proof.
  intros Hup Hnone. unfold Redis.RateLimit, Exec, mbind, M_bind. rewrite Hup.
  fold (limit_cmds s). rewrite run_limit_cmds.
  unfold RedisServer.get. by rewrite Hnone.
Qed.

Lemma Redis_RateLimit_live w s L c e :
  redis_down w = false →
  redis w !! Redis.key_of s = Some (mkRedisKey c (Some e)) →
  clock w <= e → c < max_int64 →
  Redis.RateLimit s L w =
  Ok (c + 1 <=? L)
     (mkWorld (localCache w) (heap w)
        (<[Redis.key_of s := mkRedisKey (c + 1) (Some e)]> (redis w))
        (redis_down w) (clock w) (trace w ++ [EvExec (limit_cmds s)])).
Proof.
  intros Hup Hk Hlive Hc. unfold Redis.RateLimit, Exec, mbind, M_bind.
  rewrite Hup. fold (limit_cmds s). rewrite run_limit_cmds.
  unfold RedisServer.get, RedisServer.live. rewrite Hk. cbn [expire_at].
  assert ((clock w <=? e) = true) as -> by lia. cbn [value].
  by assert ((c <? max_int64) = true) as -> by lia.
Qed.

(** Run on its own, the adapter leaves no counter without an expiry behind
    unless there was one before: the pipeline is taken at one instant. *)
Lemma Redis_RateLimitWithDetail_keeps_expiry w s l r w' :
  map_Forall (λ _ k, is_Some (expire_at k)) (redis w) →
  Redis.RateLimitWithDetail s l w = Ok r w' →
  map_Forall (λ _ k, is_Some (expire_at k)) (redis w').
Proof.
  intros Hexp. unfold Redis.RateLimitWithDetail, Exec, mbind, M_bind.
  destruct (redis_down w).
  { intros [= _ <-]. exact Hexp. }
  fold (detail_cmds s). rewrite run_detail_cmds.
  destruct (RedisServer.get (clock w) (Redis.key_of s) (redis w)) as [k|]
    eqn:Hget.
  - apply get_live in Hget as [Hk _]. pose proof (Hexp _ _ Hk) as Hke.
    destruct (value k <? max_int64); simpl; intros [= _ <-]; [|exact Hexp].
    by apply map_Forall_insert_2.
  - simpl. intros [= _ <-]. cbn [redis].
    by repeat apply map_Forall_insert_2.
Qed.

(** ** The table operations of the hybrid repository *)

Lemma checkLocalCache_eq w s l :
  cache_ok w →
  Hybrid.checkLocalCache s l w =
  Ok (match entry_of w s with
      | None => true
      | Some e => if clock w >? ResetTime e then true else Count e <? l
      end) (log (EvLoad s) w).
Proof.
  intros Hok. unfold Hybrid.checkLocalCache.
  destruct (cache_ok_entry_of w s Hok) as [[Hs ->]|(a & e & Hs & He & ->)];
    go_unfold; rewrite Hs; simpl; [reflexivity|].
  rewrite He. destruct (clock w >? ResetTime e); simpl; [reflexivity|].
  by rewrite He.
Qed.

Lemma checkLocalCache_pass w s l :
  cache_ok w →
  (∀ e, entry_of w s = Some e → clock w <= ResetTime e → Count e < l) →
  Hybrid.checkLocalCache s l w = Ok true (log (EvLoad s) w).
Proof.
  intros Hok Hpass. rewrite checkLocalCache_eq by done.
  destruct (entry_of w s) as [e|]; [|done].
  destruct (Z.gtb_spec (clock w) (ResetTime e)); [done|].
  specialize (Hpass e eq_refl). by assert ((Count e <? l) = true) as -> by lia.
Qed.

Lemma checkLocalCache_ok w s l :
  cache_ok w →
  ∃ b w', Hybrid.checkLocalCache s l w = Ok b w' ∧ cache_ok w'.
Proof.
  intros Hok. eexists _, _. split; [by apply checkLocalCache_eq|].
  by apply (cache_ok_same w).
Qed.

Lemma updateLocalCacheWithRedisValues_absent w s l c ttl :
  localCache w !! s = None →
  Hybrid.updateLocalCacheWithRedisValues s l c ttl w =
  Ok tt (mkWorld
           (<[s := CacheEntry_ptr (Some (length (heap w)))]> (localCache w))
           (heap w ++ [mkCacheEntry c l (wrap64 (clock w + ttl))])
           (redis w) (redis_down w) (clock w)
           (trace w ++ [EvLoad s; EvNew (length (heap w)); EvStore s])).
Proof.
  intros Hs. unfold Hybrid.updateLocalCacheWithRedisValues. go_unfold.
  rewrite Hs. simpl. by rewrite <- !app_assoc.
Qed.

Lemma updateLocalCacheWithRedisValues_present w s l c ttl a e :
  localCache w !! s = Some (CacheEntry_ptr (Some a)) →
  heap w !! a = Some e →
  Hybrid.updateLocalCacheWithRedisValues s l c ttl w =
  Ok tt (mkWorld
           (localCache w)
           (<[a := mkCacheEntry c l (wrap64 (clock w + ttl))]> (heap w))
           (redis w) (redis_down w) (clock w)
           (trace w ++ [EvLoad s; EvWrite a; EvWrite a; EvWrite a])).
Proof.
  intros Hs He. unfold Hybrid.updateLocalCacheWithRedisValues. go_unfold.
  rewrite Hs. simpl. rewrite He. simpl.
  assert (Ha : (a < length (heap w))%nat) by (apply lookup_lt_is_Some; eauto).
  rewrite list_lookup_insert_eq by done. simpl.
  rewrite list_lookup_insert_eq by (by rewrite length_insert). simpl.
  rewrite !list_insert_insert_eq. by rewrite <- !app_assoc.
Qed.

Lemma updateLocalCacheWithRedisValues_ok w s l c ttl :
  cache_ok w →
  ∃ w', Hybrid.updateLocalCacheWithRedisValues s l c ttl w = Ok tt w' ∧
        cache_ok w' ∧ same_backend w w' ∧
        entry_of w' s = Some (mkCacheEntry c l (wrap64 (clock w + ttl))).
Proof.
  intros Hok.
  destruct (cache_ok_entry_of w s Hok) as [[Hs _]|(a & e & Hs & He & _)].
  - eexists. split; [by apply updateLocalCacheWithRedisValues_absent|].
    split; [by apply cache_ok_store_new|]. split; [done|].
    unfold entry_of; simpl. rewrite lookup_insert_eq.
    by rewrite lookup_app_r, Nat.sub_diag.
  - eexists. split; [by eapply updateLocalCacheWithRedisValues_present|].
    split; [by apply cache_ok_write|]. split; [done|].
    unfold entry_of; simpl. rewrite Hs.
    apply list_lookup_insert_eq, lookup_lt_is_Some; eauto.
Qed.

Lemma incrementLocalCache_absent w s l :
  localCache w !! s = None →
  Hybrid.incrementLocalCache s l w =
  Ok tt (mkWorld
           (<[s := CacheEntry_ptr (Some (length (heap w)))]> (localCache w))
           (heap w ++ [mkCacheEntry 1 l (wrap64 (clock w + windowSize))])
           (redis w) (redis_down w) (clock w)
           (trace w ++ [EvLoad s; EvNew (length (heap w)); EvStore s])).
Proof.
  intros Hs. unfold Hybrid.incrementLocalCache. go_unfold.
  rewrite Hs. simpl. by rewrite <- !app_assoc.
Qed.

Lemma incrementLocalCache_expired w s l a e :
  localCache w !! s = Some (CacheEntry_ptr (Some a)) →
  heap w !! a = Some e →
  ResetTime e < clock w →
  Hybrid.incrementLocalCache s l w =
  Ok tt (mkWorld
           (localCache w)
           (<[a := mkCacheEntry 1 l (wrap64 (clock w + windowSize))]> (heap w))
           (redis w) (redis_down w) (clock w)
           (trace w ++ [EvLoad s; EvWrite a; EvWrite a; EvWrite a])).
Proof.
  intros Hs He Hexp. unfold Hybrid.incrementLocalCache. go_unfold.
  rewrite Hs. simpl. rewrite He.
  assert (Hgt : (clock w >? ResetTime e) = true) by lia. rewrite Hgt. simpl.
  rewrite He. simpl.
  assert (Ha : (a < length (heap w))%nat) by (apply lookup_lt_is_Some; eauto).
  rewrite list_lookup_insert_eq by done. simpl.
  rewrite list_lookup_insert_eq by (by rewrite length_insert). simpl.
  rewrite !list_insert_insert_eq. by rewrite <- !app_assoc.
Qed.

Lemma incrementLocalCache_live w s l a e :
  localCache w !! s = Some (CacheEntry_ptr (Some a)) →
  heap w !! a = Some e →
  clock w <= ResetTime e →
  Hybrid.incrementLocalCache s l w =
  Ok tt (mkWorld
           (localCache w)
           (<[a := mkCacheEntry (wrap64 (Count e + 1)) (Limit e) (ResetTime e)]>
              (heap w))
           (redis w) (redis_down w) (clock w)
           (trace w ++ [EvLoad s; EvWrite a])).
Proof.
  intros Hs He Hlive. unfold Hybrid.incrementLocalCache. go_unfold.
  rewrite Hs. simpl. rewrite He.
  assert (Hgt : (clock w >? ResetTime e) = false) by lia. rewrite Hgt. simpl.
  rewrite He. by rewrite <- !app_assoc.
Qed.

Lemma incrementLocalCache_ok w s l :
  cache_ok w →
  ∃ w', Hybrid.incrementLocalCache s l w = Ok tt w' ∧
        cache_ok w' ∧ same_backend w w' ∧
        entry_of w' s =
        Some (match entry_of w s with
              | None => mkCacheEntry 1 l (wrap64 (clock w + windowSize))
              | Some e =>
                  if clock w >? ResetTime e
                  then mkCacheEntry 1 l (wrap64 (clock w + windowSize))
                  else mkCacheEntry (wrap64 (Count e + 1)) (Limit e)
                                    (ResetTime e)
              end).
Proof.
  intros Hok.
  destruct (cache_ok_entry_of w s Hok) as [[Hs ->]|(a & e & Hs & He & ->)].
  - eexists. split; [by apply incrementLocalCache_absent|].
    split; [by apply cache_ok_store_new|]. split; [done|].
    unfold entry_of; simpl. rewrite lookup_insert_eq.
    by rewrite lookup_app_r, Nat.sub_diag.
  - assert (Ha : (a < length (heap w))%nat) by (apply lookup_lt_is_Some; eauto).
    destruct (Z.gtb_spec (clock w) (ResetTime e)).
    + eexists. split; [by eapply incrementLocalCache_expired|].
      split; [by apply cache_ok_write|]. split; [done|].
      unfold entry_of; simpl. rewrite Hs. by apply list_lookup_insert_eq.
    + eexists. split; [by eapply incrementLocalCache_live|].
      split; [by apply cache_ok_write|]. split; [done|].
      unfold entry_of; simpl. rewrite Hs. by apply list_lookup_insert_eq.
Qed.

(** The sweep: every visited value passes its type assertion, and the
    callback only ever deletes the key it is visiting. *)
Lemma CleanupExpiredEntries_func1_eq now k a e w :
  heap w !! a = Some e →
  Hybrid.CleanupExpiredEntries_func1 now k (CacheEntry_ptr (Some a)) w =
  Ok true (if now >? ResetTime e
           then mkWorld (delete k (localCache w)) (heap w) (redis w)
                        (redis_down w) (clock w) (trace w ++ [EvDelete k])
           else w).
Proof.
  intros He. unfold Hybrid.CleanupExpiredEntries_func1. go_unfold.
  rewrite He. by destruct (now >? ResetTime e).
Qed.

Lemma visit_sweep_ok now l w :
  cache_ok w →
  Forall (λ kv : string * any, valid_value (heap w) kv.2 = true) l →
  ∃ w', syncMap.visit (Hybrid.CleanupExpiredEntries_func1 now) l w = Ok tt w' ∧
        cache_ok w' ∧ heap w' = heap w ∧ same_backend w w'.
Proof.
  revert w. induction l as [|[k v] l IH]; intros w Hok Hall.
  - exists w. by repeat split.
  - apply Forall_cons in Hall as [Hv Hall]. simpl in Hv.
    destruct (valid_value_inv _ _ Hv) as (a & e & -> & He).
    simpl. unfold mbind, M_bind.
    rewrite (CleanupExpiredEntries_func1_eq now k a e w He).
    destruct (now >? ResetTime e).
    + match goal with |- ∃ _, syncMap.visit _ _ ?w1 = _ ∧ _ =>
        destruct (IH w1) as (w' & Hrun & Hok' & Hheap & Hsame)
      end; [by apply cache_ok_delete|done|].
      exists w'. repeat split; try done; apply Hsame.
    + by apply IH.
Qed.

Lemma CleanupExpiredEntries_ok w :
  cache_ok w →
  ∃ w', Hybrid.CleanupExpiredEntries w = Ok tt w' ∧
        cache_ok w' ∧ heap w' = heap w ∧ same_backend w w'.
Proof.
  intros Hok. unfold Hybrid.CleanupExpiredEntries, syncMap.Range. go_unfold.
  match goal with |- ∃ _, syncMap.visit _ _ ?w1 = _ ∧ _ =>
    destruct (visit_sweep_ok (clock w) (map_to_list (localCache w)) w1)
      as (w' & Hrun & Hok' & Hheap & Hsame)
  end.
  - done.
  - simpl. apply map_Forall_to_list in Hok.
    eapply Forall_impl; [exact Hok|]. by intros [k v].
  - exists w'. repeat split; try done; apply Hsame.
Qed.

(** ** The entry points of the hybrid repository *)

Lemma RateLimit_fast_path w s l e :
  cache_ok w → entry_of w s = Some e →
  clock w <= ResetTime e → l <= Count e →
  Hybrid.RateLimit s l w = Ok false (log (EvLoad s) w).
Proof.
  intros Hok He Hlive Hfull. unfold Hybrid.RateLimit, mbind, M_bind.
  rewrite checkLocalCache_eq, He by done.
  assert ((clock w >? ResetTime e) = false) as -> by lia.
  by assert ((Count e <? l) = false) as -> by lia.
Qed.

Lemma RateLimitWithDetail_fast_path w s l e :
  cache_ok w → entry_of w s = Some e →
  clock w <= ResetTime e → l <= Count e →
  Hybrid.RateLimitWithDetail s l w =
  Ok (0, (if ResetTime e >? clock w then wrap64 (ResetTime e - clock w) else 0),
      None)
     (log (EvLoad s) (log (EvLoad s) w)).
Proof.
  intros Hok He Hlive Hfull.
  destruct (entry_of_Some w s e He) as (a & Hs & Ha).
  unfold Hybrid.RateLimitWithDetail, mbind, M_bind.
  rewrite checkLocalCache_eq, He by done.
  assert ((clock w >? ResetTime e) = false) as -> by lia.
  assert ((Count e <? l) = false) as -> by lia. simpl.
  go_unfold. rewrite Hs. simpl. rewrite Ha. simpl.
  by destruct (ResetTime e >? clock w).
Qed.

Lemma RateLimitWithDetail_store_down w s l :
  cache_ok w →
  (∀ e, entry_of w s = Some e → clock w <= ResetTime e → Count e < l) →
  redis_down w = true →
  Hybrid.RateLimitWithDetail s l w =
  Ok (0, 0, Some (wrapError "failed to check rate limit"
                    (errorString "dial tcp: connection refused")))
     (log (EvExec (detail_cmds s)) (log (EvLoad s) w)).
Proof.
  intros Hok Hpass Hdown. unfold Hybrid.RateLimitWithDetail, mbind, M_bind.
  rewrite checkLocalCache_pass by done. simpl.
  by rewrite Redis_RateLimitWithDetail_down.
Qed.

Lemma RateLimitWithDetail_store_ok w s l remaining ttl w1 :
  cache_ok w →
  (∀ e, entry_of w s = Some e → clock w <= ResetTime e → Count e < l) →
  Redis.RateLimitWithDetail s l (log (EvLoad s) w)
  = Ok (remaining, ttl, None) w1 →
  Hybrid.RateLimitWithDetail s l w =
  match Hybrid.incrementLocalCache s l w1 with
  | Ok _ w' => Ok (remaining, ttl, None) w'
  | Panic msg => Panic msg
  end.
Proof.
  intros Hok Hpass Hstore. unfold Hybrid.RateLimitWithDetail, mbind, M_bind.
  rewrite checkLocalCache_pass by done. simpl. by rewrite Hstore.
Qed.

Lemma RateLimit_store_ok w s l currentCount ttl w1 :
  cache_ok w →
  (∀ e, entry_of w s = Some e → clock w <= ResetTime e → Count e < l) →
  Redis.RateLimitWithDetail s l (log (EvLoad s) w)
  = Ok (currentCount, ttl, None) w1 →
  Hybrid.RateLimit s l w =
  match Hybrid.updateLocalCacheWithRedisValues s l currentCount ttl w1 with
  | Ok _ w' => Ok (currentCount <=? l) w'
  | Panic msg => Panic msg
  end.
Proof.
  intros Hok Hpass Hstore. unfold Hybrid.RateLimit, mbind, M_bind.
  rewrite checkLocalCache_pass by done. simpl. by rewrite Hstore.
Qed.

Lemma RateLimit_store_down w s l w1 :
  cache_ok w →
  (∀ e, entry_of w s = Some e → clock w <= ResetTime e → Count e < l) →
  redis_down w = true →
  Hybrid.incrementLocalCache s l
    (log (EvExec (detail_cmds s)) (log (EvLoad s) w)) = Ok tt w1 →
  cache_ok w1 →
  Hybrid.RateLimit s l w =
  Ok (match entry_of w1 s with Some e' => Count e' <? l | None => true end)
     (log (EvLoad s) w1).
Proof.
  intros Hok Hpass Hdown Hinc Hok1. unfold Hybrid.RateLimit, mbind, M_bind.
  rewrite checkLocalCache_pass by done. simpl.
  rewrite Redis_RateLimitWithDetail_down by done. rewrite Hinc.
  destruct (cache_ok_entry_of w1 s Hok1) as [[Hs ->]|(a & e' & Hs & He & ->)];
    go_unfold; rewrite Hs; simpl; [done|]. by rewrite He.
Qed.

Lemma RateLimitWithDetail_ok w s l :
  cache_ok w →
  ∃ r w', Hybrid.RateLimitWithDetail s l w = Ok r w' ∧ cache_ok w'.
Proof.
  intros Hok. unfold Hybrid.RateLimitWithDetail, mbind, M_bind.
  rewrite checkLocalCache_eq by done.
  destruct (match entry_of w s with Some _ => _ | None => _ end); simpl.
  - destruct (Redis_RateLimitWithDetail_frame (log (EvLoad s) w) s l)
      as ([[remaining ttl] err] & db & ->).
    destruct err as [e|]; simpl.
    + eexists _, _. split; [reflexivity|]. by apply (cache_ok_same w).
    + match goal with |- context [Hybrid.incrementLocalCache s l ?w1] =>
        destruct (incrementLocalCache_ok w1 s l) as (w' & -> & Hok' & _)
      end; [by apply (cache_ok_same w)|].
      by eexists _, _.
  - go_unfold.
    destruct (cache_ok_entry_of w s Hok) as [[Hs _]|(a & e & Hs & He & _)];
      rewrite Hs; simpl.
    + eexists _, _. split; [reflexivity|]. by apply (cache_ok_same w).
    + rewrite He. simpl. destruct (ResetTime e >? clock w);
        (eexists _, _; split; [reflexivity|]; by apply (cache_ok_same w)).
Qed.

Lemma RateLimit_ok w s l :
  cache_ok w →
  ∃ b w', Hybrid.RateLimit s l w = Ok b w' ∧ cache_ok w'.
Proof.
  intros Hok. unfold Hybrid.RateLimit, mbind, M_bind.
  rewrite checkLocalCache_eq by done.
  destruct (match entry_of w s with Some _ => _ | None => _ end); simpl.
  - destruct (Redis_RateLimitWithDetail_frame (log (EvLoad s) w) s l)
      as ([[currentCount ttl] err] & db & ->).
    destruct err as [e|]; simpl.
    + match goal with |- context [Hybrid.incrementLocalCache s l ?w1] =>
        destruct (incrementLocalCache_ok w1 s l) as (w' & -> & Hok' & _)
      end; [by apply (cache_ok_same w)|].
      go_unfold.
      destruct (cache_ok_entry_of w' s Hok') as [[Hs _]|(a & e' & Hs & He & _)];
        rewrite Hs; simpl.
      * eexists _, _. split; [reflexivity|]. by apply (cache_ok_same w').
      * rewrite He. eexists _, _. split; [reflexivity|].
        by apply (cache_ok_same w').
    + match goal with
      | |- context [Hybrid.updateLocalCacheWithRedisValues s l ?c ?t ?w1] =>
        destruct (updateLocalCacheWithRedisValues_ok w1 s l c t)
          as (w' & -> & Hok' & _)
      end; [by apply (cache_ok_same w)|].
      by eexists _, _.
  - eexists _, _. split; [reflexivity|]. by apply (cache_ok_same w).
Qed.

Lemma Hybrid_remaining_nonneg w s l r ttl err w' :
  cache_ok w →
  Hybrid.RateLimitWithDetail s l w = Ok (r, ttl, err) w' → 0 <= r.
Proof.
  intros Hok. unfold Hybrid.RateLimitWithDetail, mbind, M_bind.
  rewrite checkLocalCache_eq by done.
  destruct (match entry_of w s with Some _ => _ | None => _ end); simpl.
  - destruct (Redis.RateLimitWithDetail s l (log (EvLoad s) w))
      as [[[remaining ttl'] e] w1|] eqn:Hstore; [|done].
    apply Redis_remaining_nonneg in Hstore. destruct e.
    + intros [= <- _ _ _]. lia.
    + destruct (Hybrid.incrementLocalCache s l w1); [|done].
      by intros [= <- _ _ _].
  - go_unfold.
    destruct (cache_ok_entry_of w s Hok) as [[Hs _]|(a & e & Hs & He & _)];
      rewrite Hs; simpl.
    + intros [= <- _ _ _]. lia.
    + rewrite He. simpl.
      destruct (ResetTime e >? clock w); intros [= <- _ _ _]; lia.
Qed.

(** ** Sequences of requests *)

Lemma Hybrid_RateLimit_admits w s L n :
  cache_ok w → redis_down w = false →
  0 < L <= max_int64 → 0 <= n < max_int64 →
  (∀ e, entry_of w s = Some e → Count e < L) →
  (∀ k, redis w !! Redis.key_of s = Some k → 0 <= value k <= n) →
  ∃ w', Hybrid.RateLimit s L w = Ok true w' ∧
        cache_ok w' ∧ redis_down w' = false ∧
        (∀ e, entry_of w' s = Some e → Count e < L) ∧
        (∀ k, redis w' !! Redis.key_of s = Some k → 0 <= value k <= n + 1).
Proof.
  intros Hok Hup HL Hn Hbelow Hcount.
  set (w0 := log (EvLoad s) w).
  assert (Hbound : ∀ k,
    RedisServer.get (clock w0) (Redis.key_of s) (redis w0) = Some k →
    0 <= value k <= n).
  { intros k Hget. apply get_live in Hget as [Hk _]. by apply Hcount. }
  destruct (Redis_RateLimitWithDetail_up w0 s L Hup)
    as (c & ttl & db & Hstore & Hc & [e Hdb] & _).
  { intros k Hget. specialize (Hbound k Hget). lia. }
  assert (Hc1 : 1 <= c <= n + 1).
  { rewrite Hc. destruct RedisServer.get as [k|]; [|lia].
    specialize (Hbound k eq_refl). lia. }
  assert (Hwrap : wrap64 (L - c) = L - c).
  { apply wrap64_id. unfold in_int64, min_int64, max_int64 in *. lia. }
  rewrite Hwrap in Hstore.
  rewrite (RateLimit_store_ok w s L _ ttl _ Hok) by eauto.
  match goal with
  | |- context [Hybrid.updateLocalCacheWithRedisValues s L ?r ttl ?w1] =>
      destruct (updateLocalCacheWithRedisValues_ok w1 s L r ttl)
        as (w' & -> & Hok' & (Hr & Hd & _) & He');
        [by apply (cache_ok_same w)|]
  end.
  exists w'. split.
  { f_equal. destruct (L - c <? 0) eqn:Hneg; lia. }
  split; [done|]. split; [by rewrite Hd|]. split.
  - intros e0. rewrite He'. intros [= <-]. simpl.
    destruct (L - c <? 0) eqn:Hneg; lia.
  - intros k. rewrite Hr. cbn [redis]. rewrite Hdb. intros [= <-]. simpl. lia.
Qed.

(** From a table without the subject and a backend that answers, however
    the calls are spread in time, [RateLimit] admits every one of them. *)
Lemma hybrid_RateLimit_never_denies s L delays :
  0 < L <= max_int64 →
  ∀ w n,
    cache_ok w → redis_down w = false →
    0 <= n → n + Z.of_nat (length delays) <= max_int64 →
    (∀ e, entry_of w s = Some e → Count e < L) →
    (∀ k, redis w !! Redis.key_of s = Some k → 0 <= value k <= n) →
    ∃ w', replay (Hybrid.RateLimit s L) delays w
          = Ok (repeat true (length delays)) w'.
Proof.
  intros HL.
  induction delays as [|d delays IH]; intros w n Hok Hup Hn0 Hn Hb Hc.
  - by exists w.
  - simpl replay. unfold mbind, M_bind.
    destruct (Hybrid_RateLimit_admits (elapse d w) s L n)
      as (w1 & -> & Hok1 & Hup1 & Hb1 & Hc1); try done.
    { simpl length in Hn. lia. }
    destruct (IH w1 (n + 1)) as (w' & ->); try done; [lia| |].
    { simpl length in Hn. lia. }
    by exists w'.
Qed.

(** Inside the window of a live counter at [c], the i-th further request is
    answered by [c + i <= L]. *)
Lemma redis_only_window s L delays :
  ∀ w c e,
    redis_down w = false →
    redis w !! Redis.key_of s = Some (mkRedisKey c (Some e)) →
    within_window (clock w) e delays →
    c + Z.of_nat (length delays) <= max_int64 →
    ∃ w', replay (Redis.RateLimit s L) delays w
          = Ok ((λ i, c + Z.of_nat i <=? L) <$> seq 1 (length delays)) w'.
Proof.
  induction delays as [|d delays IH]; intros w c e Hup Hk Hwin Hc.
  - by exists w.
  - destruct Hwin as [Hd Hwin]. simpl length in Hc.
    simpl replay. unfold mbind, M_bind.
    rewrite (Redis_RateLimit_live (elapse d w) s L c e) by (done || lia).
    match goal with |- context [replay _ _ ?w1] =>
      destruct (IH w1 (c + 1) e) as (w' & ->)
    end; [exact Hup|apply lookup_insert_eq|exact Hwin|lia|].
    exists w'. unfold mret, M_ret. f_equal.
    change (seq 1 (length (d :: delays))) with (1%nat :: seq 2 (length delays)).
    rewrite fmap_cons. f_equal.
    rewrite <- (fmap_S_seq 1), <- list_fmap_compose.
    apply list_fmap_ext. intros _ i _. simpl. f_equal. lia.
Qed.

(** From an empty backend: as long as the requests stay within the window
    the first one opens, the i-th is admitted exactly when [i <= L]; so the
    first [L] are admitted and the next one is denied. *)
Lemma redis_only_ith_request s L t0 d0 delays :
  within_window (t0 + d0) (t0 + d0 + windowSize) delays →
  1 + Z.of_nat (length delays) <= max_int64 →
  ∃ w', replay (Redis.RateLimit s L) (d0 :: delays) (NewWorld t0)
        = Ok ((λ i, Z.of_nat i <=? L) <$> seq 1 (S (length delays))) w'.
Proof.
  intros Hwin Hlen. simpl replay. unfold mbind, M_bind.
  rewrite (Redis_RateLimit_fresh (elapse d0 (NewWorld t0)) s L)
    by (done || apply lookup_empty).
  match goal with |- context [replay _ _ ?w1] =>
    destruct (redis_only_window s L delays w1 1 (t0 + d0 + windowSize))
      as (w' & ->)
  end; [reflexivity|apply lookup_insert_eq|exact Hwin|lia|].
  exists w'. unfold mret, M_ret. f_equal.
  change (seq 1 (S (length delays))) with (1%nat :: seq 2 (length delays)).
  rewrite fmap_cons. f_equal.
  rewrite <- (fmap_S_seq 1), <- list_fmap_compose.
  apply list_fmap_ext. intros _ i _. simpl. f_equal. lia.
Qed.

(** A well-formed command reaches the repository, and [Handle] returns its
    verdict without an error. *)
Lemma Handle_valid_command repository s L w :
  s ≠ "" → 0 < L →
  command.Handle repository {| command.UserID := s; command.Limit := L |} w =
  match ports.RateLimit repository s L w with
  | Ok allowed w' => Ok (allowed, None) w'
  | Panic msg => Panic msg
  end.
Proof.
  intros Hs HL. unfold command.Handle. simpl.
  assert ((s =? "")%string = false) as -> by (by apply String.eqb_neq).
  by assert ((L <=? 0) = false) as -> by lia.
Qed.

Lemma replay_Handle repository s L delays w :
  s ≠ "" → 0 < L →
  replay (command.Handle repository
            {| command.UserID := s; command.Limit := L |}) delays w =
  match replay (ports.RateLimit repository s L) delays w with
  | Ok verdicts w' => Ok ((λ allowed, (allowed, None)) <$> verdicts) w'
  | Panic msg => Panic msg
  end.
Proof.
  intros Hs HL. revert w. induction delays as [|d delays IH]; intros w; [done|].
  simpl replay. unfold mbind, M_bind.
  rewrite Handle_valid_command by done.
  destruct (ports.RateLimit repository s L (elapse d w)) as [b w1|]; [|done].
  rewrite IH. by destruct (replay _ delays w1).
Qed.

(** Over the hybrid repository, from its initial state and with the backend
    reachable, [Handle] admits every request of a subject, whatever the
    limit and however many requests came before in the window. *)
Lemma hybrid_Handle_never_denies s L t0 delays :
  s ≠ "" → 0 < L <= max_int64 →
  Z.of_nat (length delays) <= max_int64 →
  ∃ w', replay (command.Handle HybridRateLimitRepository
                  {| command.UserID := s; command.Limit := L |})
               delays (NewWorld t0)
        = Ok (repeat (true, None) (length delays)) w'.
Proof.
  intros Hs HL Hlen. rewrite replay_Handle by (done || lia).
  assert (Hok : cache_ok (NewWorld t0)) by apply map_Forall_empty.
  destruct (hybrid_RateLimit_never_denies s L delays HL (NewWorld t0) 0 Hok)
    as (w' & Hrun); try done.
  exists w'. simpl in *. rewrite Hrun. by rewrite fmap_repeat.
Qed.

(** ** The worlds of the examples *)

Lemma exhausted_world_ok : cache_ok exhausted_world.
Proof. apply (bool_decide_unpack _). vm_compute. exact I. Qed.

Lemma exhausted_world_entry :
  entry_of exhausted_world "u" = Some (mkCacheEntry 1 1 60000000000).
Proof. vm_compute. reflexivity. Qed.

Lemma reset_instant_world_ok : cache_ok reset_instant_world.
Proof. apply (bool_decide_unpack _). vm_compute. exact I. Qed.


Lemma shared_backend_world_ok : cache_ok shared_backend_world.
Proof. apply (bool_decide_unpack _). vm_compute. exact I. Qed.

(** * The statements of the specification *)

(** C1 fails on the hybrid repository.  Limit 3, requests at 0s, 1s, 2s and
    3s, the backend reachable throughout: the fourth request, the (L+1)-th
    of the window, is admitted by [Handle] over the hybrid repository.  The
    backend did count 4; the Redis-only repository denies that request. *)
Theorem hybrid_admits_request_over_limit :
  result_of
    (replay (command.Handle HybridRateLimitRepository
               {| command.UserID := "u"; command.Limit := 3 |})
            [0; Second; Second; Second] (NewWorld 0))
  = Some [(true, None); (true, None); (true, None); (true, None)] ∧
  value <$>
    (redis (world_after
       (replay (command.Handle HybridRateLimitRepository
                  {| command.UserID := "u"; command.Limit := 3 |})
               [0; Second; Second; Second] (NewWorld 0)))
     !! "rate_limit:u")
  = Some 4 ∧
  result_of
    (replay (command.Handle RedisRateLimitRepository
               {| command.UserID := "u"; command.Limit := 3 |})
            [0; Second; Second; Second] (NewWorld 0))
  = Some [(true, None); (true, None); (true, None); (false, None)].
Proof. repeat split; vm_compute; reflexivity. Qed.

(** On the detailed entry point the third and the fourth request both come
    back with remaining 0: the last admitted request and the first one over
    the limit cannot be told apart by the remaining quota. *)
Example hybrid_detail_remaining_sequence :
  result_of (replay (Hybrid.RateLimitWithDetail "u" 3)
                    [0; Second; Second; Second] (NewWorld 0))
  = Some [(2, 60 * Second, None); (1, 59 * Second, None);
          (0, 58 * Second, None); (0, 57 * Second, None)].
Proof. vm_compute. reflexivity. Qed.

(** C2 fails on [RateLimitWithDetail].  With the backend unreachable and
    nothing in the table, the hybrid's [RateLimitWithDetail] hands the
    backend's error to its caller and leaves the table empty, where
    [RateLimit] falls back on the local count and returns a decision. *)
Theorem hybrid_detail_returns_store_error :
  Hybrid.RateLimitWithDetail "u" 5 (set_redis_down true (NewWorld 0))
  = Ok (0, 0, Some (wrapError "failed to check rate limit"
                      (errorString "dial tcp: connection refused")))
       (mkWorld ∅ [] ∅ true 0 [EvLoad "u"; EvExec (detail_cmds "u")]) ∧
  ¬ ValidationError (wrapError "failed to check rate limit"
                       (errorString "dial tcp: connection refused")) ∧
  result_of (Hybrid.RateLimit "u" 5 (set_redis_down true (NewWorld 0)))
  = Some true.
Proof.
  split; [vm_compute; reflexivity|]. split.
  - intros [H|H]; discriminate.
  - vm_compute. reflexivity.
Qed.

(** C3, as stated, fails on [RateLimitWithDetail]: after a successful
    backend increment the local count is not the backend's count. *)
Lemma local_count_is_not_store_count :
  ¬ (∀ w s l remaining ttl w',
       cache_ok w → redis_down w = false →
       (∀ e, entry_of w s = Some e → clock w <= ResetTime e → Count e < l) →
       Hybrid.RateLimitWithDetail s l w = Ok (remaining, ttl, None) w' →
       ∃ e' k, entry_of w' s = Some e' ∧
               redis w' !! Redis.key_of s = Some k ∧
               Count e' = value k).
Proof.
  intros Hclaim.
  destruct (Hclaim shared_backend_world "u" 10 6 60000000000
              (world_after
                 (Hybrid.RateLimitWithDetail "u" 10 shared_backend_world)))
    as (e' & k & He' & Hk & Heq).
  - exact shared_backend_world_ok.
  - reflexivity.
  - intros e He. vm_compute in He. discriminate.
  - vm_compute. reflexivity.
  - vm_compute in He', Hk. injection He' as <-. injection Hk as <-.
    vm_compute in Heq. discriminate.
Qed.

Example local_count_after_shared_backend :
  entry_of (world_after
              (Hybrid.RateLimitWithDetail "u" 10 shared_backend_world)) "u"
  = Some (mkCacheEntry 1 10 60000000000) ∧
  redis (world_after
           (Hybrid.RateLimitWithDetail "u" 10 shared_backend_world))
    !! "rate_limit:u"
  = Some (mkRedisKey 4 (Some 60000000000)).
Proof. split; vm_compute; reflexivity. Qed.

(** C3 (amended). [updateLocalCacheWithRedisValues] is a pure overwrite:
    whatever the subject's entry was, it afterwards holds exactly the count
    and limit handed in and the reset time now + ttl.  [RateLimitWithDetail]
    does not overwrite after a successful backend increment: what it does to
    the table is [incrementLocalCache], so the subject's count becomes 1
    (fresh window) when there was no entry or its reset time had passed, and
    the old local count plus one otherwise. *)
Theorem local_entry_after_successful_store w s l :
  cache_ok w →
  (∀ c ttl, ∃ w',
      Hybrid.updateLocalCacheWithRedisValues s l c ttl w = Ok tt w' ∧
      same_backend w w' ∧
      entry_of w' s = Some (mkCacheEntry c l (wrap64 (clock w + ttl)))) ∧
  (∀ remaining ttl w1,
      (∀ e, entry_of w s = Some e → clock w <= ResetTime e → Count e < l) →
      Redis.RateLimitWithDetail s l (log (EvLoad s) w)
      = Ok (remaining, ttl, None) w1 →
      ∃ w',
        Hybrid.RateLimitWithDetail s l w = Ok (remaining, ttl, None) w' ∧
        Hybrid.incrementLocalCache s l w1 = Ok tt w' ∧
        (entry_of w s = None →
         entry_of w' s
         = Some (mkCacheEntry 1 l (wrap64 (clock w + windowSize)))) ∧
        (∀ e, entry_of w s = Some e → ResetTime e < clock w →
         entry_of w' s
         = Some (mkCacheEntry 1 l (wrap64 (clock w + windowSize)))) ∧
        (∀ e, entry_of w s = Some e → clock w <= ResetTime e →
         entry_of w' s
         = Some (mkCacheEntry (wrap64 (Count e + 1)) (Limit e) (ResetTime e)))).
Proof.
  intros Hok. split.
  - intros c ttl.
    destruct (updateLocalCacheWithRedisValues_ok w s l c ttl Hok)
      as (w' & ? & ? & ? & ?). eauto.
  - intros remaining ttl w1 Hpass Hstore.
    destruct (Redis_RateLimitWithDetail_frame (log (EvLoad s) w) s l)
      as (r & db & Hframe).
    rewrite Hframe in Hstore. injection Hstore as -> <-.
    match type of Hframe with _ = Ok _ ?x => set (w1 := x) in * end.
    assert (Hok1 : cache_ok w1) by (by apply (cache_ok_same w)).
    destruct (incrementLocalCache_ok w1 s l Hok1) as (w' & Hinc & _ & _ & He').
    change (entry_of w1 s) with (entry_of w s) in He'.
    change (clock w1) with (clock w) in He'.
    exists w'. split.
    { rewrite (RateLimitWithDetail_store_ok w s l remaining ttl w1) by done.
      by rewrite Hinc. }
    split; [exact Hinc|]. rewrite He'. split; [by intros ->|]. split.
    + intros e -> Hpast.
      by assert ((clock w >? ResetTime e) = true) as -> by lia.
    + intros e -> Hlive.
      by assert ((clock w >? ResetTime e) = false) as -> by lia.
Qed.

Lemma local_entry_after_successful_store_witness :
  cache_ok shared_backend_world ∧
  (∀ c ttl, ∃ w',
      Hybrid.updateLocalCacheWithRedisValues "u" 10 c ttl shared_backend_world
      = Ok tt w' ∧
      same_backend shared_backend_world w' ∧
      entry_of w' "u"
      = Some (mkCacheEntry c 10 (wrap64 (clock shared_backend_world + ttl)))) ∧
  (∀ remaining ttl w1,
      (∀ e, entry_of shared_backend_world "u" = Some e →
            clock shared_backend_world <= ResetTime e → Count e < 10) →
      Redis.RateLimitWithDetail "u" 10 (log (EvLoad "u") shared_backend_world)
      = Ok (remaining, ttl, None) w1 →
      ∃ w',
        Hybrid.RateLimitWithDetail "u" 10 shared_backend_world
        = Ok (remaining, ttl, None) w' ∧
        Hybrid.incrementLocalCache "u" 10 w1 = Ok tt w' ∧
        (entry_of shared_backend_world "u" = None →
         entry_of w' "u"
         = Some (mkCacheEntry 1 10
                   (wrap64 (clock shared_backend_world + windowSize)))) ∧
        (∀ e, entry_of shared_backend_world "u" = Some e →
              ResetTime e < clock shared_backend_world →
         entry_of w' "u"
         = Some (mkCacheEntry 1 10
                   (wrap64 (clock shared_backend_world + windowSize)))) ∧
        (∀ e, entry_of shared_backend_world "u" = Some e →
              clock shared_backend_world <= ResetTime e →
         entry_of w' "u"
         = Some (mkCacheEntry (wrap64 (Count e + 1)) (Limit e) (ResetTime e)))).
Proof.
  split; [exact shared_backend_world_ok|].
  apply (local_entry_after_successful_store shared_backend_world "u" 10).
  exact shared_backend_world_ok.
Defined.

(** C4. [Handle] answers a command with an empty user id, and a command
    with a limit of zero or less, with a validation error; the world after
    the call is the world before it, trace included, so neither the backend
    nor the table was read or written, whatever repository is wired in. *)
Theorem Handle_rejects_invalid_command
    (repository : ports.RateLimitRepository) (w : World)
    (s : string) (n L : Z) :
  n <= 0 →
  (∃ e, command.Handle repository
          {| command.UserID := ""; command.Limit := L |} w
        = Ok (false, Some e) w ∧ ValidationError e) ∧
  (∃ e, command.Handle repository
          {| command.UserID := s; command.Limit := n |} w
        = Ok (false, Some e) w ∧ ValidationError e).
Proof.
  intros Hn. split.
  - eexists. split; [reflexivity|]. by left.
  - unfold command.Handle; simpl. destruct (String.eqb s "").
    + eexists. split; [reflexivity|]. by left.
    + assert ((n <=? 0) = true) as -> by lia.
      eexists. split; [reflexivity|]. by right.
Qed.

Lemma Handle_rejects_invalid_command_witness :
  0 <= 0 ∧
  (∃ e, command.Handle HybridRateLimitRepository
          {| command.UserID := ""; command.Limit := 5 |} (NewWorld 0)
        = Ok (false, Some e) (NewWorld 0) ∧ ValidationError e) ∧
  (∃ e, command.Handle HybridRateLimitRepository
          {| command.UserID := "alice"; command.Limit := 0 |} (NewWorld 0)
        = Ok (false, Some e) (NewWorld 0) ∧ ValidationError e).
Proof.
  split; [lia|].
  apply (Handle_rejects_invalid_command HybridRateLimitRepository
           (NewWorld 0) "alice" 0 5).
  lia.
Defined.

(** C5, as stated, fails at the reset instant: with now = resetTime the entry
    is not treated as absent, the local check still denies. *)
Lemma entry_at_reset_instant_not_absent :
  ¬ (∀ w s l e,
       cache_ok w → entry_of w s = Some e → ResetTime e <= clock w →
       ∃ w', Hybrid.checkLocalCache s l w = Ok true w').
Proof.
  intros Hclaim.
  destruct (Hclaim reset_instant_world "u" 1 (mkCacheEntry 1 1 60000000000))
    as [w' Hw'].
  - exact reset_instant_world_ok.
  - vm_compute. reflexivity.
  - vm_compute. discriminate.
  - vm_compute in Hw'. discriminate.
Qed.

Example reset_instant_denied_locally :
  result_of (Hybrid.RateLimitWithDetail "u" 1 reset_instant_world)
  = Some (0, 0, None) ∧
  result_of (Hybrid.RateLimit "u" 1 reset_instant_world) = Some false.
Proof. vm_compute. done. Qed.

(** C5 (amended). An entry is live as long as the clock has not passed its
    reset time, the reset instant included.  For a live entry whose count is
    at or over the limit both entry points deny without a backend command:
    [RateLimitWithDetail] returns remaining 0 and the time left until the
    reset time, [RateLimit] returns false.  Only an entry whose reset time
    lies strictly in the past is treated by the local check as an absent
    one. *)
Theorem fast_path_denial_until_reset_time w s l :
  cache_ok w → 0 <= clock w →
  (∀ e, entry_of w s = Some e → ResetTime e <= max_int64 →
        clock w <= ResetTime e → l <= Count e →
        ∃ w1 w2,
          Hybrid.RateLimitWithDetail s l w
          = Ok (0, ResetTime e - clock w, None) w1 ∧
          Hybrid.RateLimit s l w = Ok false w2 ∧
          redis w1 = redis w ∧
          trace w1 = (trace w ++ [EvLoad s; EvLoad s])%list ∧
          redis w2 = redis w ∧
          trace w2 = (trace w ++ [EvLoad s])%list) ∧
  (∀ e, entry_of w s = Some e → ResetTime e < clock w →
        Hybrid.checkLocalCache s l w = Ok true (log (EvLoad s) w)) ∧
  (entry_of w s = None →
        Hybrid.checkLocalCache s l w = Ok true (log (EvLoad s) w)).
Proof.
  intros Hok Hclock. split; [|split].
  - intros e He Hmax Hlive Hfull. eexists _, _.
    split.
    + rewrite (RateLimitWithDetail_fast_path w s l e) by done.
      destruct (Z.gtb_spec (ResetTime e) (clock w)).
      * rewrite wrap64_id; [reflexivity|].
        unfold in_int64, min_int64, max_int64 in *. lia.
      * by replace (ResetTime e - clock w) with 0 by lia.
    + split; [by eapply RateLimit_fast_path|].
      simpl. by rewrite <- app_assoc.
  - intros e He Hpast. apply checkLocalCache_pass; [done|].
    intros e' He'. rewrite He in He'. injection He' as <-. lia.
  - intros Hnone. apply checkLocalCache_pass; [done|].
    intros e He. congruence.
Qed.

Lemma fast_path_denial_until_reset_time_witness :
  cache_ok exhausted_world ∧ 0 <= clock exhausted_world ∧
  (∀ e, entry_of exhausted_world "u" = Some e → ResetTime e <= max_int64 →
        clock exhausted_world <= ResetTime e → 1 <= Count e →
        ∃ w1 w2,
          Hybrid.RateLimitWithDetail "u" 1 exhausted_world
          = Ok (0, ResetTime e - clock exhausted_world, None) w1 ∧
          Hybrid.RateLimit "u" 1 exhausted_world = Ok false w2 ∧
          redis w1 = redis exhausted_world ∧
          trace w1 = (trace exhausted_world ++ [EvLoad "u"; EvLoad "u"])%list ∧
          redis w2 = redis exhausted_world ∧
          trace w2 = (trace exhausted_world ++ [EvLoad "u"])%list) ∧
  (∀ e, entry_of exhausted_world "u" = Some e →
        ResetTime e < clock exhausted_world →
        Hybrid.checkLocalCache "u" 1 exhausted_world
        = Ok true (log (EvLoad "u") exhausted_world)) ∧
  (entry_of exhausted_world "u" = None →
        Hybrid.checkLocalCache "u" 1 exhausted_world
        = Ok true (log (EvLoad "u") exhausted_world)).
Proof.
  split; [exact exhausted_world_ok|].
  split; [vm_compute; discriminate|].
  apply (fast_path_denial_until_reset_time exhausted_world "u" 1).
  - exact exhausted_world_ok.
  - vm_compute. discriminate.
Defined.


Example reset_instant_degraded_count :
  result_of (Hybrid.RateLimit "u" 5 (set_redis_down true reset_instant_world))
  = Some true ∧
  entry_of (world_after
              (Hybrid.RateLimit "u" 5
                 (set_redis_down true reset_instant_world))) "u"
  = Some (mkCacheEntry 2 1 60000000000) ∧
  clock reset_instant_world = 60000000000.
Proof. repeat split; vm_compute; reflexivity. Qed.



(** C7 fails for a counter without expiry: the backend answers [TTL] with
    -1, and both repositories return that as the time until reset. *)
Theorem negative_reset_time_for_key_without_expiry :
  result_of (Redis.RateLimitWithDetail "u" 5 no_expiry_world)
  = Some (3, -1, None) ∧
  result_of (Hybrid.RateLimitWithDetail "u" 5 no_expiry_world)
  = Some (3, -1, None).
Proof. split; vm_compute; reflexivity. Qed.

(** C8 fails: [SETNX] and [INCR] are not applied as one atomic unit.  The
    adapter queues them in a plain pipeline ([Pipeline], not [TxPipeline]),
    which the server takes command by command.  With a counter at 3 that
    expires at 60s, one caller whose [SETNX] is taken at 60s (the counter is
    still there, nothing is set) and whose [INCR] is taken a nanosecond
    later (the counter has expired, [INCR] makes a new one) leaves a counter
    at 1 without an expiry, and the detailed check reads -1 as its time to
    live; two callers interleaved in the same way leave it at 2 without an
    expiry.  From then on every pipeline of the adapter, whenever its
    commands are taken, finds that counter and adds one: the window never
    resets.  Taken at one instant, as in a call of the repository here, the
    same commands keep the expiry. *)
Theorem pipeline_leaves_counter_without_expiry :
  let key := "rate_limit:u" in
  let db : gmap string RedisKey :=
    {[ key := mkRedisKey 3 (Some (60 * Second)) ]} in
  (* what the adapter hands to the backend, and what a call here does *)
  (∀ w l, redis_down w = false →
     trace (world_after (Redis.RateLimit "u" l w))
     = (trace w ++ [EvExec (limit_cmds "u")])%list ∧
     redis (world_after (Redis.RateLimit "u" l w))
     = (RedisServer.run_at (zip [clock w; clock w] (limit_cmds "u"))
          (redis w)).2 ∧
     trace (world_after (Redis.RateLimitWithDetail "u" l w))
     = (trace w ++ [EvExec (detail_cmds "u")])%list ∧
     redis (world_after (Redis.RateLimitWithDetail "u" l w))
     = (RedisServer.run_at (zip [clock w; clock w; clock w] (detail_cmds "u"))
          (redis w)).2) ∧
  (* one caller, the counter expiring between its two commands *)
  (RedisServer.run_at (zip [60 * Second; 60 * Second + 1] (limit_cmds "u"))
     db).1
  = [BoolReply false; IntReply 1] ∧
  (RedisServer.run_at (zip [60 * Second; 60 * Second + 1] (limit_cmds "u"))
     db).2 !! key
  = Some (mkRedisKey 1 None) ∧
  (RedisServer.run_at
     (zip [60 * Second; 60 * Second + 1; 60 * Second + 1] (detail_cmds "u"))
     db).2 !! key
  = Some (mkRedisKey 1 None) ∧
  DurationCmd_Val
    ((RedisServer.run_at
        (zip [60 * Second; 60 * Second + 1; 60 * Second + 1]
             (detail_cmds "u")) db).1 !! 2%nat)
  = -1 ∧
  (* two callers, interleaved *)
  (RedisServer.run_at
     [(60 * Second, SetNX key 0 windowSize);
      (60 * Second, SetNX key 0 windowSize);
      (60 * Second + 1, Incr key);
      (60 * Second + 1, Incr key)] db).2 !! key
  = Some (mkRedisKey 2 None) ∧
  (* the counter without expiry stays, whenever the next pipeline comes *)
  (∀ db' c t1 t2,
     db' !! key = Some (mkRedisKey c None) → c < max_int64 →
     (RedisServer.run_at (zip [t1; t2] (limit_cmds "u")) db').2 !! key
     = Some (mkRedisKey (c + 1) None)) ∧
  (* the same commands taken at one instant *)
  (RedisServer.run_at (zip [60 * Second; 60 * Second] (limit_cmds "u"))
     db).2 !! key
  = Some (mkRedisKey 4 (Some (60 * Second))).
Proof.
  intros key db.
  split; [|split; [|split; [|split; [|split; [|split; [|split]]]]]].
  2-6,8: vm_compute; reflexivity.
  - intros w l Hup. unfold Redis.RateLimit, Redis.RateLimitWithDetail, Exec,
      mbind, M_bind. rewrite Hup.
    fold (limit_cmds "u"). fold (detail_cmds "u").
    change (zip [clock w; clock w] (limit_cmds "u"))
      with (pair (clock w) <$> limit_cmds "u").
    change (zip [clock w; clock w; clock w] (detail_cmds "u"))
      with (pair (clock w) <$> detail_cmds "u").
    rewrite <- !run_all_run_at.
    destruct (RedisServer.run_all (clock w) (limit_cmds "u") (redis w))
      as [rs1 db1].
    destruct (RedisServer.run_all (clock w) (detail_cmds "u") (redis w))
      as [rs2 db2].
    destruct (cmdsFirstErr rs1), (cmdsFirstErr rs2); by repeat split.
  - intros db' c t1 t2 Hk Hc. unfold limit_cmds.
    cbn [zip zip_with RedisServer.run_at RedisServer.run].
    assert (G : ∀ t, RedisServer.get t (Redis.key_of "u") db'
                     = Some (mkRedisKey c None)).
    { intros t. unfold RedisServer.get, RedisServer.live.
      change (Redis.key_of "u") with key. by rewrite Hk. }
    rewrite !G. cbn [value expire_at].
    assert ((c <? max_int64) = true) as -> by lia.
    cbn [snd]. apply lookup_insert_eq.
Qed.

(** C9. When the local check denies (entry present, reset time not passed,
    count at or over the limit), [RateLimitWithDetail] and [RateLimit]
    return without a backend command and without a write: table, heap and
    backend are untouched and the trace only grows by table loads. *)
Theorem fast_path_denial_reads_only w s l e :
  cache_ok w → entry_of w s = Some e →
  clock w <= ResetTime e → l <= Count e →
  ∃ r w1 w2,
    Hybrid.RateLimitWithDetail s l w = Ok r w1 ∧
    Hybrid.RateLimit s l w = Ok false w2 ∧
    unchanged w w1 ∧ trace w1 = (trace w ++ [EvLoad s; EvLoad s])%list ∧
    unchanged w w2 ∧ trace w2 = (trace w ++ [EvLoad s])%list.
Proof.
  intros Hok He Hlive Hfull.
  eexists _, _, _.
  split; [by eapply RateLimitWithDetail_fast_path|].
  split; [by eapply RateLimit_fast_path|].
  simpl. by rewrite <- app_assoc.
Qed.

Lemma fast_path_denial_reads_only_witness :
  ∃ r w1 w2,
    Hybrid.RateLimitWithDetail "u" 1 exhausted_world = Ok r w1 ∧
    Hybrid.RateLimit "u" 1 exhausted_world = Ok false w2 ∧
    unchanged exhausted_world w1 ∧
    trace w1 = (trace exhausted_world ++ [EvLoad "u"; EvLoad "u"])%list ∧
    unchanged exhausted_world w2 ∧
    trace w2 = (trace exhausted_world ++ [EvLoad "u"])%list.
Proof.
  apply (fast_path_denial_reads_only exhausted_world "u" 1
           (mkCacheEntry 1 1 60000000000)).
  - exact exhausted_world_ok.
  - exact exhausted_world_entry.
  - vm_compute. discriminate.
  - vm_compute. discriminate.
Defined.

(** C10. Every value in the table is a non-nil [*CacheEntry] whose pointee
    exists: this holds of the table the constructor makes, and the local
    check, the overwrite, the degraded increment, the sweep and both entry
    points each run to completion on such a table (no type assertion or
    dereference panics) and leave such a table behind. *)
Theorem table_holds_entry_pointers (now : Z) :
  cache_ok (NewWorld now) ∧
  ∀ w, cache_ok w →
    (∀ s l, ∃ b w', Hybrid.checkLocalCache s l w = Ok b w' ∧ cache_ok w') ∧
    (∀ s l c ttl, ∃ w',
        Hybrid.updateLocalCacheWithRedisValues s l c ttl w = Ok tt w' ∧
        cache_ok w') ∧
    (∀ s l, ∃ w', Hybrid.incrementLocalCache s l w = Ok tt w' ∧ cache_ok w') ∧
    (∃ w', Hybrid.CleanupExpiredEntries w = Ok tt w' ∧ cache_ok w') ∧
    (∀ s l, ∃ b w', Hybrid.RateLimit s l w = Ok b w' ∧ cache_ok w') ∧
    (∀ s l, ∃ r w', Hybrid.RateLimitWithDetail s l w = Ok r w' ∧ cache_ok w').
Proof.
  split; [apply map_Forall_empty|].
  intros w Hok. repeat split.
  - intros s l. by apply checkLocalCache_ok.
  - intros s l c ttl.
    destruct (updateLocalCacheWithRedisValues_ok w s l c ttl Hok)
      as (w' & ? & ? & _). eauto.
  - intros s l.
    destruct (incrementLocalCache_ok w s l Hok) as (w' & ? & ? & _). eauto.
  - destruct (CleanupExpiredEntries_ok w Hok) as (w' & ? & ? & _). eauto.
  - intros s l. by apply RateLimit_ok.
  - intros s l. by apply RateLimitWithDetail_ok.
Qed.

Lemma table_holds_entry_pointers_witness :
  cache_ok exhausted_world ∧
  (∀ s l, ∃ b w',
      Hybrid.checkLocalCache s l exhausted_world = Ok b w' ∧ cache_ok w') ∧
  (∀ s l c ttl, ∃ w',
      Hybrid.updateLocalCacheWithRedisValues s l c ttl exhausted_world
      = Ok tt w' ∧ cache_ok w') ∧
  (∀ s l, ∃ w',
      Hybrid.incrementLocalCache s l exhausted_world = Ok tt w' ∧ cache_ok w') ∧
  (∃ w', Hybrid.CleanupExpiredEntries exhausted_world = Ok tt w' ∧ cache_ok w') ∧
  (∀ s l, ∃ b w', Hybrid.RateLimit s l exhausted_world = Ok b w' ∧ cache_ok w') ∧
  (∀ s l, ∃ r w',
      Hybrid.RateLimitWithDetail s l exhausted_world = Ok r w' ∧ cache_ok w').
Proof.
  split; [exact exhausted_world_ok|].
  apply (proj2 (table_holds_entry_pointers 0) exhausted_world).
  exact exhausted_world_ok.
Defined.

(** The invariant is not idle: on a table that holds anything else the
    readers do panic. *)
Example foreign_value_panics :
  Hybrid.checkLocalCache "u" 1
    (mkWorld {[ "u" := nil_interface ]} [] ∅ false 0 [])
  = Panic "interface conversion: interface {} is nil, not *CacheEntry" ∧
  Hybrid.checkLocalCache "u" 1
    (mkWorld {[ "u" := CacheEntry_ptr None ]} [] ∅ false 0 [])
  = Panic "invalid memory address or nil pointer dereference".
Proof. split; vm_compute; reflexivity. Qed.

(** * Further properties of the code *)

(** ** The Redis repository within and across windows *)

Lemma replay_length {A} (call : M A) delays w results w' :
  replay call delays w = Ok results w' → length results = length delays.
Proof.
  revert w results w'. induction delays as [|d delays IH];
    intros w results w'; simpl replay.
  - by intros [= <- _].
  - unfold mbind, M_bind. destruct (call (elapse d w)) as [a w1|]; [|done].
    destruct (replay call delays w1) as [rest w2|] eqn:Hrest; [|done].
    intros [= <- _]. simpl. f_equal. by eapply IH.
Qed.

Lemma arrival_0 now d delays : arrival now (d :: delays) 0 = now + d.
Proof. unfold arrival, Zsum. simpl. destruct delays; simpl; lia. Qed.

Lemma arrival_S now d delays i :
  arrival now (d :: delays) (S i) = arrival (now + d) delays i.
Proof. unfold arrival, Zsum. simpl. lia. Qed.

Lemma Redis_RateLimitWithDetail_fresh w s L :
  redis_down w = false →
  RedisServer.get (clock w) (Redis.key_of s) (redis w) = None →
  Redis.RateLimitWithDetail s L w =
  Ok ((if wrap64 (L - 1) <? 0 then 0 else wrap64 (L - 1)), windowSize, None)
     (mkWorld (localCache w) (heap w)
        (<[Redis.key_of s := mkRedisKey 1 (Some (clock w + windowSize))]>
           (redis w))
        (redis_down w) (clock w) (trace w ++ [EvExec (detail_cmds s)])).
Proof.
  intros Hup Hnone. by rewrite Redis_RateLimitWithDetail_eq, Hnone.
Qed.

(** A live counter: the time to live returned is the time left, cut to
    whole seconds. *)
Lemma Redis_RateLimitWithDetail_live w s L c e :
  redis_down w = false →
  redis w !! Redis.key_of s = Some (mkRedisKey c (Some e)) →
  clock w <= e → c < max_int64 →
  Redis.RateLimitWithDetail s L w =
  Ok ((if wrap64 (L - (c + 1)) <? 0 then 0 else wrap64 (L - (c + 1))),
      wrap64 ((e - clock w) / Second * Second), None)
     (mkWorld (localCache w) (heap w)
        (<[Redis.key_of s := mkRedisKey (c + 1) (Some e)]> (redis w))
        (redis_down w) (clock w) (trace w ++ [EvExec (detail_cmds s)])).
Proof.
  intros Hup Hk Hlive Hc. rewrite Redis_RateLimitWithDetail_eq by done.
  unfold RedisServer.get, RedisServer.live. rewrite Hk. cbn [expire_at].
  assert ((clock w <=? e) = true) as -> by lia. cbn [value expire_at].
  by assert ((c <? max_int64) = true) as -> by lia.
Qed.

Lemma get_expired now key db c e :
  db !! key = Some (mkRedisKey c (Some e)) → e < now →
  RedisServer.get now key db = None.
Proof.
  intros Hk Hexp. unfold RedisServer.get, RedisServer.live. rewrite Hk. simpl.
  by assert ((now <=? e) = false) as -> by lia.
Qed.

Lemma clamp_remaining L i :
  0 < L <= max_int64 → 0 < i <= max_int64 →
  (if wrap64 (L - i) <? 0 then 0 else wrap64 (L - i)) = Z.max 0 (L - i).
Proof.
  intros HL Hi. rewrite wrap64_id.
  - destruct (L - i <? 0) eqn:Hneg; lia.
  - unfold in_int64, min_int64, max_int64 in *. lia.
Qed.

Lemma replay_fmap {A B} (f : A → B) (call1 : M A) (call2 : M B) delays :
  (∀ w, call2 w = match call1 w with
                  | Ok a w' => Ok (f a) w'
                  | Panic msg => Panic msg
                  end) →
  ∀ w, replay call2 delays w =
       match replay call1 delays w with
       | Ok results w' => Ok (f <$> results) w'
       | Panic msg => Panic msg
       end.
Proof.
  intros Hcall. induction delays as [|d delays IH]; intros w; [done|].
  simpl replay. unfold mbind, M_bind. rewrite Hcall.
  destruct (call1 (elapse d w)) as [a w1|]; [|done].
  rewrite IH. by destruct (replay call1 delays w1).
Qed.

(** Inside the window of a live counter at [c], request number [i] (from 0)
    is told the quota left after it and the time left in the window, in
    whole seconds. *)
Lemma redis_detail_window s L delays :
  0 < L <= max_int64 →
  ∀ w c e,
    redis_down w = false →
    redis w !! Redis.key_of s = Some (mkRedisKey c (Some e)) →
    within_window (clock w) e delays → Forall (λ d, 0 <= d) delays →
    e - clock w <= max_int64 →
    0 <= c → c + Z.of_nat (length delays) <= max_int64 →
    ∃ results w',
      replay (Redis.RateLimitWithDetail s L) delays w = Ok results w' ∧
      (∀ i r, results !! i = Some r →
              ∃ ttl, r = (Z.max 0 (L - (c + Z.of_nat (S i))), ttl, None) ∧
                     within_a_second (e - arrival (clock w) delays i) ttl ∧
                     (Second | ttl)) ∧
      redis w' !! Redis.key_of s
      = Some (mkRedisKey (c + Z.of_nat (length delays)) (Some e)).
Proof.
  intros HL. induction delays as [|d delays IH];
    intros w c e Hup Hk Hwin Hpos Hfar Hc0 Hc.
  - exists [], w. split; [reflexivity|]. split; [by intros i r [=]|].
    rewrite Hk. do 3 f_equal. simpl. lia.
  - destruct Hwin as [Hd Hwin]. apply Forall_cons in Hpos as [Hd0 Hpos].
    simpl length in Hc. simpl replay. unfold mbind, M_bind.
    rewrite (Redis_RateLimitWithDetail_live (elapse d w) s L c e Hup Hk)
      by (simpl; lia).
    match goal with |- context [replay _ _ ?w1] =>
      destruct (IH w1 (c + 1) e) as (rest & w' & Hrun & Hrest & Hkey)
    end; [exact Hup|apply lookup_insert_eq|exact Hwin|exact Hpos|simpl; lia
         |lia|lia|].
    rewrite Hrun. eexists _, w'. split; [reflexivity|]. split.
    + intros [|i] r; cbn [lookup list_lookup].
      * intros [= <-]. eexists.
        split; [rewrite clamp_remaining by lia; reflexivity|].
        rewrite arrival_0. cbn [clock elapse].
        destruct (seconds_left_bounds (e - (clock w + d)))
          as (-> & Hp & Hb); [lia|].
        split; [unfold within_a_second; lia|]. apply Z.divide_factor_r.
      * intros Hr. destruct (Hrest i r Hr) as (ttl & -> & Hnear & Hdiv).
        exists ttl. rewrite arrival_S.
        replace (c + Z.of_nat (S (S i))) with (c + 1 + Z.of_nat (S i))
          by lia.
        done.
    + rewrite Hkey.
      by replace (c + Z.of_nat (length (d :: delays)))
        with (c + 1 + Z.of_nat (length delays)) by (simpl length; lia).
Qed.

Lemma HandleWithDetail_valid_command repository s L w :
  s ≠ "" → 0 < L →
  commandWithDetail.Handle repository
    {| commandWithDetail.UserID := s; commandWithDetail.Limit := L |} w =
  match ports.RateLimitWithDetail repository s L w with
  | Ok r w' => Ok (detail_reply r) w'
  | Panic msg => Panic msg
  end.
Proof.
  intros Hs HL. unfold commandWithDetail.Handle, mbind, M_bind. simpl.
  assert ((s =? "")%string = false) as -> by (by apply String.eqb_neq).
  assert ((L <=? 0) = false) as -> by lia.
  destruct (ports.RateLimitWithDetail repository s L w)
    as [[[remaining resetTime] [e|]] w'|]; reflexivity.
Qed.

Lemma redis_detail_from_empty s L t0 d0 delays :
  0 < L <= max_int64 →
  within_window (t0 + d0) (t0 + d0 + windowSize) delays →
  Forall (λ d, 0 <= d) delays →
  1 + Z.of_nat (length delays) <= max_int64 →
  ∃ results w',
    replay (Redis.RateLimitWithDetail s L) (d0 :: delays) (NewWorld t0)
    = Ok results w' ∧
    (∀ i r, results !! i = Some r →
            ∃ ttl, r = (Z.max 0 (L - Z.of_nat (S i)), ttl, None) ∧
                   within_a_second
                     (t0 + d0 + windowSize - arrival t0 (d0 :: delays) i) ttl ∧
                   (Second | ttl)) ∧
    redis w' !! Redis.key_of s
    = Some (mkRedisKey (1 + Z.of_nat (length delays))
                       (Some (t0 + d0 + windowSize))).
Proof.
  intros HL Hwin Hpos Hlen. simpl replay. unfold mbind, M_bind.
  rewrite (Redis_RateLimitWithDetail_fresh (elapse d0 (NewWorld t0)) s L)
    by done.
  match goal with |- context [replay _ _ ?w1] =>
    destruct (redis_detail_window s L delays HL w1 1 (t0 + d0 + windowSize))
      as (rest & w' & Hrun & Hrest & Hkey)
  end; [reflexivity|apply lookup_insert_eq|exact Hwin|exact Hpos| |lia|lia|].
  { simpl. assert (windowSize = 60000000000) as -> by reflexivity.
    unfold max_int64. lia. }
  rewrite Hrun. eexists _, w'. split; [reflexivity|]. split; [|exact Hkey].
  intros [|i] r; cbn [lookup list_lookup].
  - intros [= <-]. exists windowSize.
    split; [rewrite clamp_remaining by lia; do 2 f_equal; lia|].
    rewrite arrival_0.
    split; [unfold within_a_second; assert (0 < Second) by reflexivity; lia|].
    exists 60. reflexivity.
  - intros Hr. destruct (Hrest i r Hr) as (ttl & -> & Hnear & Hdiv).
    exists ttl. rewrite arrival_S.
    by replace (Z.of_nat (S (S i))) with (1 + Z.of_nat (S i)) by lia.
Qed.

(** X1. Through [Handle] over the Redis repository, from an empty backend
    and as long as the requests stay in the window the first one opens,
    request number i of a subject is admitted exactly when i <= limit, and
    no error is returned. *)
Theorem redis_plain_check_admits_up_to_limit s L t0 d0 delays :
  s ≠ "" → 0 < L →
  within_window (t0 + d0) (t0 + d0 + windowSize) delays →
  1 + Z.of_nat (length delays) <= max_int64 →
  ∃ w', replay (command.Handle RedisRateLimitRepository
                  {| command.UserID := s; command.Limit := L |})
               (d0 :: delays) (NewWorld t0)
        = Ok ((λ i, (Z.of_nat i <=? L, None)) <$> seq 1 (S (length delays))) w'.
Proof.
  intros Hs HL Hwin Hlen. rewrite replay_Handle by done.
  destruct (redis_only_ith_request s L t0 d0 delays Hwin Hlen) as (w' & Hrun).
  exists w'. simpl ports.RateLimit. rewrite Hrun.
  by rewrite <- list_fmap_compose.
Qed.

Lemma redis_plain_check_admits_up_to_limit_witness :
  "u" ≠ "" ∧ 0 < 2 ∧
  within_window (0 + 0) (0 + 0 + windowSize) [Second; Second] ∧
  1 + Z.of_nat (length [Second; Second]) <= max_int64 ∧
  ∃ w', replay (command.Handle RedisRateLimitRepository
                  {| command.UserID := "u"; command.Limit := 2 |})
               (0 :: [Second; Second]) (NewWorld 0)
        = Ok ((λ i, (Z.of_nat i <=? 2, None))
                <$> seq 1 (S (length [Second; Second]))) w'.
Proof.
  assert (H1 : "u" ≠ "") by discriminate.
  assert (H2 : 0 < 2) by lia.
  assert (H3 : within_window (0 + 0) (0 + 0 + windowSize) [Second; Second])
    by (vm_compute; intuition discriminate).
  assert (H4 : 1 + Z.of_nat (length [Second; Second]) <= max_int64)
    by (vm_compute; discriminate).
  split; [exact H1|]. split; [exact H2|]. split; [exact H3|].
  split; [exact H4|].
  exact (redis_plain_check_admits_up_to_limit "u" 2 0 0 [Second; Second]
           H1 H2 H3 H4).
Defined.

(** X2. Window rollover at the Redis repository: once the clock has passed
    the expiry of a subject's counter, the next request starts a new count
    at 1 with a full window, whatever the old count was.  The plain check
    admits it (the limit is positive), the detailed check reports limit - 1
    left and a whole window until reset. *)
Theorem redis_window_rollover w s L c e :
  redis_down w = false →
  redis w !! Redis.key_of s = Some (mkRedisKey c (Some e)) →
  e < clock w → 0 < L <= max_int64 →
  ∃ w1 w2,
    Redis.RateLimit s L w = Ok true w1 ∧
    Redis.RateLimitWithDetail s L w = Ok (L - 1, windowSize, None) w2 ∧
    redis w1 !! Redis.key_of s
    = Some (mkRedisKey 1 (Some (clock w + windowSize))) ∧
    redis w2 !! Redis.key_of s
    = Some (mkRedisKey 1 (Some (clock w + windowSize))).
Proof.
  intros Hup Hk Hexp HL.
  pose proof (get_expired _ _ _ _ _ Hk Hexp) as Hget.
  eexists _, _. split; [|split].
  - unfold Redis.RateLimit, Exec, mbind, M_bind. rewrite Hup.
    fold (limit_cmds s). rewrite run_limit_cmds, Hget. simpl.
    by assert ((1 <=? L) = true) as -> by lia.
  - rewrite Redis_RateLimitWithDetail_fresh by done.
    rewrite clamp_remaining by lia. by rewrite Z.max_r by lia.
  - cbn [redis]. rewrite insert_insert_eq.
    split; apply lookup_insert_eq.
Qed.

Lemma redis_window_rollover_witness :
  ∃ w1 w2,
    Redis.RateLimit "u" 10 (elapse (windowSize + 1) shared_backend_world)
    = Ok true w1 ∧
    Redis.RateLimitWithDetail "u" 10
      (elapse (windowSize + 1) shared_backend_world)
    = Ok (10 - 1, windowSize, None) w2 ∧
    redis w1 !! Redis.key_of "u"
    = Some (mkRedisKey 1
              (Some (clock (elapse (windowSize + 1) shared_backend_world)
                     + windowSize))) ∧
    redis w2 !! Redis.key_of "u"
    = Some (mkRedisKey 1
              (Some (clock (elapse (windowSize + 1) shared_backend_world)
                     + windowSize))).
Proof.
  apply (redis_window_rollover (elapse (windowSize + 1) shared_backend_world)
           "u" 10 3 60000000000).
  - reflexivity.
  - vm_compute. reflexivity.
  - vm_compute. reflexivity.
  - split; vm_compute; [reflexivity|discriminate].
Defined.

(** X3. The plain check fails closed.  With the backend out of reach,
    [Handle] over the Redis repository denies every well-formed command and
    returns no error; table, heap and key space are as before, and the only
    access is the one attempted pipeline. *)
Theorem redis_plain_check_fails_closed w s L :
  s ≠ "" → 0 < L → redis_down w = true →
  command.Handle RedisRateLimitRepository
    {| command.UserID := s; command.Limit := L |} w
  = Ok (false, None) (log (EvExec (limit_cmds s)) w).
Proof.
  intros Hs HL Hdown. rewrite Handle_valid_command by done.
  simpl ports.RateLimit. unfold Redis.RateLimit, Exec, mbind, M_bind.
  by rewrite Hdown.
Qed.

Lemma redis_plain_check_fails_closed_witness :
  "u" ≠ "" ∧ 0 < 5 ∧ redis_down outage_world = true ∧
  command.Handle RedisRateLimitRepository
    {| command.UserID := "u"; command.Limit := 5 |} outage_world
  = Ok (false, None) (log (EvExec (limit_cmds "u")) outage_world).
Proof.
  assert (H1 : "u" ≠ "") by discriminate.
  assert (H2 : 0 < 5) by lia.
  assert (H3 : redis_down outage_world = true) by reflexivity.
  split; [exact H1|]. split; [exact H2|]. split; [exact H3|].
  exact (redis_plain_check_fails_closed outage_world "u" 5 H1 H2 H3).
Defined.





(** X5. The remaining quota a repository returns is never negative: for
    every limit, also one that is zero or negative, and every state of the
    backend, also a counter far beyond the limit. *)
Theorem remaining_is_never_negative w s l remaining ttl err w' :
  (Redis.RateLimitWithDetail s l w = Ok (remaining, ttl, err) w' →
   0 <= remaining) ∧
  (cache_ok w →
   Hybrid.RateLimitWithDetail s l w = Ok (remaining, ttl, err) w' →
   0 <= remaining).
Proof.
  split.
  - apply Redis_remaining_nonneg.
  - apply Hybrid_remaining_nonneg.
Qed.

Lemma remaining_is_never_negative_witness :
  Redis.RateLimitWithDetail "u" (-4) shared_backend_world
  = Ok (0, 60000000000, None)
       (world_after (Redis.RateLimitWithDetail "u" (-4) shared_backend_world)) ∧
  cache_ok shared_backend_world ∧
  Hybrid.RateLimitWithDetail "u" (-4) shared_backend_world
  = Ok (0, 60000000000, None)
       (world_after (Hybrid.RateLimitWithDetail "u" (-4) shared_backend_world)) ∧
  0 <= 0 ∧ 0 <= 0.
Proof.
  assert (H1 : Redis.RateLimitWithDetail "u" (-4) shared_backend_world
               = Ok (0, 60000000000, None)
                    (world_after (Redis.RateLimitWithDetail "u" (-4)
                                    shared_backend_world)))
    by (vm_compute; reflexivity).
  assert (H2 : Hybrid.RateLimitWithDetail "u" (-4) shared_backend_world
               = Ok (0, 60000000000, None)
                    (world_after (Hybrid.RateLimitWithDetail "u" (-4)
                                    shared_backend_world)))
    by (vm_compute; reflexivity).
  split; [exact H1|]. split; [exact shared_backend_world_ok|].
  split; [exact H2|].
  split; [exact (proj1 (remaining_is_never_negative shared_backend_world "u"
                          (-4) 0 60000000000 None _) H1)|].
  exact (proj2 (remaining_is_never_negative shared_backend_world "u" (-4) 0
                  60000000000 None _) shared_backend_world_ok H2).
Defined.

(** ** The sweep *)

Lemma visit_sweep_lookup now l w :
  cache_ok w →
  NoDup l.*1 →
  (∀ k v, (k, v) ∈ l → localCache w !! k = Some v) →
  ∃ w', syncMap.visit (Hybrid.CleanupExpiredEntries_func1 now) l w = Ok tt w' ∧
        heap w' = heap w ∧ same_backend w w' ∧
        ∀ s, localCache w' !! s =
             if decide (s ∈ l.*1)
             then match localCache w !! s, entry_of w s with
                  | Some v, Some e => if now >? ResetTime e then None else Some v
                  | _, _ => None
                  end
             else localCache w !! s.
Proof.
  revert w. induction l as [|[k v] l IH]; intros w Hok Hnodup Hin.
  - exists w. by repeat split.
  - apply NoDup_cons in Hnodup as [Hk Hnodup]. simpl in Hk.
    assert (Hkv : localCache w !! k = Some v) by (apply Hin; left).
    destruct (cache_ok_lookup w k v Hok Hkv) as (a & e & -> & He).
    assert (Hek : entry_of w k = Some e) by (unfold entry_of; by rewrite Hkv).
    simpl. unfold mbind, M_bind.
    rewrite (CleanupExpiredEntries_func1_eq now k a e w He).
    set (w1 := if now >? ResetTime e
               then mkWorld (delete k (localCache w)) (heap w) (redis w)
                            (redis_down w) (clock w) (trace w ++ [EvDelete k])
               else w).
    assert (Hheap1 : heap w1 = heap w) by (unfold w1; by destruct (now >? _)).
    assert (Hsame1 : same_backend w w1)
      by (unfold w1; by destruct (now >? _)).
    assert (Hne : ∀ s, s ≠ k → localCache w1 !! s = localCache w !! s).
    { intros s Hs. unfold w1. destruct (now >? _); [|done].
      simpl. by rewrite lookup_delete_ne. }
    assert (Hk1 : localCache w1 !! k
                  = if now >? ResetTime e then None
                    else Some (CacheEntry_ptr (Some a))).
    { unfold w1. destruct (now >? _); [|done]. simpl. apply lookup_delete_eq. }
    destruct (IH w1) as (w' & Hrun & Hheap & Hsame & Hlook).
    + unfold w1. destruct (now >? _); [|done]. by apply cache_ok_delete.
    + done.
    + intros k' v' Hin'. rewrite Hne; [apply Hin; by right|].
      intros ->. apply Hk. apply list_elem_of_fmap. by exists (k, v').
    + exists w'. split; [exact Hrun|]. split; [congruence|].
      split; [by eapply same_backend_trans|].
      intros s. rewrite Hlook. destruct (decide (s = k)) as [->|Hsk].
      * destruct (decide (k ∈ l.*1)); [done|].
        rewrite Hk1, Hkv, Hek.
        case_decide as Hn; [done|]. exfalso. apply Hn. left.
      * assert (Hent : entry_of w1 s = entry_of w s).
        { unfold entry_of. by rewrite Hne, Hheap1. }
        rewrite Hne, Hent by done.
        destruct (decide (s ∈ l.*1)) as [Hsl|Hsl].
        -- case_decide as Hn; [done|]. exfalso. apply Hn. by right.
        -- case_decide as Hy; [|done].
           apply elem_of_cons in Hy as [?|?]; done.
Qed.

(** X6. The sweep removes from the table exactly the subjects whose entry's
    reset time has passed; every other subject keeps its entry as it was,
    heap, backend and clock are not touched, and the table stays well
    formed. *)
Theorem sweep_removes_exactly_the_expired w :
  cache_ok w →
  ∃ w', Hybrid.CleanupExpiredEntries w = Ok tt w' ∧
        cache_ok w' ∧ heap w' = heap w ∧ same_backend w w' ∧
        (no_alias w → no_alias w') ∧
        ∀ s, entry_of w' s =
             match entry_of w s with
             | Some e => if clock w >? ResetTime e then None else Some e
             | None => None
             end.
Proof.
  intros Hok.
  destruct (CleanupExpiredEntries_ok w Hok) as (w0 & Hrun0 & Hok0 & _).
  unfold Hybrid.CleanupExpiredEntries, syncMap.Range in *.
  unfold mbind, M_bind, time_Now in *.
  destruct (visit_sweep_lookup (clock w) (map_to_list (localCache w))
              (log EvRange w)) as (w' & Hrun & Hheap & Hsame & Hlook).
  - by apply (cache_ok_same w).
  - apply NoDup_fst_map_to_list.
  - intros k v Hin. by apply elem_of_map_to_list in Hin.
  - rewrite Hrun in Hrun0. injection Hrun0 as <-.
    exists w'. split; [exact Hrun|]. split; [exact Hok0|].
    split; [exact Hheap|]. split; [exact Hsame|].
    assert (Hsub : ∀ s v, localCache w' !! s = Some v →
                          localCache w !! s = Some v).
    { intros s v. rewrite Hlook.
      change (localCache (log EvRange w)) with (localCache w).
      case_decide; [|done].
      destruct (localCache w !! s) as [v'|]; [|done].
      destruct (entry_of (log EvRange w) s) as [e|]; [|done].
      by destruct (clock w >? ResetTime e). }
    split.
    { intros Hna s1 s2 a H1 H2. apply (Hna s1 s2 a); by apply Hsub. }
    intros s. unfold entry_of at 1. rewrite Hlook, Hheap.
    change (localCache (log EvRange w)) with (localCache w).
    change (entry_of (log EvRange w) s) with (entry_of w s).
    change (heap (log EvRange w)) with (heap w).
    destruct (decide (s ∈ (map_to_list (localCache w)).*1)) as [Hin|Hnin].
    + destruct (cache_ok_entry_of w s Hok) as [[Hs ->]|(a & e & Hs & He & ->)];
        rewrite Hs; [done|].
      by destruct (clock w >? ResetTime e).
    + destruct (cache_ok_entry_of w s Hok) as [[Hs ->]|(a & e & Hs & He & ->)];
        rewrite Hs; [done|].
      exfalso. apply Hnin. apply list_elem_of_fmap.
      exists (s, CacheEntry_ptr (Some a)). split; [done|].
      by apply elem_of_map_to_list.
Qed.

Lemma sweep_removes_exactly_the_expired_witness :
  let w := elapse (windowSize + 1) exhausted_world in
  cache_ok w ∧
  ∃ w', Hybrid.CleanupExpiredEntries w = Ok tt w' ∧
        cache_ok w' ∧ heap w' = heap w ∧ same_backend w w' ∧
        (no_alias w → no_alias w') ∧
        ∀ s, entry_of w' s =
             match entry_of w s with
             | Some e => if clock w >? ResetTime e then None else Some e
             | None => None
             end.
Proof.
  assert (H1 : cache_ok (elapse (windowSize + 1) exhausted_world))
    by (apply (cache_ok_same exhausted_world); [done|done|];
        exact exhausted_world_ok).
  split; [exact H1|].
  exact (sweep_removes_exactly_the_expired
           (elapse (windowSize + 1) exhausted_world) H1).
Defined.

(** ** One subject's requests and the other subjects *)

Lemma key_of_inj s s' : Redis.key_of s = Redis.key_of s' → s = s'.
Proof. unfold Redis.key_of. simpl. intros H. by simplify_eq. Qed.

Lemma others_untouched_refl s w : others_untouched s w w.
Proof. by intros s' _. Qed.

Lemma others_untouched_trans s w1 w2 w3 :
  others_untouched s w1 w2 → others_untouched s w2 w3 →
  others_untouched s w1 w3.
Proof.
  intros H12 H23 s' Hs'. destruct (H12 s' Hs') as [<- <-]. by apply H23.
Qed.

Lemma others_untouched_same s w w' :
  localCache w' = localCache w → heap w' = heap w → redis w' = redis w →
  others_untouched s w w'.
Proof. intros Hc Hh Hr s' _. unfold entry_of. by rewrite Hc, Hh, Hr. Qed.

Lemma no_alias_same w w' :
  localCache w' = localCache w → no_alias w → no_alias w'.
Proof. unfold no_alias. by intros ->. Qed.

Lemma no_alias_NewWorld now : no_alias (NewWorld now).
Proof. intros s1 s2 a Hs1. simpl in Hs1. by rewrite lookup_empty in Hs1. Qed.

Lemma store_new_others w s e d c t :
  cache_ok w → no_alias w →
  let w' := mkWorld
              (<[s := CacheEntry_ptr (Some (length (heap w)))]> (localCache w))
              (heap w ++ [e]) (redis w) d c t in
  no_alias w' ∧ others_untouched s w w'.
Proof.
  intros Hok Hna. split.
  - assert (Hfresh : ∀ s', localCache w !! s'
                           ≠ Some (CacheEntry_ptr (Some (length (heap w))))).
    { intros s' Hs'. pose proof (Hok _ _ Hs') as Hv. simpl in Hv.
      apply bool_decide_eq_true in Hv. lia. }
    intros s1 s2 a. simpl.
    destruct (decide (s1 = s)) as [->|H1], (decide (s2 = s)) as [->|H2];
      [done|..].
    + rewrite lookup_insert_eq, lookup_insert_ne by done.
      intros [= <-] H. by apply Hfresh in H.
    + rewrite lookup_insert_eq, lookup_insert_ne by done.
      intros H [= <-]. by apply Hfresh in H.
    + rewrite !lookup_insert_ne by done. apply Hna.
  - intros s' Hs'. split; [|done]. unfold entry_of. simpl.
    rewrite lookup_insert_ne by done.
    destruct (localCache w !! s') as [v|] eqn:Hv; [|done].
    destruct (cache_ok_lookup w s' v Hok Hv) as (a & e' & -> & He').
    rewrite He'. by apply lookup_app_l_Some.
Qed.

Lemma write_others w s a e d c t :
  no_alias w → localCache w !! s = Some (CacheEntry_ptr (Some a)) →
  let w' := mkWorld (localCache w) (<[a := e]> (heap w)) (redis w) d c t in
  no_alias w' ∧ others_untouched s w w'.
Proof.
  intros Hna Hs. split; [exact Hna|].
  intros s' Hs'. split; [|done]. unfold entry_of. simpl.
  destruct (localCache w !! s') as [[|[a'|]|]|] eqn:Hv; try done.
  apply list_lookup_insert_ne. intros <-. apply Hs'. by apply (Hna s' s a).
Qed.

Lemma incrementLocalCache_others w s l :
  cache_ok w → no_alias w →
  ∃ w', Hybrid.incrementLocalCache s l w = Ok tt w' ∧
        cache_ok w' ∧ no_alias w' ∧ others_untouched s w w'.
Proof.
  intros Hok Hna.
  destruct (cache_ok_entry_of w s Hok) as [[Hs _]|(a & e & Hs & He & _)].
  - eexists. split; [by apply incrementLocalCache_absent|].
    split; [by apply cache_ok_store_new|]. by apply store_new_others.
  - destruct (Z.gtb_spec (clock w) (ResetTime e)).
    + eexists. split; [by eapply incrementLocalCache_expired|].
      split; [by apply cache_ok_write|]. by apply write_others.
    + eexists. split; [by eapply incrementLocalCache_live|].
      split; [by apply cache_ok_write|]. by apply write_others.
Qed.

Lemma updateLocalCacheWithRedisValues_others w s l c ttl :
  cache_ok w → no_alias w →
  ∃ w', Hybrid.updateLocalCacheWithRedisValues s l c ttl w = Ok tt w' ∧
        cache_ok w' ∧ no_alias w' ∧ others_untouched s w w'.
Proof.
  intros Hok Hna.
  destruct (cache_ok_entry_of w s Hok) as [[Hs _]|(a & e & Hs & He & _)].
  - eexists. split; [by apply updateLocalCacheWithRedisValues_absent|].
    split; [by apply cache_ok_store_new|]. by apply store_new_others.
  - eexists. split; [by eapply updateLocalCacheWithRedisValues_present|].
    split; [by apply cache_ok_write|]. by apply write_others.
Qed.

Lemma Redis_RateLimitWithDetail_others w s l :
  ∃ r w', Redis.RateLimitWithDetail s l w = Ok r w' ∧
          localCache w' = localCache w ∧ heap w' = heap w ∧
          others_untouched s w w'.
Proof.
  assert (Hins : ∀ k db d c t,
    others_untouched s w
      (mkWorld (localCache w) (heap w) db d c t) →
    others_untouched s w
      (mkWorld (localCache w) (heap w) (<[Redis.key_of s := k]> db) d c t)).
  { intros k db d c t H s' Hs'. destruct (H s' Hs') as [He Hr].
    split; [exact He|]. simpl in *. rewrite lookup_insert_ne; [exact Hr|].
    intros Heq. by apply key_of_inj in Heq. }
  assert (Hbase : ∀ d c t,
    others_untouched s w (mkWorld (localCache w) (heap w) (redis w) d c t))
    by (intros; by apply others_untouched_same).
  unfold Redis.RateLimitWithDetail, Exec, mbind, M_bind.
  destruct (redis_down w).
  { eexists _, _. split; [reflexivity|]. split; [done|]. split; [done|].
    apply Hbase. }
  fold (detail_cmds s). rewrite run_detail_cmds.
  destruct (RedisServer.get (clock w) (Redis.key_of s) (redis w)) as [k|].
  - destruct (value k <? max_int64); simpl;
      (eexists _, _; split; [reflexivity|]; split; [done|]; split; [done|]).
    + apply Hins, Hbase.
    + apply Hbase.
  - simpl. eexists _, _. split; [reflexivity|]. split; [done|].
    split; [done|]. apply Hins, Hins, Hbase.
Qed.

Lemma Hybrid_RateLimitWithDetail_others w s l :
  cache_ok w → no_alias w →
  ∃ r w', Hybrid.RateLimitWithDetail s l w = Ok r w' ∧
          cache_ok w' ∧ no_alias w' ∧ others_untouched s w w'.
Proof.
  intros Hok Hna. unfold Hybrid.RateLimitWithDetail, mbind, M_bind.
  rewrite checkLocalCache_eq by done.
  destruct (match entry_of w s with Some _ => _ | None => _ end); simpl.
  - destruct (Redis_RateLimitWithDetail_others (log (EvLoad s) w) s l)
      as ([[remaining ttl] err] & w1 & -> & Hc1 & Hh1 & Hoth1).
    assert (Hok1 : cache_ok w1) by (by apply (cache_ok_same w)).
    assert (Hna1 : no_alias w1) by (by apply (no_alias_same w)).
    assert (Hoth : others_untouched s w w1).
    { apply (others_untouched_trans s w (log (EvLoad s) w)); [|exact Hoth1].
      by apply others_untouched_same. }
    destruct err as [e|]; simpl.
    + by eexists _, _.
    + destruct (incrementLocalCache_others w1 s l Hok1 Hna1)
        as (w' & -> & Hok' & Hna' & Hoth').
      eexists _, _. split; [reflexivity|]. split; [done|]. split; [done|].
      by apply (others_untouched_trans s w w1).
  - go_unfold.
    destruct (cache_ok_entry_of w s Hok) as [[Hs _]|(a & e & Hs & He & _)];
      rewrite Hs; simpl.
    + eexists _, _. split; [reflexivity|].
      split; [by apply (cache_ok_same w)|]. split; [exact Hna|].
      by apply others_untouched_same.
    + rewrite He. simpl. destruct (ResetTime e >? clock w);
        (eexists _, _; split; [reflexivity|];
         split; [by apply (cache_ok_same w)|]; split; [exact Hna|];
         by apply others_untouched_same).
Qed.

Lemma Hybrid_RateLimit_others w s l :
  cache_ok w → no_alias w →
  ∃ b w', Hybrid.RateLimit s l w = Ok b w' ∧
          cache_ok w' ∧ no_alias w' ∧ others_untouched s w w'.
Proof.
  intros Hok Hna. unfold Hybrid.RateLimit, mbind, M_bind.
  rewrite checkLocalCache_eq by done.
  destruct (match entry_of w s with Some _ => _ | None => _ end); simpl.
  - destruct (Redis_RateLimitWithDetail_others (log (EvLoad s) w) s l)
      as ([[currentCount ttl] err] & w1 & -> & Hc1 & Hh1 & Hoth1).
    assert (Hok1 : cache_ok w1) by (by apply (cache_ok_same w)).
    assert (Hna1 : no_alias w1) by (by apply (no_alias_same w)).
    assert (Hoth : others_untouched s w w1).
    { apply (others_untouched_trans s w (log (EvLoad s) w)); [|exact Hoth1].
      by apply others_untouched_same. }
    destruct err as [e|]; simpl.
    + destruct (incrementLocalCache_others w1 s l Hok1 Hna1)
        as (w' & -> & Hok' & Hna' & Hoth').
      assert (Hfin : others_untouched s w (log (EvLoad s) w')).
      { apply (others_untouched_trans s w w1); [done|].
        apply (others_untouched_trans s w1 w'); [done|].
        by apply others_untouched_same. }
      go_unfold.
      destruct (cache_ok_entry_of w' s Hok') as [[Hs _]|(a & e' & Hs & He & _)];
        rewrite Hs; simpl.
      * eexists _, _. split; [reflexivity|].
        split; [by apply (cache_ok_same w')|]. split; [exact Hna'|].
        exact Hfin.
      * rewrite He. eexists _, _. split; [reflexivity|].
        split; [by apply (cache_ok_same w')|]. split; [exact Hna'|].
        exact Hfin.
    + destruct (updateLocalCacheWithRedisValues_others w1 s l currentCount ttl
                  Hok1 Hna1) as (w' & -> & Hok' & Hna' & Hoth').
      eexists _, _. split; [reflexivity|]. split; [done|]. split; [done|].
      by apply (others_untouched_trans s w w1).
  - eexists _, _. split; [reflexivity|].
    split; [by apply (cache_ok_same w)|]. split; [exact Hna|].
    by apply others_untouched_same.
Qed.

(** X7. Subjects are independent in the hybrid repository: a request of one
    subject, on either entry point, never panics, leaves the cache entry
    and the backend counter of every other subject as they were, and keeps
    the table well formed: every slot holds an entry, and no two subjects
    share one. *)
Theorem hybrid_request_leaves_other_subjects w s l :
  cache_ok w → no_alias w →
  (∃ b w', Hybrid.RateLimit s l w = Ok b w' ∧
           cache_ok w' ∧ no_alias w' ∧ others_untouched s w w') ∧
  (∃ r w', Hybrid.RateLimitWithDetail s l w = Ok r w' ∧
           cache_ok w' ∧ no_alias w' ∧ others_untouched s w w').
Proof.
  intros Hok Hna. split.
  - by apply Hybrid_RateLimit_others.
  - by apply Hybrid_RateLimitWithDetail_others.
Qed.

Lemma exhausted_world_no_alias : no_alias exhausted_world.
Proof.
  destruct (Hybrid_RateLimitWithDetail_others (NewWorld 0) "u" 1)
    as (r & w' & Hrun & _ & Hna & _).
  - intros k v Hk. simpl in Hk. by rewrite lookup_empty in Hk.
  - apply no_alias_NewWorld.
  - unfold exhausted_world. by rewrite Hrun.
Qed.

Lemma hybrid_request_leaves_other_subjects_witness :
  let w := exhausted_world in
  cache_ok w ∧ no_alias w ∧
  (∃ b w', Hybrid.RateLimit "v" 5 w = Ok b w' ∧
           cache_ok w' ∧ no_alias w' ∧ others_untouched "v" w w') ∧
  (∃ r w', Hybrid.RateLimitWithDetail "v" 5 w = Ok r w' ∧
           cache_ok w' ∧ no_alias w' ∧ others_untouched "v" w w').
Proof.
  split; [exact exhausted_world_ok|]. split; [exact exhausted_world_no_alias|].
  exact (hybrid_request_leaves_other_subjects exhausted_world "v" 5
           exhausted_world_ok exhausted_world_no_alias).
Defined.

(** ** The hybrid repository while the backend is out of reach *)

Lemma ltb_ext a b L : (a < L ↔ b < L) → (a <? L) = (b <? L).
Proof.
  intros H. destruct (Z.ltb_spec a L), (Z.ltb_spec b L); try done; lia.
Qed.

Lemma hybrid_degraded_first w s L :
  cache_ok w → redis_down w = true → entry_of w s = None →
  in_int64 (clock w + windowSize) →
  ∃ w', Hybrid.RateLimit s L w = Ok (1 <? L) w' ∧
        cache_ok w' ∧ redis_down w' = true ∧ clock w' = clock w ∧
        redis w' = redis w ∧
        entry_of w' s = Some (mkCacheEntry 1 L (clock w + windowSize)).
Proof.
  intros Hok Hdown He Hrange.
  set (w0 := log (EvExec (detail_cmds s)) (log (EvLoad s) w)).
  destruct (incrementLocalCache_ok w0 s L)
    as (w1 & Hinc & Hok1 & (Hr & Hd & Hcl) & He1).
  { by apply (cache_ok_same w). }
  change (entry_of w0 s) with (entry_of w s) in He1.
  change (clock w0) with (clock w) in He1.
  rewrite He, wrap64_id in He1 by done.
  exists (log (EvLoad s) w1). split.
  - rewrite (RateLimit_store_down w s L w1 Hok); try done.
    + by rewrite He1.
    + intros e. by rewrite He.
  - split; [by apply (cache_ok_same w1)|]. split; [by rewrite <- Hdown|].
    split; [exact Hcl|]. split; [exact Hr|]. exact He1.
Qed.

Lemma hybrid_degraded_step w s L c lim rt :
  cache_ok w → redis_down w = true →
  entry_of w s = Some (mkCacheEntry c lim rt) → clock w <= rt →
  0 <= c < max_int64 →
  ∃ w', Hybrid.RateLimit s L w = Ok (c + 1 <? L) w' ∧
        cache_ok w' ∧ redis_down w' = true ∧ clock w' = clock w ∧
        redis w' = redis w ∧
        entry_of w' s
        = Some (mkCacheEntry (if c <? L then c + 1 else c) lim rt).
Proof.
  intros Hok Hdown He Hlive Hc. destruct (Z.ltb_spec c L) as [Hlt|Hge].
  - set (w0 := log (EvExec (detail_cmds s)) (log (EvLoad s) w)).
    destruct (incrementLocalCache_ok w0 s L)
      as (w1 & Hinc & Hok1 & (Hr & Hd & Hcl) & He1).
    { by apply (cache_ok_same w). }
    change (entry_of w0 s) with (entry_of w s) in He1.
    change (clock w0) with (clock w) in He1.
    rewrite He in He1. cbn [Count Limit ResetTime] in He1.
    assert ((clock w >? rt) = false) as Hgt by lia. rewrite Hgt in He1.
    rewrite wrap64_id in He1
      by (unfold in_int64, min_int64, max_int64 in *; lia).
    exists (log (EvLoad s) w1). split.
    + rewrite (RateLimit_store_down w s L w1 Hok); try done.
      * by rewrite He1.
      * intros e. rewrite He. by intros [= <-].
    + split; [by apply (cache_ok_same w1)|]. split; [by rewrite <- Hdown|].
      split; [exact Hcl|]. split; [exact Hr|]. exact He1.
  - exists (log (EvLoad s) w).
    rewrite (RateLimit_fast_path w s L _ Hok He) by (simpl; lia).
    split; [f_equal; lia|]. split; [by apply (cache_ok_same w)|].
    by repeat split.
Qed.

Lemma hybrid_degraded_window s L delays :
  ∀ w c lim rt,
    cache_ok w → redis_down w = true →
    entry_of w s = Some (mkCacheEntry c lim rt) →
    within_window (clock w) rt delays →
    0 <= c → c + Z.of_nat (length delays) <= max_int64 →
    ∃ w', replay (Hybrid.RateLimit s L) delays w
          = Ok ((λ i, c + Z.of_nat i <? L) <$> seq 1 (length delays)) w' ∧
          redis w' = redis w ∧
          entry_of w' s
          = Some (mkCacheEntry
                    (Z.max c (Z.min (c + Z.of_nat (length delays)) L)) lim rt).
Proof.
  induction delays as [|d delays IH]; intros w c lim rt Hok Hdown He Hwin Hc0 Hc.
  - exists w. split; [reflexivity|]. split; [reflexivity|].
    rewrite He. do 2 f_equal. simpl. lia.
  - destruct Hwin as [Hd Hwin]. simpl length in *.
    simpl replay. unfold mbind, M_bind.
    destruct (hybrid_degraded_step (elapse d w) s L c lim rt)
      as (w1 & -> & Hok1 & Hdown1 & Hcl1 & Hr1 & He1);
      [by apply (cache_ok_same w)|exact Hdown|exact He|exact Hd|lia|].
    destruct (IH w1 (if c <? L then c + 1 else c) lim rt)
      as (w' & -> & Hr' & He'); try done.
    { by rewrite Hcl1. }
    { destruct (c <? L); lia. }
    { destruct (c <? L); lia. }
    exists w'. split; [|split].
    + unfold mret, M_ret. f_equal.
      change (seq 1 (S (length delays)))
        with (1%nat :: seq 2 (length delays)).
      rewrite fmap_cons. f_equal.
      rewrite <- (fmap_S_seq 1), <- list_fmap_compose.
      apply list_fmap_ext. intros _ i _. unfold compose. cbv beta.
      apply ltb_ext. destruct (Z.ltb_spec c L); lia.
    + by rewrite Hr'.
    + rewrite He'. do 2 f_equal. destruct (Z.ltb_spec c L); lia.
Qed.

(** X8. Degraded mode of the plain check.  With the backend out of reach
    from the start, [Handle] over the hybrid repository counts in the table
    alone: as long as the requests stay in the window the first one opens,
    request number i of a subject is admitted exactly when i < limit (one
    fewer than the limit, since the count is compared after the increment),
    no error is returned, the local count stops at the limit and the
    backend holds nothing. *)
Theorem degraded_mode_admits_below_limit s L t0 d0 delays :
  s ≠ "" → 0 < L →
  in_int64 (t0 + d0 + windowSize) →
  within_window (t0 + d0) (t0 + d0 + windowSize) delays →
  1 + Z.of_nat (length delays) <= max_int64 →
  ∃ w', replay (command.Handle HybridRateLimitRepository
                  {| command.UserID := s; command.Limit := L |})
               (d0 :: delays) (set_redis_down true (NewWorld t0))
        = Ok ((λ i, (Z.of_nat i <? L, None)) <$> seq 1 (S (length delays))) w' ∧
        redis w' = ∅ ∧
        entry_of w' s
        = Some (mkCacheEntry (Z.min (1 + Z.of_nat (length delays)) L) L
                             (t0 + d0 + windowSize)).
Proof.
  intros Hs HL Hrange Hwin Hlen. rewrite replay_Handle by done.
  simpl ports.RateLimit. simpl replay. unfold mbind, M_bind.
  destruct (hybrid_degraded_first
              (elapse d0 (set_redis_down true (NewWorld t0))) s L)
    as (w1 & -> & Hok1 & Hdown1 & Hcl1 & Hr1 & He1);
    [apply map_Forall_empty|reflexivity|reflexivity|exact Hrange|].
  simpl in Hcl1, Hr1, He1.
  destruct (hybrid_degraded_window s L delays w1 1 L (t0 + d0 + windowSize))
    as (w' & -> & Hr' & He'); try done; [by rewrite Hcl1|].
  exists w'. split; [|split].
  - unfold mret, M_ret. f_equal.
    change (seq 1 (S (length delays))) with (1%nat :: seq 2 (length delays)).
    rewrite !fmap_cons. f_equal.
    rewrite <- (fmap_S_seq 1), <- !list_fmap_compose.
    apply list_fmap_ext. intros _ i _. simpl. do 2 f_equal. lia.
  - by rewrite Hr'.
  - rewrite He'. do 2 f_equal. lia.
Qed.

Lemma degraded_mode_admits_below_limit_witness :
  "u" ≠ "" ∧ 0 < 2 ∧ in_int64 (0 + 0 + windowSize) ∧
  within_window (0 + 0) (0 + 0 + windowSize) [Second; Second] ∧
  1 + Z.of_nat (length [Second; Second]) <= max_int64 ∧
  ∃ w', replay (command.Handle HybridRateLimitRepository
                  {| command.UserID := "u"; command.Limit := 2 |})
               (0 :: [Second; Second]) (set_redis_down true (NewWorld 0))
        = Ok ((λ i, (Z.of_nat i <? 2, None))
                <$> seq 1 (S (length [Second; Second]))) w' ∧
        redis w' = ∅ ∧
        entry_of w' "u"
        = Some (mkCacheEntry (Z.min (1 + Z.of_nat (length [Second; Second])) 2)
                             2 (0 + 0 + windowSize)).
Proof.
  assert (H1 : "u" ≠ "") by discriminate.
  assert (H2 : 0 < 2) by lia.
  assert (H3 : in_int64 (0 + 0 + windowSize))
    by (vm_compute; intuition discriminate).
  assert (H4 : within_window (0 + 0) (0 + 0 + windowSize) [Second; Second])
    by (vm_compute; intuition discriminate).
  assert (H5 : 1 + Z.of_nat (length [Second; Second]) <= max_int64)
    by (vm_compute; discriminate).
  split; [exact H1|]. split; [exact H2|]. split; [exact H3|].
  split; [exact H4|]. split; [exact H5|].
  exact (degraded_mode_admits_below_limit "u" 2 0 0 [Second; Second]
           H1 H2 H3 H4 H5).
Defined.

(** ** The detailed check of the hybrid repository, request by request *)

Lemma hybrid_detail_first w s L :
  cache_ok w → redis_down w = false → entry_of w s = None →
  RedisServer.get (clock w) (Redis.key_of s) (redis w) = None →
  0 < L <= max_int64 → in_int64 (clock w + windowSize) →
  ∃ w', Hybrid.RateLimitWithDetail s L w = Ok (L - 1, windowSize, None) w' ∧
        cache_ok w' ∧ redis_down w' = false ∧ clock w' = clock w ∧
        entry_of w' s = Some (mkCacheEntry 1 L (clock w + windowSize)) ∧
        redis w' !! Redis.key_of s
        = Some (mkRedisKey 1 (Some (clock w + windowSize))).
Proof.
  intros Hok Hup He Hget HL Hrange.
  set (w0 := log (EvLoad s) w).
  pose proof (Redis_RateLimitWithDetail_fresh w0 s L Hup Hget) as Hstore.
  rewrite clamp_remaining, Z.max_r in Hstore by lia.
  rewrite (RateLimitWithDetail_store_ok w s L _ _ _ Hok) by
    (try exact Hstore; intros e; by rewrite He).
  match goal with |- context [Hybrid.incrementLocalCache s L ?w1] =>
    destruct (incrementLocalCache_ok w1 s L)
      as (w' & -> & Hok' & (Hr & Hd & Hcl) & He');
      [by apply (cache_ok_same w)|]
  end.
  cbn [clock redis redis_down] in *.
  change (entry_of _ s) with (entry_of w s) in He' at 2.
  rewrite He, wrap64_id in He' by done.
  exists w'. split; [reflexivity|]. split; [exact Hok'|].
  split; [by rewrite Hd|]. split; [exact Hcl|]. split; [exact He'|].
  rewrite Hr. apply lookup_insert_eq.
Qed.

Lemma hybrid_detail_step w s L c lim rt :
  cache_ok w → redis_down w = false →
  entry_of w s = Some (mkCacheEntry c lim rt) →
  redis w !! Redis.key_of s = Some (mkRedisKey c (Some rt)) →
  clock w <= rt → rt - clock w <= max_int64 →
  0 <= c < max_int64 → 0 < L <= max_int64 →
  ∃ ttl w',
    Hybrid.RateLimitWithDetail s L w
    = Ok (Z.max 0 (L - (c + 1)), ttl, None) w' ∧
    within_a_second (rt - clock w) ttl ∧
    (c < L → (Second | ttl)) ∧ (L <= c → ttl = rt - clock w) ∧
    cache_ok w' ∧ redis_down w' = false ∧ clock w' = clock w ∧
    entry_of w' s
    = Some (mkCacheEntry (if c <? L then c + 1 else c) lim rt) ∧
    redis w' !! Redis.key_of s
    = Some (mkRedisKey (if c <? L then c + 1 else c) (Some rt)).
Proof.
  intros Hok Hup He Hk Hlive Hfar Hc HL.
  assert (HS : 0 < Second) by reflexivity.
  destruct (Z.ltb_spec c L) as [Hlt|Hge].
  - set (w0 := log (EvLoad s) w).
    pose proof (Redis_RateLimitWithDetail_live w0 s L c rt Hup Hk Hlive)
      as Hstore.
    rewrite clamp_remaining in Hstore by lia.
    rewrite (RateLimitWithDetail_store_ok w s L _ _ _ Hok) by
      (try (apply Hstore; lia); intros e; rewrite He; by intros [= <-]).
    match goal with |- context [Hybrid.incrementLocalCache s L ?w1] =>
      destruct (incrementLocalCache_ok w1 s L)
        as (w' & -> & Hok' & (Hr & Hd & Hcl) & He');
        [by apply (cache_ok_same w)|]
    end.
    subst w0. cbn [clock redis redis_down log] in *.
    change (entry_of _ s) with (entry_of w s) in He' at 2.
    rewrite He in He'. cbn [Count Limit ResetTime] in He'.
    assert ((clock w >? rt) = false) as Hgt by lia. rewrite Hgt in He'.
    rewrite wrap64_id in He'
      by (unfold in_int64, min_int64, max_int64 in *; lia).
    destruct (seconds_left_bounds (rt - clock w)) as (-> & Hp & Hb); [lia|].
    eexists _, w'. split; [reflexivity|].
    split; [unfold within_a_second; lia|].
    split; [intros _; apply Z.divide_factor_r|]. split; [lia|].
    split; [exact Hok'|].
    split; [by rewrite Hd|]. split; [exact Hcl|]. split; [exact He'|].
    rewrite Hr. apply lookup_insert_eq.
  - exists (rt - clock w), (log (EvLoad s) (log (EvLoad s) w)).
    rewrite (RateLimitWithDetail_fast_path w s L _ Hok He) by (simpl; lia).
    cbn [ResetTime]. split.
    + do 3 f_equal; [lia|]. destruct (Z.gtb_spec rt (clock w)); [|lia].
      apply wrap64_id. unfold in_int64, min_int64, max_int64 in *. lia.
    + split; [unfold within_a_second; lia|]. split; [lia|]. split; [done|].
      split; [by apply (cache_ok_same w)|]. by repeat split.
Qed.

Lemma hybrid_detail_window s L delays :
  0 < L <= max_int64 →
  ∀ w c lim rt,
    cache_ok w → redis_down w = false →
    entry_of w s = Some (mkCacheEntry c lim rt) →
    redis w !! Redis.key_of s = Some (mkRedisKey c (Some rt)) →
    within_window (clock w) rt delays → Forall (λ d, 0 <= d) delays →
    rt - clock w <= max_int64 →
    0 <= c → c + Z.of_nat (length delays) <= max_int64 →
    ∃ results w',
      replay (Hybrid.RateLimitWithDetail s L) delays w = Ok results w' ∧
      (∀ i r, results !! i = Some r →
              ∃ ttl,
                r = (Z.max 0 (L - (c + Z.of_nat (S i))), ttl, None) ∧
                within_a_second (rt - arrival (clock w) delays i) ttl ∧
                (c + Z.of_nat i < L → (Second | ttl)) ∧
                (L <= c + Z.of_nat i →
                 ttl = rt - arrival (clock w) delays i)) ∧
      entry_of w' s
      = Some (mkCacheEntry
                (Z.max c (Z.min (c + Z.of_nat (length delays)) L)) lim rt) ∧
      redis w' !! Redis.key_of s
      = Some (mkRedisKey
                (Z.max c (Z.min (c + Z.of_nat (length delays)) L)) (Some rt)).
Proof.
  intros HL. induction delays as [|d delays IH];
    intros w c lim rt Hok Hup He Hk Hwin Hpos Hfar Hc0 Hc.
  - exists [], w. split; [reflexivity|]. split; [by intros i r [=]|].
    rewrite He, Hk. simpl length.
    replace (Z.max c (Z.min (c + Z.of_nat 0) L)) with c by lia. done.
  - destruct Hwin as [Hd Hwin]. apply Forall_cons in Hpos as [Hd0 Hpos].
    simpl length in *. simpl replay. unfold mbind, M_bind.
    destruct (hybrid_detail_step (elapse d w) s L c lim rt)
      as (ttl0 & w1 & -> & Hnear0 & Hsec0 & Hloc0 & Hok1 & Hup1 & Hcl1 & He1
          & Hk1);
      [by apply (cache_ok_same w)|exact Hup|exact He|exact Hk|exact Hd
      |simpl; lia|lia|exact HL|].
    simpl in Hcl1, Hnear0, Hloc0.
    destruct (IH w1 (if c <? L then c + 1 else c) lim rt)
      as (rest & w' & -> & Hrest & He' & Hk'); try done.
    { by rewrite Hcl1. }
    { rewrite Hcl1. lia. }
    { destruct (c <? L); lia. }
    { destruct (c <? L); lia. }
    assert (Hfin : Z.max (if c <? L then c + 1 else c)
                     (Z.min ((if c <? L then c + 1 else c)
                             + Z.of_nat (length delays)) L)
                   = Z.max c (Z.min (c + Z.of_nat (S (length delays))) L))
      by (destruct (Z.ltb_spec c L); lia).
    eexists _, w'. split; [reflexivity|]. split; [|split].
    + intros [|i] r; cbn [lookup list_lookup].
      * intros [= <-]. exists ttl0. rewrite arrival_0.
        split; [do 3 f_equal; lia|]. split; [exact Hnear0|].
        split; [intros ?; apply Hsec0; lia|intros ?; apply Hloc0; lia].
      * intros Hr. destruct (Hrest i r Hr) as (ttl & -> & Hnear & Hsec & Hloc).
        exists ttl. rewrite arrival_S, <- Hcl1.
        split; [do 2 f_equal; destruct (Z.ltb_spec c L); lia|].
        split; [exact Hnear|].
        split; intros ?; [apply Hsec|apply Hloc];
          destruct (Z.ltb_spec c L); lia.
    + by rewrite He', Hfin.
    + by rewrite Hk', Hfin.
Qed.

Lemma hybrid_detail_from_empty s L t0 d0 delays :
  0 < L <= max_int64 →
  in_int64 (t0 + d0 + windowSize) →
  within_window (t0 + d0) (t0 + d0 + windowSize) delays →
  Forall (λ d, 0 <= d) delays →
  1 + Z.of_nat (length delays) <= max_int64 →
  ∃ results w',
    replay (Hybrid.RateLimitWithDetail s L) (d0 :: delays) (NewWorld t0)
    = Ok results w' ∧
    (∀ i r, results !! i = Some r →
            ∃ ttl,
              r = (Z.max 0 (L - Z.of_nat (S i)), ttl, None) ∧
              within_a_second
                (t0 + d0 + windowSize - arrival t0 (d0 :: delays) i) ttl ∧
              (Z.of_nat i < L → (Second | ttl)) ∧
              (L <= Z.of_nat i →
               ttl = t0 + d0 + windowSize - arrival t0 (d0 :: delays) i)) ∧
    entry_of w' s
    = Some (mkCacheEntry (Z.min (1 + Z.of_nat (length delays)) L) L
                         (t0 + d0 + windowSize)) ∧
    redis w' !! Redis.key_of s
    = Some (mkRedisKey (Z.min (1 + Z.of_nat (length delays)) L)
                       (Some (t0 + d0 + windowSize))).
Proof.
  intros HL Hrange Hwin Hpos Hlen. simpl replay. unfold mbind, M_bind.
  destruct (hybrid_detail_first (elapse d0 (NewWorld t0)) s L)
    as (w1 & -> & Hok1 & Hup1 & Hcl1 & He1 & Hk1);
    [apply map_Forall_empty|reflexivity|reflexivity|reflexivity|exact HL
    |exact Hrange|].
  simpl in Hcl1, He1, Hk1.
  pose proof windowSize_pos as HW.
  destruct (hybrid_detail_window s L delays HL w1 1 L (t0 + d0 + windowSize))
    as (rest & w' & -> & Hrest & He' & Hk'); try done.
  { by rewrite Hcl1. }
  { rewrite Hcl1. assert (windowSize = 60000000000) as -> by reflexivity.
    unfold max_int64. lia. }
  assert (Hfin : Z.max 1 (Z.min (1 + Z.of_nat (length delays)) L)
                 = Z.min (1 + Z.of_nat (length delays)) L) by lia.
  eexists _, w'. split; [reflexivity|]. split; [|split].
  - intros [|i] r; cbn [lookup list_lookup].
    + intros [= <-]. exists windowSize. rewrite arrival_0.
      split; [do 3 f_equal; lia|].
      split; [unfold within_a_second; assert (0 < Second) by reflexivity; lia|].
      split; [intros _; by exists 60|intros ?; lia].
    + intros Hr. rewrite Hcl1 in Hrest.
      destruct (Hrest i r Hr) as (ttl & -> & Hnear & Hsec & Hloc).
      exists ttl. rewrite arrival_S.
      split; [do 3 f_equal; lia|]. split; [exact Hnear|].
      split; intros ?; [apply Hsec|apply Hloc]; lia.
  - by rewrite He', Hfin.
  - by rewrite Hk', Hfin.
Qed.

(** X9. The detailed check of the hybrid repository, from its initial state
    and with the backend reachable.  As long as the requests of a subject
    stay in the window the first one opens, request number i is told
    max(0, limit - i) remaining and a time until reset that is less than a
    second away from the time left in that window: up to the limit-th
    request it is the backend's time to live, a whole number of seconds;
    the requests over the limit are answered from the table, with the exact
    time left, so that the counter at the backend and the local count both
    stop at the limit. *)
Theorem hybrid_detail_check_stops_at_limit s L t0 d0 delays :
  0 < L <= max_int64 →
  in_int64 (t0 + d0 + windowSize) →
  within_window (t0 + d0) (t0 + d0 + windowSize) delays →
  Forall (λ d, 0 <= d) delays →
  1 + Z.of_nat (length delays) <= max_int64 →
  ∃ results w',
    replay (Hybrid.RateLimitWithDetail s L) (d0 :: delays) (NewWorld t0)
    = Ok results w' ∧
    (∀ i r, results !! i = Some r →
            ∃ ttl,
              r = (Z.max 0 (L - Z.of_nat (S i)), ttl, None) ∧
              within_a_second
                (t0 + d0 + windowSize - arrival t0 (d0 :: delays) i) ttl ∧
              (Z.of_nat i < L → (Second | ttl)) ∧
              (L <= Z.of_nat i →
               ttl = t0 + d0 + windowSize - arrival t0 (d0 :: delays) i)) ∧
    entry_of w' s
    = Some (mkCacheEntry (Z.min (1 + Z.of_nat (length delays)) L) L
                         (t0 + d0 + windowSize)) ∧
    redis w' !! Redis.key_of s
    = Some (mkRedisKey (Z.min (1 + Z.of_nat (length delays)) L)
                       (Some (t0 + d0 + windowSize))).
Proof. apply hybrid_detail_from_empty. Qed.

Lemma hybrid_detail_check_stops_at_limit_witness :
  let delays := [500000000; Second; Second] in
  0 < 2 <= max_int64 ∧ in_int64 (0 + 0 + windowSize) ∧
  within_window (0 + 0) (0 + 0 + windowSize) delays ∧
  Forall (λ d, 0 <= d) delays ∧
  1 + Z.of_nat (length delays) <= max_int64 ∧
  ∃ results w',
    replay (Hybrid.RateLimitWithDetail "u" 2) (0 :: delays) (NewWorld 0)
    = Ok results w' ∧
    (∀ i r, results !! i = Some r →
            ∃ ttl,
              r = (Z.max 0 (2 - Z.of_nat (S i)), ttl, None) ∧
              within_a_second
                (0 + 0 + windowSize - arrival 0 (0 :: delays) i) ttl ∧
              (Z.of_nat i < 2 → (Second | ttl)) ∧
              (2 <= Z.of_nat i →
               ttl = 0 + 0 + windowSize - arrival 0 (0 :: delays) i)) ∧
    entry_of w' "u"
    = Some (mkCacheEntry (Z.min (1 + Z.of_nat (length delays)) 2) 2
                         (0 + 0 + windowSize)) ∧
    redis w' !! Redis.key_of "u"
    = Some (mkRedisKey (Z.min (1 + Z.of_nat (length delays)) 2)
                       (Some (0 + 0 + windowSize))).
Proof.
  assert (H1 : 0 < 2 <= max_int64) by (split; vm_compute; congruence).
  assert (H2 : in_int64 (0 + 0 + windowSize))
    by (vm_compute; intuition discriminate).
  assert (H3 : within_window (0 + 0) (0 + 0 + windowSize)
                 [500000000; Second; Second])
    by (vm_compute; intuition discriminate).
  assert (H4 : Forall (λ d, 0 <= d) [500000000; Second; Second])
    by (repeat constructor; vm_compute; discriminate).
  assert (H5 : 1 + Z.of_nat (length [500000000; Second; Second]) <= max_int64)
    by (vm_compute; discriminate).
  cbv zeta.
  split; [exact H1|]. split; [exact H2|]. split; [exact H3|].
  split; [exact H4|]. split; [exact H5|].
  exact (hybrid_detail_check_stops_at_limit "u" 2 0 0
           [500000000; Second; Second] H1 H2 H3 H4 H5).
Defined.

(** With limit 2 and requests at 0s, 0.5s, 1.5s and 2.5s: the backend's
    time to live comes in whole seconds, the table's time left does not. *)
Example hybrid_detail_times_until_reset :
  result_of (replay (Hybrid.RateLimitWithDetail "u" 2)
                    [0; 500000000; Second; Second] (NewWorld 0))
  = Some [(1, 60 * Second, None); (0, 59 * Second, None);
          (0, 58500000000, None); (0, 57500000000, None)] ∧
  result_of (replay (Redis.RateLimitWithDetail "u" 2)
                    [0; 500000000; Second; Second] (NewWorld 0))
  = Some [(1, 60 * Second, None); (0, 59 * Second, None);
          (0, 58 * Second, None); (0, 57 * Second, None)].
Proof. split; vm_compute; reflexivity. Qed.

(** X10. Window rollover at the hybrid repository.  Once the clock has
    passed the reset time of a subject's cache entry and the backend holds
    no live counter for it, the next request goes to the backend whatever
    the old local count was, and a new window starts.  The detailed check
    reports limit - 1 left and a whole window, and sets the local count to
    1; the plain check admits, and stores the remaining quota limit - 1 in
    the local count. *)
Theorem hybrid_window_rollover w s L e :
  cache_ok w → redis_down w = false →
  entry_of w s = Some e → ResetTime e < clock w →
  RedisServer.get (clock w) (Redis.key_of s) (redis w) = None →
  0 < L <= max_int64 → in_int64 (clock w + windowSize) →
  ∃ w1 w2,
    Hybrid.RateLimitWithDetail s L w = Ok (L - 1, windowSize, None) w1 ∧
    entry_of w1 s = Some (mkCacheEntry 1 L (clock w + windowSize)) ∧
    redis w1 !! Redis.key_of s
    = Some (mkRedisKey 1 (Some (clock w + windowSize))) ∧
    Hybrid.RateLimit s L w = Ok true w2 ∧
    entry_of w2 s = Some (mkCacheEntry (L - 1) L (clock w + windowSize)) ∧
    redis w2 !! Redis.key_of s
    = Some (mkRedisKey 1 (Some (clock w + windowSize))).
Proof.
  intros Hok Hup He Hexp Hget HL Hrange.
  set (w0 := log (EvLoad s) w).
  pose proof (Redis_RateLimitWithDetail_fresh w0 s L Hup Hget) as Hstore.
  rewrite clamp_remaining, Z.max_r in Hstore by lia.
  assert (Hpass : ∀ e0, entry_of w s = Some e0 →
                        clock w <= ResetTime e0 → Count e0 < L).
  { intros e0. rewrite He. intros [= <-]. lia. }
  rewrite (RateLimitWithDetail_store_ok w s L _ _ _ Hok Hpass Hstore).
  rewrite (RateLimit_store_ok w s L _ _ _ Hok Hpass Hstore).
  match goal with |- context [Hybrid.incrementLocalCache s L ?w1] =>
    destruct (incrementLocalCache_ok w1 s L)
      as (w1' & -> & _ & (Hr1 & _ & _) & He1);
      [by apply (cache_ok_same w)|];
    destruct (updateLocalCacheWithRedisValues_ok w1 s L (L - 1) windowSize)
      as (w2' & -> & _ & (Hr2 & _ & _) & He2);
      [by apply (cache_ok_same w)|]
  end.
  subst w0. cbn [clock redis log] in *.
  change (entry_of _ s) with (entry_of w s) in He1 at 2.
  rewrite He in He1.
  assert ((clock w >? ResetTime e) = true) as Hgt by lia. rewrite Hgt in He1.
  rewrite wrap64_id in He1, He2 by done.
  exists w1', w2'. split; [reflexivity|]. split; [exact He1|].
  split; [rewrite Hr1; apply lookup_insert_eq|].
  split; [f_equal; lia|]. split; [exact He2|].
  rewrite Hr2. apply lookup_insert_eq.
Qed.

Lemma hybrid_window_rollover_witness :
  let w := elapse (windowSize + 1) exhausted_world in
  cache_ok w ∧ redis_down w = false ∧
  entry_of w "u" = Some (mkCacheEntry 1 1 60000000000) ∧
  ResetTime (mkCacheEntry 1 1 60000000000) < clock w ∧
  RedisServer.get (clock w) (Redis.key_of "u") (redis w) = None ∧
  0 < 3 <= max_int64 ∧ in_int64 (clock w + windowSize) ∧
  ∃ w1 w2,
    Hybrid.RateLimitWithDetail "u" 3 w = Ok (3 - 1, windowSize, None) w1 ∧
    entry_of w1 "u" = Some (mkCacheEntry 1 3 (clock w + windowSize)) ∧
    redis w1 !! Redis.key_of "u"
    = Some (mkRedisKey 1 (Some (clock w + windowSize))) ∧
    Hybrid.RateLimit "u" 3 w = Ok true w2 ∧
    entry_of w2 "u" = Some (mkCacheEntry (3 - 1) 3 (clock w + windowSize)) ∧
    redis w2 !! Redis.key_of "u"
    = Some (mkRedisKey 1 (Some (clock w + windowSize))).
Proof.
  assert (H1 : cache_ok (elapse (windowSize + 1) exhausted_world))
    by (apply (cache_ok_same exhausted_world); [done|done|];
        exact exhausted_world_ok).
  assert (H2 : redis_down (elapse (windowSize + 1) exhausted_world) = false)
    by reflexivity.
  assert (H3 : entry_of (elapse (windowSize + 1) exhausted_world) "u"
               = Some (mkCacheEntry 1 1 60000000000))
    by (vm_compute; reflexivity).
  assert (H4 : ResetTime (mkCacheEntry 1 1 60000000000)
               < clock (elapse (windowSize + 1) exhausted_world))
    by (vm_compute; reflexivity).
  assert (H5 : RedisServer.get
                 (clock (elapse (windowSize + 1) exhausted_world))
                 (Redis.key_of "u")
                 (redis (elapse (windowSize + 1) exhausted_world)) = None)
    by (vm_compute; reflexivity).
  assert (H6 : 0 < 3 <= max_int64) by (split; vm_compute; congruence).
  assert (H7 : in_int64 (clock (elapse (windowSize + 1) exhausted_world)
                         + windowSize))
    by (vm_compute; intuition discriminate).
  cbv zeta.
  split; [exact H1|]. split; [exact H2|]. split; [exact H3|].
  split; [exact H4|]. split; [exact H5|]. split; [exact H6|].
  split; [exact H7|].
  exact (hybrid_window_rollover (elapse (windowSize + 1) exhausted_world)
           "u" 3 (mkCacheEntry 1 1 60000000000) H1 H2 H3 H4 H5 H6 H7).
Defined.

(** X11. What the table writers store is what the local check reads.
    After [updateLocalCacheWithRedisValues] has written a count and a time to
    live for a subject, a local check that comes [d] later passes exactly
    when the time to live has run out or the count is below the limit asked
    for; after [incrementLocalCache] on a subject the table did not hold, it
    passes exactly when the window has run out or the limit asked for is
    above 1. *)
Theorem local_check_reads_what_was_written w s l c ttl l' d :
  cache_ok w →
  in_int64 (clock w + ttl) → in_int64 (clock w + windowSize) →
  (∃ w1 w2,
     Hybrid.updateLocalCacheWithRedisValues s l c ttl w = Ok tt w1 ∧
     Hybrid.checkLocalCache s l' (elapse d w1)
     = Ok (if d >? ttl then true else c <? l') w2) ∧
  (entry_of w s = None →
   ∃ w1 w2,
     Hybrid.incrementLocalCache s l w = Ok tt w1 ∧
     Hybrid.checkLocalCache s l' (elapse d w1)
     = Ok (if d >? windowSize then true else 1 <? l') w2).
Proof.
  intros Hok Hr1 Hr2. split.
  - destruct (updateLocalCacheWithRedisValues_ok w s l c ttl Hok)
      as (w1 & Hrun & Hok1 & (_ & _ & Hcl) & He1).
    exists w1. eexists. split; [exact Hrun|].
    rewrite checkLocalCache_eq by (by apply (cache_ok_same w1)).
    change (entry_of (elapse d w1) s) with (entry_of w1 s).
    rewrite He1, wrap64_id by done. cbn [ResetTime Count clock elapse].
    rewrite Hcl. f_equal.
    destruct (Z.gtb_spec (clock w + d) (clock w + ttl)),
             (Z.gtb_spec d ttl); try lia; reflexivity.
  - intros He.
    destruct (incrementLocalCache_ok w s l Hok)
      as (w1 & Hrun & Hok1 & (_ & _ & Hcl) & He1).
    exists w1. eexists. split; [exact Hrun|].
    rewrite checkLocalCache_eq by (by apply (cache_ok_same w1)).
    change (entry_of (elapse d w1) s) with (entry_of w1 s).
    rewrite He1, He, wrap64_id by done. cbn [ResetTime Count clock elapse].
    rewrite Hcl. f_equal.
    destruct (Z.gtb_spec (clock w + d) (clock w + windowSize)),
             (Z.gtb_spec d windowSize); try lia; reflexivity.
Qed.

Lemma local_check_reads_what_was_written_witness :
  cache_ok (NewWorld 0) ∧
  in_int64 (clock (NewWorld 0) + 30 * Second) ∧
  in_int64 (clock (NewWorld 0) + windowSize) ∧
  (∃ w1 w2,
     Hybrid.updateLocalCacheWithRedisValues "u" 5 4 (30 * Second) (NewWorld 0)
     = Ok tt w1 ∧
     Hybrid.checkLocalCache "u" 5 (elapse Second w1)
     = Ok (if Second >? 30 * Second then true else 4 <? 5) w2) ∧
  entry_of (NewWorld 0) "u" = None ∧
  (∃ w1 w2,
     Hybrid.incrementLocalCache "u" 5 (NewWorld 0) = Ok tt w1 ∧
     Hybrid.checkLocalCache "u" 5 (elapse Second w1)
     = Ok (if Second >? windowSize then true else 1 <? 5) w2).
Proof.
  assert (H1 : cache_ok (NewWorld 0)) by apply map_Forall_empty.
  assert (H2 : in_int64 (clock (NewWorld 0) + 30 * Second))
    by (vm_compute; intuition discriminate).
  assert (H3 : in_int64 (clock (NewWorld 0) + windowSize))
    by (vm_compute; intuition discriminate).
  assert (H4 : entry_of (NewWorld 0) "u" = None) by reflexivity.
  split; [exact H1|]. split; [exact H2|]. split; [exact H3|].
  split; [exact (proj1 (local_check_reads_what_was_written (NewWorld 0) "u" 5
                          4 (30 * Second) 5 Second H1 H2 H3))|].
  split; [exact H4|].
  exact (proj2 (local_check_reads_what_was_written (NewWorld 0) "u" 5 4
                  (30 * Second) 5 Second H1 H2 H3) H4).
Defined.

(** X12. The plain check of the hybrid repository never denies while the
    backend answers.  From the initial state, whatever the limit and
    however the requests of a subject are spread in time, [Handle] over the
    hybrid repository admits every one of them without an error: the
    value it compares with the limit is the remaining quota, not the
    count. *)
Theorem hybrid_plain_check_admits_every_request s L t0 delays :
  s ≠ "" → 0 < L <= max_int64 →
  Z.of_nat (length delays) <= max_int64 →
  ∃ w', replay (command.Handle HybridRateLimitRepository
                  {| command.UserID := s; command.Limit := L |})
               delays (NewWorld t0)
        = Ok (repeat (true, None) (length delays)) w'.
Proof.
  intros Hs HL Hlen. rewrite replay_Handle by (done || lia).
  assert (Hok : cache_ok (NewWorld t0)) by apply map_Forall_empty.
  destruct (hybrid_RateLimit_never_denies s L delays HL (NewWorld t0) 0 Hok)
    as (w' & Hrun); try done.
  exists w'. simpl in *. rewrite Hrun. by rewrite fmap_repeat.
Qed.

Lemma hybrid_plain_check_admits_every_request_witness :
  "u" ≠ "" ∧ 0 < 1 <= max_int64 ∧
  Z.of_nat (length [0; Second; Second]) <= max_int64 ∧
  ∃ w', replay (command.Handle HybridRateLimitRepository
                  {| command.UserID := "u"; command.Limit := 1 |})
               [0; Second; Second] (NewWorld 0)
        = Ok (repeat (true, None) (length [0; Second; Second])) w'.
Proof.
  assert (H1 : "u" ≠ "") by discriminate.
  assert (H2 : 0 < 1 <= max_int64) by (split; vm_compute; congruence).
  assert (H3 : Z.of_nat (length [0; Second; Second]) <= max_int64)
    by (vm_compute; discriminate).
  split; [exact H1|]. split; [exact H2|]. split; [exact H3|].
  exact (hybrid_plain_check_admits_every_request "u" 1 0 [0; Second; Second]
           H1 H2 H3).
Defined.

(** ** The HTTP endpoint *)

Lemma CheckRateLimit_valid_request whole_seconds repository s L w :
  s ≠ "" → 0 < L →
  http.CheckRateLimit whole_seconds repository
    (inr {| http.req_UserID := s; http.req_Limit := L |}) w =
  match ports.RateLimitWithDetail repository s L w with
  | Ok r w' =>
      Ok (http_reply whole_seconds
            {| http.req_UserID := s; http.req_Limit := L |} r) w'
  | Panic msg => Panic msg
  end.
Proof.
  intros Hs HL. unfold http.CheckRateLimit. cbn [http.req_UserID http.req_Limit].
  assert ((s =? "")%string = false) as -> by (by apply String.eqb_neq).
  assert ((L <=? 0) = false) as -> by lia.
  unfold mbind at 1. unfold M_bind at 1.
  rewrite HandleWithDetail_valid_command by done.
  destruct (ports.RateLimitWithDetail repository s L w)
    as [[[remaining resetTime] [e|]] w'|]; try reflexivity.
  unfold detail_reply, http_reply, mret, M_ret. simpl.
  by destruct (remaining >? 0).
Qed.

Lemma CheckRateLimit_invalid_request whole_seconds repository req w :
  http.req_UserID req = "" ∨ http.req_Limit req <= 0 →
  ∃ msg, http.CheckRateLimit whole_seconds repository (inr req) w =
         Ok {| http.StatusCode := http.StatusBadRequest;
               http.body := http.ErrorBody msg None |} w.
Proof.
  intros Hbad. unfold http.CheckRateLimit.
  destruct (String.eqb_spec (http.req_UserID req) "") as [|Hne];
    [by eexists|].
  destruct Hbad as [|Hbad]; [done|].
  assert ((http.req_Limit req <=? 0) = true) as -> by lia. by eexists.
Qed.

(** X13. The endpoint's status follows the repository's answer, and the
    handler never dereferences a nil result.  For every repository whose
    detailed check returns: a request without a user or with a limit that
    is not positive gets 400 and nothing is called; otherwise the reply is
    500 when the repository returned an error, 200 when the remaining quota
    is positive and 429 when it is not, and the world is the one the
    repository left. *)
Theorem endpoint_status_follows_repository
    whole_seconds repository req w r w1 :
  ports.RateLimitWithDetail repository
    (http.req_UserID req) (http.req_Limit req) w = Ok r w1 →
  ∃ reply w',
    http.CheckRateLimit whole_seconds repository (inr req) w = Ok reply w' ∧
    if String.eqb (http.req_UserID req) "" || (http.req_Limit req <=? 0)
    then http.StatusCode reply = 400 ∧ w' = w
    else
      w' = w1 ∧
      match r with
      | (_, _, Some _) => http.StatusCode reply = 500
      | (remaining, _, None) =>
          http.StatusCode reply = (if remaining >? 0 then 200 else 429) ∧
          ∃ response,
            http.body reply = http.RateLimitBody response ∧
            http.Remaining response = remaining ∧
            http.Allowed response = (remaining >? 0)
      end.
Proof.
  intros Hrepo.
  destruct (String.eqb_spec (http.req_UserID req) "") as [Hempty|Hs].
  { destruct (CheckRateLimit_invalid_request whole_seconds repository req w)
      as (msg & ->); [by left|].
    eexists _, _. split; [reflexivity|]. simpl. by split. }
  destruct (Z.leb_spec (http.req_Limit req) 0) as [Hbad|HL].
  { destruct (CheckRateLimit_invalid_request whole_seconds repository req w)
      as (msg & ->); [by right|].
    eexists _, _. split; [reflexivity|]. simpl. by split. }
  destruct req as [s L]. cbn [http.req_UserID http.req_Limit] in *.
  rewrite CheckRateLimit_valid_request, Hrepo by done.
  eexists _, _. split; [reflexivity|]. simpl. split; [done|].
  destruct r as [[remaining resetTime] [e|]]; simpl; [done|].
  split; [by destruct (remaining >? 0)|]. by eexists.
Qed.

Lemma endpoint_status_follows_repository_witness :
  let whole_seconds := λ d, Z.quot d Second in
  ports.RateLimitWithDetail RedisRateLimitRepository "u" 1 (NewWorld 0)
  = Ok (0, windowSize, None)
       (world_after (Redis.RateLimitWithDetail "u" 1 (NewWorld 0))) ∧
  ∃ reply w',
    http.CheckRateLimit whole_seconds RedisRateLimitRepository
      (inr {| http.req_UserID := "u"; http.req_Limit := 1 |}) (NewWorld 0)
    = Ok reply w' ∧
    w' = world_after (Redis.RateLimitWithDetail "u" 1 (NewWorld 0)) ∧
    http.StatusCode reply = 429 ∧
    ∃ response,
      http.body reply = http.RateLimitBody response ∧
      http.Remaining response = 0 ∧
      http.Allowed response = false.
Proof.
  intros whole_seconds.
  assert (H1 : ports.RateLimitWithDetail RedisRateLimitRepository "u" 1
                 (NewWorld 0)
               = Ok (0, windowSize, None)
                    (world_after
                       (Redis.RateLimitWithDetail "u" 1 (NewWorld 0))))
    by (vm_compute; reflexivity).
  split; [exact H1|].
  exact (endpoint_status_follows_repository whole_seconds
           RedisRateLimitRepository
           {| http.req_UserID := "u"; http.req_Limit := 1 |} (NewWorld 0)
           _ _ H1).
Defined.

Lemma replay_CheckRateLimit whole_seconds repository s L delays w :
  s ≠ "" → 0 < L →
  replay (http.CheckRateLimit whole_seconds repository
            (inr {| http.req_UserID := s; http.req_Limit := L |})) delays w =
  match replay (ports.RateLimitWithDetail repository s L) delays w with
  | Ok results w' =>
      Ok (http_reply whole_seconds
            {| http.req_UserID := s; http.req_Limit := L |} <$> results) w'
  | Panic msg => Panic msg
  end.
Proof.
  intros Hs HL. apply replay_fmap. intros w0.
  by apply CheckRateLimit_valid_request.
Qed.

Lemma remaining_positive L i : (Z.max 0 (L - i) >? 0) = (i <? L).
Proof.
  destruct (Z.gtb_spec (Z.max 0 (L - i)) 0), (Z.ltb_spec i L); try done; lia.
Qed.

Lemma http_replies_in_window whole_seconds s L e now delays
    (results : list (Z * Z * option error)) :
  (∀ i r, results !! i = Some r →
          ∃ ttl, r = (Z.max 0 (L - Z.of_nat (S i)), ttl, None) ∧
                 within_a_second (e - arrival now delays i) ttl) →
  ∀ i reply,
    (http_reply whole_seconds
       {| http.req_UserID := s; http.req_Limit := L |} <$> results) !! i
    = Some reply →
    ∃ ttl,
      reply =
      {| http.StatusCode := if Z.of_nat (S i) <? L then 200 else 429;
         http.body :=
           http.RateLimitBody
             {| http.Allowed := Z.of_nat (S i) <? L;
                http.Remaining := Z.max 0 (L - Z.of_nat (S i));
                http.ResetTime := whole_seconds ttl;
                http.UserID := s;
                http.Limit := L |} |} ∧
      within_a_second (e - arrival now delays i) ttl.
Proof.
  intros Hres i reply. rewrite list_lookup_fmap.
  destruct (results !! i) as [r|] eqn:Hr; [|done].
  intros [= <-]. destruct (Hres i r Hr) as (ttl & -> & Hnear).
  exists ttl. split; [|exact Hnear]. unfold http_reply.
  cbn [http.req_UserID http.req_Limit]. by rewrite remaining_positive.
Qed.

(** X14. The endpoint admits one request fewer than the limit.  From the
    initial state, over the Redis repository as over the hybrid one, and as
    long as the requests of a subject stay in the window the first one
    opens, POST number i is answered 200 exactly when i < limit and 429
    from the limit-th on (the handler admits on remaining > 0, and the
    limit-th request leaves 0); the body carries max(0, limit - i)
    remaining, the user and limit of the request, and the whole seconds of
    a time until reset that is less than a second away from the time left
    in the window. *)
Theorem endpoint_admits_below_limit
    whole_seconds repository s L t0 d0 delays :
  repository = RedisRateLimitRepository ∨
  repository = HybridRateLimitRepository →
  s ≠ "" → 0 < L <= max_int64 →
  in_int64 (t0 + d0 + windowSize) →
  within_window (t0 + d0) (t0 + d0 + windowSize) delays →
  Forall (λ d, 0 <= d) delays →
  1 + Z.of_nat (length delays) <= max_int64 →
  ∃ replies w',
    replay (http.CheckRateLimit whole_seconds repository
              (inr {| http.req_UserID := s; http.req_Limit := L |}))
           (d0 :: delays) (NewWorld t0)
    = Ok replies w' ∧
    length replies = S (length delays) ∧
    ∀ i reply,
      replies !! i = Some reply →
      ∃ ttl,
        reply =
        {| http.StatusCode := if Z.of_nat (S i) <? L then 200 else 429;
           http.body :=
             http.RateLimitBody
               {| http.Allowed := Z.of_nat (S i) <? L;
                  http.Remaining := Z.max 0 (L - Z.of_nat (S i));
                  http.ResetTime := whole_seconds ttl;
                  http.UserID := s;
                  http.Limit := L |} |} ∧
        within_a_second
          (t0 + d0 + windowSize - arrival t0 (d0 :: delays) i) ttl.
Proof.
  intros Hrepo Hs HL Hrange Hwin Hpos Hlen.
  rewrite replay_CheckRateLimit by (done || lia).
  assert (∃ results w',
    replay (ports.RateLimitWithDetail repository s L) (d0 :: delays)
           (NewWorld t0) = Ok results w' ∧
    (∀ i r, results !! i = Some r →
            ∃ ttl, r = (Z.max 0 (L - Z.of_nat (S i)), ttl, None) ∧
                   within_a_second
                     (t0 + d0 + windowSize - arrival t0 (d0 :: delays) i)
                     ttl))
    as (results & w' & Hrun & Hres).
  { destruct Hrepo as [-> | ->]; cbn [ports.RateLimitWithDetail
      RedisRateLimitRepository HybridRateLimitRepository].
    - destruct (redis_detail_from_empty s L t0 d0 delays HL Hwin Hpos Hlen)
        as (results & w' & Hrun & Hres & _). exists results, w'.
      split; [exact Hrun|]. intros i r Hr.
      destruct (Hres i r Hr) as (ttl & ? & ? & _). by exists ttl.
    - destruct (hybrid_detail_from_empty s L t0 d0 delays HL Hrange Hwin
                  Hpos Hlen)
        as (results & w' & Hrun & Hres & _). exists results, w'.
      split; [exact Hrun|]. intros i r Hr.
      destruct (Hres i r Hr) as (ttl & ? & ? & _). by exists ttl. }
  rewrite Hrun. eexists _, w'. split; [reflexivity|]. split.
  - rewrite length_fmap. by apply replay_length in Hrun.
  - by apply http_replies_in_window.
Qed.

Lemma endpoint_admits_below_limit_witness :
  let whole_seconds := λ d, Z.quot d Second in
  let delays := [500000000; Second; Second] in
  (HybridRateLimitRepository = RedisRateLimitRepository ∨
   HybridRateLimitRepository = HybridRateLimitRepository) ∧
  "u" ≠ "" ∧ 0 < 2 <= max_int64 ∧ in_int64 (0 + 0 + windowSize) ∧
  within_window (0 + 0) (0 + 0 + windowSize) delays ∧
  Forall (λ d, 0 <= d) delays ∧
  1 + Z.of_nat (length delays) <= max_int64 ∧
  ∃ replies w',
    replay (http.CheckRateLimit whole_seconds HybridRateLimitRepository
              (inr {| http.req_UserID := "u"; http.req_Limit := 2 |}))
           (0 :: delays) (NewWorld 0)
    = Ok replies w' ∧
    length replies = S (length delays) ∧
    ∀ i reply,
      replies !! i = Some reply →
      ∃ ttl,
        reply =
        {| http.StatusCode := if Z.of_nat (S i) <? 2 then 200 else 429;
           http.body :=
             http.RateLimitBody
               {| http.Allowed := Z.of_nat (S i) <? 2;
                  http.Remaining := Z.max 0 (2 - Z.of_nat (S i));
                  http.ResetTime := whole_seconds ttl;
                  http.UserID := "u";
                  http.Limit := 2 |} |} ∧
        within_a_second
          (0 + 0 + windowSize - arrival 0 (0 :: delays) i) ttl.
Proof.
  intros whole_seconds.
  assert (H0 : HybridRateLimitRepository = RedisRateLimitRepository ∨
               HybridRateLimitRepository = HybridRateLimitRepository)
    by (right; reflexivity).
  assert (H1 : "u" ≠ "") by discriminate.
  assert (H2 : 0 < 2 <= max_int64) by (split; vm_compute; congruence).
  assert (H3 : in_int64 (0 + 0 + windowSize))
    by (vm_compute; intuition discriminate).
  assert (H4 : within_window (0 + 0) (0 + 0 + windowSize)
                 [500000000; Second; Second])
    by (vm_compute; intuition discriminate).
  assert (H5 : Forall (λ d, 0 <= d) [500000000; Second; Second])
    by (repeat constructor; vm_compute; discriminate).
  assert (H6 : 1 + Z.of_nat (length [500000000; Second; Second])
               <= max_int64)
    by (vm_compute; discriminate).
  cbv zeta.
  split; [exact H0|]. split; [exact H1|]. split; [exact H2|].
  split; [exact H3|]. split; [exact H4|]. split; [exact H5|].
  split; [exact H6|].
  exact (endpoint_admits_below_limit whole_seconds HybridRateLimitRepository
           "u" 2 0 0 [500000000; Second; Second] H0 H1 H2 H3 H4 H5 H6).
Defined.

(** X15. With the backend out of reach the endpoint answers 500 to a
    well-formed request, over the Redis repository and, unless the table
    denies the request on its own, over the hybrid one as well: the detail
    path has no degraded mode.  The details carry the error as wrapped by
    the adapter and again by the command handler; table, heap and key space
    are as before. *)
Theorem endpoint_reports_backend_failure whole_seconds w s L :
  s ≠ "" → 0 < L → redis_down w = true →
  let failure :=
    {| http.StatusCode := 500;
       http.body :=
         http.ErrorBody "Failed to check rate limit"
           (Some ("failed to check rate limit: failed to check rate limit: "
                  +:+ "dial tcp: connection refused")) |} in
  (∃ w', http.CheckRateLimit whole_seconds RedisRateLimitRepository
           (inr {| http.req_UserID := s; http.req_Limit := L |}) w
         = Ok failure w' ∧ unchanged w w') ∧
  (cache_ok w →
   (∀ e, entry_of w s = Some e → clock w <= ResetTime e → Count e < L) →
   ∃ w', http.CheckRateLimit whole_seconds HybridRateLimitRepository
           (inr {| http.req_UserID := s; http.req_Limit := L |}) w
         = Ok failure w' ∧ unchanged w w').
Proof.
  intros Hs HL Hdown failure. split.
  - rewrite CheckRateLimit_valid_request by done.
    cbn [ports.RateLimitWithDetail RedisRateLimitRepository].
    rewrite Redis_RateLimitWithDetail_down by done.
    eexists. split; [reflexivity|]. by repeat split.
  - intros Hok Hpass. rewrite CheckRateLimit_valid_request by done.
    cbn [ports.RateLimitWithDetail HybridRateLimitRepository].
    rewrite RateLimitWithDetail_store_down by done.
    eexists. split; [reflexivity|]. by repeat split.
Qed.

Lemma endpoint_reports_backend_failure_witness :
  let whole_seconds := λ d, Z.quot d Second in
  let w := set_redis_down true (NewWorld 0) in
  "u" ≠ "" ∧ 0 < 5 ∧ redis_down w = true ∧
  let failure :=
    {| http.StatusCode := 500;
       http.body :=
         http.ErrorBody "Failed to check rate limit"
           (Some ("failed to check rate limit: failed to check rate limit: "
                  +:+ "dial tcp: connection refused")) |} in
  (∃ w', http.CheckRateLimit whole_seconds RedisRateLimitRepository
           (inr {| http.req_UserID := "u"; http.req_Limit := 5 |}) w
         = Ok failure w' ∧ unchanged w w') ∧
  cache_ok w ∧
  (∀ e, entry_of w "u" = Some e → clock w <= ResetTime e → Count e < 5) ∧
  (∃ w', http.CheckRateLimit whole_seconds HybridRateLimitRepository
           (inr {| http.req_UserID := "u"; http.req_Limit := 5 |}) w
         = Ok failure w' ∧ unchanged w w').
Proof.
  intros whole_seconds.
  assert (H1 : "u" ≠ "") by discriminate.
  assert (H2 : 0 < 5) by lia.
  assert (H3 : redis_down (set_redis_down true (NewWorld 0)) = true)
    by reflexivity.
  assert (H4 : cache_ok (set_redis_down true (NewWorld 0)))
    by apply map_Forall_empty.
  assert (H5 : ∀ e, entry_of (set_redis_down true (NewWorld 0)) "u" = Some e →
                    clock (set_redis_down true (NewWorld 0)) <= ResetTime e →
                    Count e < 5)
    by (intros e He; vm_compute in He; discriminate).
  cbv zeta.
  split; [exact H1|]. split; [exact H2|]. split; [exact H3|].
  split; [exact (proj1 (endpoint_reports_backend_failure whole_seconds
                          (set_redis_down true (NewWorld 0)) "u" 5 H1 H2 H3))|].
  split; [exact H4|]. split; [exact H5|].
  exact (proj2 (endpoint_reports_backend_failure whole_seconds
                  (set_redis_down true (NewWorld 0)) "u" 5 H1 H2 H3) H4 H5).
Defined.

(** ** The rate limit entity *)

Lemma IsAllowed_live now now' rl :
  now <= domain.ResetTime rl → 0 <= domain.Remaining rl <= max_int64 →
  ∃ rl1,
    domain.IsAllowed now now' rl = (domain.Remaining rl >? 0, rl1) ∧
    domain.Remaining rl1 = Z.max 0 (domain.Remaining rl - 1) ∧
    domain.ResetTime rl1 = domain.ResetTime rl ∧
    domain.Limit rl1 = domain.Limit rl ∧
    domain.Window rl1 = domain.Window rl ∧
    domain.UserID rl1 = domain.UserID rl.
Proof.
  intros Hlive Hrem. unfold domain.IsAllowed.
  assert ((now >? domain.ResetTime rl) = false) as -> by lia.
  destruct (Z.gtb_spec (domain.Remaining rl) 0).
  - eexists. split; [reflexivity|]. simpl.
    rewrite wrap64_id by (unfold in_int64, min_int64, max_int64 in *; lia).
    repeat split; lia.
  - eexists. split; [reflexivity|]. repeat split; lia.
Qed.

Lemma IsAllowed_rollover now now' rl :
  domain.ResetTime rl < now → 0 < domain.Limit rl <= max_int64 →
  ∃ rl1,
    domain.IsAllowed now now' rl = (true, rl1) ∧
    domain.Remaining rl1 = domain.Limit rl - 1 ∧
    domain.ResetTime rl1 = now' + domain.Window rl ∧
    domain.Limit rl1 = domain.Limit rl ∧
    domain.Window rl1 = domain.Window rl ∧
    domain.UserID rl1 = domain.UserID rl.
Proof.
  intros Hexp HL. unfold domain.IsAllowed.
  assert ((now >? domain.ResetTime rl) = true) as -> by lia. simpl.
  assert ((domain.Limit rl >? 0) = true) as -> by lia.
  eexists. split; [reflexivity|]. simpl.
  rewrite wrap64_id by (unfold in_int64, min_int64, max_int64 in *; lia).
  by repeat split.
Qed.

Lemma IsAllowed_bounds now now' rl :
  0 <= domain.Limit rl <= max_int64 →
  0 <= domain.Remaining rl <= domain.Limit rl →
  ∃ allowed rl1,
    domain.IsAllowed now now' rl = (allowed, rl1) ∧
    0 <= domain.Remaining rl1 <= domain.Limit rl1 ∧
    (allowed = true → 0 < domain.Limit rl) ∧
    domain.Limit rl1 = domain.Limit rl ∧
    domain.Window rl1 = domain.Window rl ∧
    domain.UserID rl1 = domain.UserID rl.
Proof.
  intros HL Hrem. unfold domain.IsAllowed.
  destruct (now >? domain.ResetTime rl); simpl.
  - destruct (Z.gtb_spec (domain.Limit rl) 0).
    + eexists _, _. split; [reflexivity|]. simpl.
      rewrite wrap64_id by (unfold in_int64, min_int64, max_int64 in *; lia).
      repeat split; lia.
    + eexists _, _. split; [reflexivity|]. simpl. repeat split; try lia;
      discriminate.
  - destruct (Z.gtb_spec (domain.Remaining rl) 0).
    + eexists _, _. split; [reflexivity|]. simpl.
      rewrite wrap64_id by (unfold in_int64, min_int64, max_int64 in *; lia).
      repeat split; lia.
    + eexists _, _. split; [reflexivity|]. repeat split; try lia;
      discriminate.
Qed.

Lemma requests_in_window readings :
  ∀ rl,
    Forall (λ p : Z * Z, p.1 <= domain.ResetTime rl) readings →
    0 <= domain.Remaining rl <= max_int64 →
    (domain.requests readings rl).1
    = (λ i, Z.of_nat i <=? domain.Remaining rl) <$> seq 1 (length readings) ∧
    domain.Remaining (domain.requests readings rl).2
    = Z.max 0 (domain.Remaining rl - Z.of_nat (length readings)) ∧
    domain.ResetTime (domain.requests readings rl).2 = domain.ResetTime rl.
Proof.
  induction readings as [|[now now'] readings IH]; intros rl Hwin Hrem.
  - simpl. repeat split; lia.
  - apply Forall_cons in Hwin as [Hnow Hwin]. simpl in Hnow.
    destruct (IsAllowed_live now now' rl Hnow Hrem)
      as (rl1 & Hstep & Hrem1 & Hreset1 & _).
    simpl domain.requests. rewrite Hstep.
    destruct (IH rl1) as (Hv & Hr & Ht).
    { by rewrite Hreset1. }
    { lia. }
    destruct (domain.requests readings rl1) as [rest rl2].
    cbn [fst snd length] in *.
    split; [|split].
    + rewrite Hv.
      change (seq 1 (S (length readings)))
        with (1%nat :: seq 2 (length readings)).
      rewrite fmap_cons. f_equal.
      * destruct (Z.gtb_spec (domain.Remaining rl) 0),
                 (Z.leb_spec (Z.of_nat 1) (domain.Remaining rl));
          try done; lia.
      * rewrite <- (fmap_S_seq 1), <- list_fmap_compose.
        apply list_fmap_ext. intros k i Hi. unfold compose. cbv beta.
        apply lookup_seq in Hi as [-> _]. rewrite Hrem1.
        destruct (Z.leb_spec (Z.of_nat (1 + k))
                    (Z.max 0 (domain.Remaining rl - 1))),
                 (Z.leb_spec (Z.of_nat (S (1 + k))) (domain.Remaining rl));
          try done; lia.
    + rewrite Hr, Hrem1. lia.
    + by rewrite Ht.
Qed.

Lemma requests_bounds readings :
  ∀ rl,
    0 <= domain.Limit rl <= max_int64 →
    0 <= domain.Remaining rl <= domain.Limit rl →
    length (domain.requests readings rl).1 = length readings ∧
    0 <= domain.Remaining (domain.requests readings rl).2
      <= domain.Limit rl ∧
    (domain.Limit rl = 0 →
     (domain.requests readings rl).1 = repeat false (length readings)) ∧
    domain.Limit (domain.requests readings rl).2 = domain.Limit rl ∧
    domain.Window (domain.requests readings rl).2 = domain.Window rl ∧
    domain.UserID (domain.requests readings rl).2 = domain.UserID rl.
Proof.
  induction readings as [|[now now'] readings IH]; intros rl HL Hrem.
  - simpl. repeat split; (done || lia).
  - destruct (IsAllowed_bounds now now' rl HL Hrem)
      as (allowed & rl1 & Hstep & Hrem1 & Hadm & HL1 & HW1 & HU1).
    simpl domain.requests. rewrite Hstep.
    destruct (IH rl1) as (Hlen & Hr & Hz & HL2 & HW2 & HU2);
      [by rewrite HL1|done|].
    destruct (domain.requests readings rl1) as [rest rl2]. simpl in *.
    rewrite HL1 in *. repeat split; try congruence; try lia.
    intros Hzero. rewrite Hz by done. f_equal.
    destruct allowed; [|done]. specialize (Hadm eq_refl). lia.
Qed.

(** X16. The entity keeps its quota within bounds.  For a limit that is not
    negative and whatever the clock readings, windows rolling over or not,
    a run of [IsAllowed] calls gives one verdict per call and leaves
    0 <= Remaining <= Limit, with limit, window and user as they were; with
    limit 0 no call is ever admitted. *)
Theorem entity_quota_stays_within_bounds readings rl :
  0 <= domain.Limit rl <= max_int64 →
  0 <= domain.Remaining rl <= domain.Limit rl →
  length (domain.requests readings rl).1 = length readings ∧
  0 <= domain.Remaining (domain.requests readings rl).2 <= domain.Limit rl ∧
  (domain.Limit rl = 0 →
   (domain.requests readings rl).1 = repeat false (length readings)) ∧
  domain.Limit (domain.requests readings rl).2 = domain.Limit rl ∧
  domain.Window (domain.requests readings rl).2 = domain.Window rl ∧
  domain.UserID (domain.requests readings rl).2 = domain.UserID rl.
Proof. apply requests_bounds. Qed.

Lemma entity_quota_stays_within_bounds_witness :
  let rl := domain.NewRateLimit 0 "u" 2 Minute in
  let readings := [(Second, Second); (2 * Minute, 2 * Minute);
                   (2 * Minute, 2 * Minute); (2 * Minute, 2 * Minute)] in
  0 <= domain.Limit rl <= max_int64 ∧
  0 <= domain.Remaining rl <= domain.Limit rl ∧
  length (domain.requests readings rl).1 = length readings ∧
  0 <= domain.Remaining (domain.requests readings rl).2 <= domain.Limit rl ∧
  (domain.Limit rl = 0 →
   (domain.requests readings rl).1 = repeat false (length readings)) ∧
  domain.Limit (domain.requests readings rl).2 = domain.Limit rl ∧
  domain.Window (domain.requests readings rl).2 = domain.Window rl ∧
  domain.UserID (domain.requests readings rl).2 = domain.UserID rl.
Proof.
  assert (H1 : 0 <= domain.Limit (domain.NewRateLimit 0 "u" 2 Minute)
               <= max_int64) by (split; vm_compute; discriminate).
  assert (H2 : 0 <= domain.Remaining (domain.NewRateLimit 0 "u" 2 Minute)
               <= domain.Limit (domain.NewRateLimit 0 "u" 2 Minute))
    by (split; vm_compute; discriminate).
  cbv zeta. split; [exact H1|]. split; [exact H2|].
  exact (entity_quota_stays_within_bounds
           [(Second, Second); (2 * Minute, 2 * Minute);
            (2 * Minute, 2 * Minute); (2 * Minute, 2 * Minute)]
           (domain.NewRateLimit 0 "u" 2 Minute) H1 H2).
Defined.

(** X17. The entity admits exactly its limit per window.  From a new
    entity, calls of [IsAllowed] whose clock reading is not after the reset
    time are admitted up to the limit-th and denied from then on; the
    quota left after n calls is max(0, limit - n) and the reset time does
    not move. *)
Theorem entity_admits_limit_per_window now userID limit window readings :
  0 <= limit <= max_int64 →
  Forall (λ p : Z * Z, p.1 <= now + window) readings →
  (domain.requests readings (domain.NewRateLimit now userID limit window)).1
  = (λ i, Z.of_nat i <=? limit) <$> seq 1 (length readings) ∧
  domain.Remaining
    (domain.requests readings (domain.NewRateLimit now userID limit window)).2
  = Z.max 0 (limit - Z.of_nat (length readings)) ∧
  domain.ResetTime
    (domain.requests readings (domain.NewRateLimit now userID limit window)).2
  = now + window.
Proof.
  intros HL Hwin.
  exact (requests_in_window readings
           (domain.NewRateLimit now userID limit window) Hwin HL).
Qed.

Lemma entity_admits_limit_per_window_witness :
  let readings := [(Second, Second); (Second, Second); (Minute, Minute)] in
  0 <= 2 <= max_int64 ∧
  Forall (λ p : Z * Z, p.1 <= 0 + Minute) readings ∧
  (domain.requests readings (domain.NewRateLimit 0 "u" 2 Minute)).1
  = (λ i, Z.of_nat i <=? 2) <$> seq 1 (length readings) ∧
  domain.Remaining
    (domain.requests readings (domain.NewRateLimit 0 "u" 2 Minute)).2
  = Z.max 0 (2 - Z.of_nat (length readings)) ∧
  domain.ResetTime
    (domain.requests readings (domain.NewRateLimit 0 "u" 2 Minute)).2
  = 0 + Minute.
Proof.
  assert (H1 : 0 <= 2 <= max_int64) by (split; vm_compute; discriminate).
  assert (H2 : Forall (λ p : Z * Z, p.1 <= 0 + Minute)
                 [(Second, Second); (Second, Second); (Minute, Minute)])
    by (repeat constructor; vm_compute; discriminate).
  cbv zeta. split; [exact H1|]. split; [exact H2|].
  exact (entity_admits_limit_per_window 0 "u" 2 Minute
           [(Second, Second); (Second, Second); (Minute, Minute)] H1 H2).
Defined.

(** X18. The entity's window rolls over.  A call of [IsAllowed] whose clock
    reading is after the reset time opens a new window at its second
    reading, whatever quota was left; that call and the ones in the new
    window are admitted up to the limit-th.  [Reset] opens a new window in
    the same way. *)
Theorem entity_window_rollover now now' readings rl :
  domain.ResetTime rl < now →
  0 < domain.Limit rl <= max_int64 →
  Forall (λ p : Z * Z, p.1 <= now' + domain.Window rl) readings →
  (domain.requests ((now, now') :: readings) rl).1
  = (λ i, Z.of_nat i <=? domain.Limit rl) <$> seq 1 (S (length readings)) ∧
  domain.ResetTime (domain.requests ((now, now') :: readings) rl).2
  = now' + domain.Window rl ∧
  (domain.requests readings (domain.Reset now' rl)).1
  = (λ i, Z.of_nat i <=? domain.Limit rl) <$> seq 1 (length readings) ∧
  domain.ResetTime (domain.requests readings (domain.Reset now' rl)).2
  = now' + domain.Window rl.
Proof.
  intros Hexp HL Hwin.
  destruct (IsAllowed_rollover now now' rl Hexp HL)
    as (rl1 & Hstep & Hrem1 & Hreset1 & _).
  simpl domain.requests. rewrite Hstep.
  destruct (requests_in_window readings rl1) as (Hv & _ & Ht);
    [by rewrite Hreset1|lia|].
  destruct (requests_in_window readings (domain.Reset now' rl))
    as (Hv' & _ & Ht'); [exact Hwin|simpl; lia|].
  destruct (domain.requests readings rl1) as [rest rl2]. simpl in Hv, Ht.
  simpl. split; [|split; [|split]].
  - rewrite Hv. f_equal.
    + symmetry. apply Z.leb_le. lia.
    + rewrite <- (fmap_S_seq 1), <- list_fmap_compose.
      apply list_fmap_ext. intros k i Hi. unfold compose. cbv beta.
      rewrite Hrem1.
      destruct (Z.leb_spec (Z.of_nat i) (domain.Limit rl - 1)),
               (Z.leb_spec (Z.of_nat (S i)) (domain.Limit rl));
        try done; lia.
  - by rewrite Ht.
  - exact Hv'.
  - exact Ht'.
Qed.

Lemma entity_window_rollover_witness :
  let rl := (domain.requests [(0, 0); (0, 0)]
               (domain.NewRateLimit 0 "u" 2 Minute)).2 in
  let readings := [(2 * Minute, 2 * Minute); (2 * Minute, 2 * Minute)] in
  domain.ResetTime rl < 2 * Minute ∧
  0 < domain.Limit rl <= max_int64 ∧
  Forall (λ p : Z * Z, p.1 <= 2 * Minute + domain.Window rl) readings ∧
  (domain.requests ((2 * Minute, 2 * Minute) :: readings) rl).1
  = (λ i, Z.of_nat i <=? domain.Limit rl) <$> seq 1 (S (length readings)) ∧
  domain.ResetTime
    (domain.requests ((2 * Minute, 2 * Minute) :: readings) rl).2
  = 2 * Minute + domain.Window rl ∧
  (domain.requests readings (domain.Reset (2 * Minute) rl)).1
  = (λ i, Z.of_nat i <=? domain.Limit rl) <$> seq 1 (length readings) ∧
  domain.ResetTime (domain.requests readings (domain.Reset (2 * Minute) rl)).2
  = 2 * Minute + domain.Window rl.
Proof.
  set (rl := (domain.requests [(0, 0); (0, 0)]
                (domain.NewRateLimit 0 "u" 2 Minute)).2).
  assert (H1 : domain.ResetTime rl < 2 * Minute) by (vm_compute; reflexivity).
  assert (H2 : 0 < domain.Limit rl <= max_int64)
    by (split; vm_compute; congruence).
  assert (H3 : Forall (λ p : Z * Z, p.1 <= 2 * Minute + domain.Window rl)
                 [(2 * Minute, 2 * Minute); (2 * Minute, 2 * Minute)])
    by (repeat constructor; vm_compute; discriminate).
  cbv zeta. split; [exact H1|]. split; [exact H2|]. split; [exact H3|].
  exact (entity_window_rollover (2 * Minute) (2 * Minute)
           [(2 * Minute, 2 * Minute); (2 * Minute, 2 * Minute)] rl H1 H2 H3).
Defined.

(** ** The swagger loader *)

(** X19. The swagger loader serves what it read at start-up.
    [ProvideSwaggerLoader] returns a loader exactly when both configured
    files can be read, and then the two getters return the contents of
    those files, each time and without an error; when the OpenAPI file is
    missing the error says so and the HTML file is not looked at; when only
    the HTML file is missing the error names it; in both cases no loader is
    returned. *)
Theorem swagger_loader_serves_what_it_read fs config :
  match fs !! swagger.OpenApiFilePath config,
        fs !! swagger.SwaggerFilePath config with
  | Some spec, Some html =>
      ∃ loader,
        swagger.ProvideSwaggerLoader fs config = (Some loader, None) ∧
        swagger.GetOpenAPISpec loader = (Some spec, None) ∧
        swagger.GetSwaggerHTML loader = (Some html, None)
  | None, _ =>
      ∃ cause,
        swagger.ProvideSwaggerLoader fs config
        = (None, Some (wrapError "failed to read OpenAPI spec" cause))
  | Some _, None =>
      ∃ cause,
        swagger.ProvideSwaggerLoader fs config
        = (None, Some (wrapError "failed to read Swagger HTML" cause))
  end.
Proof.
  unfold swagger.ProvideSwaggerLoader, swagger.Init, swagger.ReadFile,
    swagger.NewSwaggerLoader. cbn [swagger.config].
  destruct (fs !! swagger.OpenApiFilePath config) as [spec|].
  - cbn [swagger.config].
    destruct (fs !! swagger.SwaggerFilePath config) as [html|].
    + eexists. split; [reflexivity|]. by split.
    + by eexists.
  - destruct (fs !! swagger.SwaggerFilePath config); by eexists.
Qed.

(** ** Round trips to the backend *)

Lemma backend_calls_log ev w :
  backend_calls (log ev w)
  = (backend_calls w + if is_exec ev then 1 else 0)%nat.
Proof.
  unfold backend_calls, log. simpl. rewrite List.filter_app, length_app.
  simpl. by destruct (is_exec ev).
Qed.

Lemma backend_calls_trace w w' evs :
  trace w' = (trace w ++ evs)%list →
  forallb (λ ev, negb (is_exec ev)) evs = true →
  backend_calls w' = backend_calls w.
Proof.
  intros Ht Hevs. unfold backend_calls. rewrite Ht, List.filter_app, length_app.
  assert (List.filter is_exec evs = []) as ->; [|simpl; lia].
  clear Ht. induction evs as [|ev evs IH]; [done|]. simpl in *.
  apply andb_prop in Hevs as [Hev Hevs]. destruct (is_exec ev); [done|].
  by apply IH.
Qed.

Lemma incrementLocalCache_calls w s l :
  cache_ok w →
  ∃ w', Hybrid.incrementLocalCache s l w = Ok tt w' ∧
        backend_calls w' = backend_calls w.
Proof.
  intros Hok.
  destruct (cache_ok_entry_of w s Hok) as [[Hs _]|(a & e & Hs & He & _)].
  - eexists. split; [by apply incrementLocalCache_absent|].
    by eapply backend_calls_trace.
  - destruct (Z.gtb_spec (clock w) (ResetTime e)).
    + eexists. split; [by eapply incrementLocalCache_expired|].
      by eapply backend_calls_trace.
    + eexists. split; [by eapply incrementLocalCache_live|].
      by eapply backend_calls_trace.
Qed.

Lemma updateLocalCacheWithRedisValues_calls w s l c ttl :
  cache_ok w →
  ∃ w', Hybrid.updateLocalCacheWithRedisValues s l c ttl w = Ok tt w' ∧
        backend_calls w' = backend_calls w.
Proof.
  intros Hok.
  destruct (cache_ok_entry_of w s Hok) as [[Hs _]|(a & e & Hs & He & _)].
  - eexists. split; [by apply updateLocalCacheWithRedisValues_absent|].
    by eapply backend_calls_trace.
  - eexists. split; [by eapply updateLocalCacheWithRedisValues_present|].
    by eapply backend_calls_trace.
Qed.

Lemma Hybrid_RateLimitWithDetail_calls w s l :
  cache_ok w →
  ∃ r w', Hybrid.RateLimitWithDetail s l w = Ok r w' ∧
          backend_calls w'
          = (backend_calls w + if passes_locally w s l then 1 else 0)%nat.
Proof.
  intros Hok. unfold Hybrid.RateLimitWithDetail, mbind, M_bind.
  rewrite checkLocalCache_eq by done. fold (passes_locally w s l).
  destruct (passes_locally w s l); simpl.
  - destruct (Redis_RateLimitWithDetail_frame (log (EvLoad s) w) s l)
      as ([[remaining ttl] err] & db & ->).
    match goal with |- context [mkWorld ?a ?b db ?d ?c ?t] =>
      set (w1 := mkWorld a b db d c t)
    end.
    assert (Hcalls : backend_calls w1 = (backend_calls w + 1)%nat).
    { unfold backend_calls, w1. simpl.
      rewrite !List.filter_app, !length_app. simpl. lia. }
    destruct err as [e|]; simpl.
    + by eexists _, _.
    + match goal with |- context [Hybrid.incrementLocalCache s l ?w1] =>
        destruct (incrementLocalCache_calls w1 s l) as (w' & -> & Hsame)
      end; [by apply (cache_ok_same w)|].
      eexists _, _. split; [reflexivity|]. by rewrite Hsame.
  - go_unfold.
    destruct (cache_ok_entry_of w s Hok) as [[Hs _]|(a & e & Hs & He & _)];
      rewrite Hs; simpl.
    + eexists _, _. split; [reflexivity|].
      unfold backend_calls. simpl.
      rewrite !List.filter_app, !length_app. simpl. lia.
    + rewrite He. simpl. destruct (ResetTime e >? clock w);
        (eexists _, _; split; [reflexivity|];
         unfold backend_calls; simpl;
         rewrite !List.filter_app, !length_app; simpl; lia).
Qed.

Lemma Hybrid_RateLimit_calls w s l :
  cache_ok w →
  ∃ b w', Hybrid.RateLimit s l w = Ok b w' ∧
          backend_calls w'
          = (backend_calls w + if passes_locally w s l then 1 else 0)%nat.
Proof.
  intros Hok. unfold Hybrid.RateLimit, mbind, M_bind.
  rewrite checkLocalCache_eq by done. fold (passes_locally w s l).
  destruct (passes_locally w s l); simpl.
  - destruct (Redis_RateLimitWithDetail_frame (log (EvLoad s) w) s l)
      as ([[currentCount ttl] err] & db & ->).
    match goal with |- context [mkWorld ?a ?b db ?d ?c ?t] =>
      set (w1 := mkWorld a b db d c t)
    end.
    assert (Hcalls : backend_calls w1 = (backend_calls w + 1)%nat).
    { unfold backend_calls, w1. simpl.
      rewrite !List.filter_app, !length_app. simpl. lia. }
    destruct err as [e|]; simpl.
    + match goal with |- context [Hybrid.incrementLocalCache s l ?w1] =>
        destruct (incrementLocalCache_ok w1 s l) as (w1' & Hrun & Hok' & _);
          [by apply (cache_ok_same w)|];
        destruct (incrementLocalCache_calls w1 s l) as (w' & Hrun' & Hsame);
          [by apply (cache_ok_same w)|]
      end.
      rewrite Hrun in Hrun'. injection Hrun' as <-. rewrite Hrun.
      go_unfold.
      destruct (cache_ok_entry_of w1' s Hok')
        as [[Hs _]|(a & e' & Hs & He & _)]; rewrite Hs; simpl.
      * eexists _, _. split; [reflexivity|].
        rewrite <- Hcalls, <- Hsame. unfold backend_calls. simpl.
        rewrite !List.filter_app, !length_app. simpl. lia.
      * rewrite He. eexists _, _. split; [reflexivity|].
        rewrite <- Hcalls, <- Hsame. unfold backend_calls. simpl.
        rewrite !List.filter_app, !length_app. simpl. lia.
    + match goal with
      | |- context [Hybrid.updateLocalCacheWithRedisValues s l ?c ?t ?w1] =>
        destruct (updateLocalCacheWithRedisValues_calls w1 s l c t)
          as (w' & -> & Hsame)
      end; [by apply (cache_ok_same w)|].
      eexists _, _. split; [reflexivity|]. by rewrite Hsame.
  - eexists _, _. split; [reflexivity|].
    unfold backend_calls. simpl.
    rewrite !List.filter_app, !length_app. simpl. lia.
Qed.

(** X20. Round trips to the backend.  A call of the Redis repository sends
    exactly one pipeline, the backend reachable or not.  A call of the
    hybrid repository, on either entry point and on a well-formed table,
    sends exactly one pipeline when the local check lets the request pass
    (no entry, an entry past its reset time, or a count below the limit)
    and none when it does not; it never sends two. *)
Theorem one_pipeline_per_request w s l :
  cache_ok w →
  (∃ b w', Redis.RateLimit s l w = Ok b w' ∧
           backend_calls w' = (backend_calls w + 1)%nat) ∧
  (∃ r w', Redis.RateLimitWithDetail s l w = Ok r w' ∧
           backend_calls w' = (backend_calls w + 1)%nat) ∧
  (∃ b w', Hybrid.RateLimit s l w = Ok b w' ∧
           backend_calls w'
           = (backend_calls w + if passes_locally w s l then 1 else 0)%nat) ∧
  (∃ r w', Hybrid.RateLimitWithDetail s l w = Ok r w' ∧
           backend_calls w'
           = (backend_calls w + if passes_locally w s l then 1 else 0)%nat).
Proof.
  intros Hok. split; [|split; [|split]].
  - destruct (Redis_RateLimit_frame w s l) as (b & db & ->).
    eexists _, _. split; [reflexivity|]. unfold backend_calls. simpl.
    rewrite List.filter_app, length_app. simpl. lia.
  - destruct (Redis_RateLimitWithDetail_frame w s l) as (r & db & ->).
    eexists _, _. split; [reflexivity|]. unfold backend_calls. simpl.
    rewrite List.filter_app, length_app. simpl. lia.
  - by apply Hybrid_RateLimit_calls.
  - by apply Hybrid_RateLimitWithDetail_calls.
Qed.

Lemma one_pipeline_per_request_witness :
  let w := exhausted_world in
  cache_ok w ∧
  (∃ b w', Redis.RateLimit "u" 1 w = Ok b w' ∧
           backend_calls w' = (backend_calls w + 1)%nat) ∧
  (∃ r w', Redis.RateLimitWithDetail "u" 1 w = Ok r w' ∧
           backend_calls w' = (backend_calls w + 1)%nat) ∧
  (∃ b w', Hybrid.RateLimit "u" 1 w = Ok b w' ∧
           backend_calls w'
           = (backend_calls w + if passes_locally w "u" 1 then 1 else 0)%nat) ∧
  (∃ r w', Hybrid.RateLimitWithDetail "u" 1 w = Ok r w' ∧
           backend_calls w'
           = (backend_calls w + if passes_locally w "u" 1 then 1 else 0)%nat).
Proof.
  split; [exact exhausted_world_ok|].
  exact (one_pipeline_per_request exhausted_world "u" 1 exhausted_world_ok).
Defined.
